(** * easy-fix: capture / replay fixtures for wrapped asynchronous methods

    A shallow embedding of [src/index.js] and of the pieces of the JavaScript
    runtime it drives ([JSON.stringify], [JSON.parse], [fs], [path],
    [crypto], [process.nextTick], promises), followed by the properties of
    the wrapper that the specification states.

    Conventions of the embedding
    - JavaScript objects live in a heap and are compared by address, so that
      cyclic structures can be written down;
    - numbers are integers ([Z]) printed in plain decimal, as JavaScript
      prints the integers below [10^21]; strings are sequences of 8-bit code
      units, the characters [U+0000] to [U+00FF], which [crypto] hashes in
      their UTF-8 encoding;
    - objects carry no accessor properties and no [toJSON] methods, and
      their properties are writable: reading or writing a property runs no
      user code;
    - a thrown exception is a value of [exn]; a computation that can throw
      returns a [run];
    - a serializer given as an option is a function from a heap and a value
      to a string or [undefined], which may throw;
    - a path of the file system holds a file, holds nothing, or fails with
      one error code, on reading and on writing alike;
    - the wrapped method is described by what it does: the functions it
      calls while it runs, the value it returns or throws, and what it does
      in later turns of the event loop, one turn for each call it makes and
      for the settlement of its promise.  An exception that escapes a turn
      ends the session; so does an exception of the wrapper itself, which
      the caller is not taken to catch: the [nextTick] queue then stays as
      the call left it. *)

From Stdlib Require Import ZArith Ascii.
From stdpp Require Import base tactics option list strings pretty gmap.

Local Open Scope Z_scope.
Local Open Scope nat_scope.

(** ** Values and the object heap *)

Abbreviation addr := nat.

(** A function is either one supplied by the user of the library or the
    callback the wrapper builds at lines 112-117 of the source. *)
Inductive func :=
| UserFn (id : nat)
| ProxyFn.

Inductive value :=
| VUndefined
| VNull
| VBool (b : bool)
| VNum (n : Z)
| VStr (s : string)
| VFun (f : func)
| VRef (a : addr).

(** ** Exceptions and outcomes *)

Inductive exn :=
| TypeError (msg : string)
| SyntaxError (msg : string)
| Error (msg : string)                       (* [new Error(msg)] *)
| SystemError (code : string) (path : string)  (* raised by [fs] *)
| Thrown (v : value).                        (* thrown by user code *)

(** The outcome of a computation.  [Stuck] is not a behaviour of the
    program: the model ran out of fuel, met an address that is not
    allocated, or left the fragment of the runtime that is modelled. *)
Inductive run (A : Type) :=
| Done (a : A)
| Raised (e : exn)
| Stuck.
Arguments Done {A} a.
Arguments Raised {A} e.
Arguments Stuck {A}.

(** Objects, with their own enumerable properties in enumeration order.
    A promise and an [Error] instance have none (the message of an error is
    not enumerable). *)
Inductive object :=
| OArr (elems : list value)
| OObj (props : list (string * value))
| OPromise
| OError (message : string).

Abbreviation heap := (list object).

Global Instance func_eq_dec : EqDecision func.
Proof. solve_decision. Defined.
Global Instance value_eq_dec : EqDecision value.
Proof. solve_decision. Defined.

(** [===] on values: primitives by content, objects and functions by
    identity. *)
Definition strict_eq (x y : value) : bool := bool_decide (x = y).

(** [Array.prototype.indexOf], with [None] for [-1]. *)
Fixpoint indexOf (l : list value) (x : value) : option nat :=
  match l with
  | [] => None
  | y :: l' => if strict_eq y x then Some 0 else S <$> indexOf l' x
  end.

(** [ToBoolean]. *)
Definition truthy (v : value) : bool :=
  match v with
  | VUndefined | VNull => false
  | VBool b => b
  | VNum n => negb (Z.eqb n 0)
  | VStr s => negb (bool_decide (s = EmptyString))
  | VFun _ | VRef _ => true
  end.

(** [typeof v === 'function'] *)
Definition is_function (v : value) : bool :=
  match v with VFun _ => true | _ => false end.

(** The own enumerable properties [JSON.stringify] walks: the elements of
    an array under their index, the properties of a plain object. *)
Definition entries (o : object) : list (string * value) :=
  match o with
  | OArr elems => imap (fun i x => (pretty i, x)) elems
  | OObj props => props
  | OPromise | OError _ => []
  end.

Definition is_array (o : object) : bool :=
  match o with OArr _ => true | _ => false end.

(** Every address mentioned by an object of the heap is allocated. *)
Definition value_closed (h : heap) (v : value) : Prop :=
  match v with VRef a => a < length h | _ => True end.

Definition heap_closed (h : heap) : Prop :=
  Forall (fun o => Forall (fun kv => value_closed h kv.2) (entries o)) h.

(** ** JSON texts *)

#[local] Unset Elimination Schemes.
Inductive json :=
| JNull
| JBool (b : bool)
| JNum (n : Z)
| JStr (s : string)
| JArr (elems : list json)
| JObj (members : list (string * json)).
#[local] Set Elimination Schemes.

Module JSON.

(** *** Printing, after [QuoteJSONString], [SerializeJSONArray] and
    [SerializeJSONObject] of ECMA-262 *)

Definition dquote : ascii := ascii_of_nat 34.
Definition newline : ascii := ascii_of_nat 10.
Definition str (c : ascii) : string := String c EmptyString.

Definition hex_digit (n : nat) : ascii :=
  nth n (String.list_ascii_of_string "0123456789abcdef") "0"%char.

Definition quote_unit (c : ascii) : string :=
  let n := nat_of_ascii c in
  if n =? 34 then String "\" (str dquote)
  else if n =? 92 then "\\"
  else if n =? 8 then "\b"
  else if n =? 9 then "\t"
  else if n =? 10 then "\n"
  else if n =? 12 then "\f"
  else if n =? 13 then "\r"
  else if n <? 32 then
    "\u00" +:+ String (hex_digit (n / 16)) (str (hex_digit (n mod 16)))
  else str c.

Fixpoint quote_body (s : string) : string :=
  match s with
  | EmptyString => EmptyString
  | String c s' => quote_unit c +:+ quote_body s'
  end.

Definition quote (s : string) : string :=
  String dquote (quote_body s) +:+ str dquote.

Definition is_empty (s : string) : bool :=
  match s with EmptyString => true | _ => false end.

(** The bracketing shared by arrays and objects: [partial] holds the
    printed elements or members. *)
Definition bracket (open close gap stepback : string) (partial : list string)
  : string :=
  match partial with
  | [] => open +:+ close
  | _ =>
    if is_empty gap then open +:+ String.concat "," partial +:+ close
    else
      let indent := stepback +:+ gap in
      open +:+ str newline +:+ indent
        +:+ String.concat ("," +:+ str newline +:+ indent) partial
        +:+ str newline +:+ stepback +:+ close
  end.

Fixpoint render (gap indent : string) (j : json) : string :=
  match j with
  | JNull => "null"
  | JBool true => "true"
  | JBool false => "false"
  | JNum n => pretty n
  | JStr s => quote s
  | JArr elems =>
    bracket "[" "]" gap indent
      (map (fun x => render gap (indent +:+ gap) x) elems)
  | JObj members =>
    bracket "{" "}" gap indent
      (map (fun kv =>
              quote kv.1 +:+ ":" +:+ (if is_empty gap then EmptyString else " ")
                +:+ render gap (indent +:+ gap) kv.2) members)
  end.

(** *** Parsing ([JSON.parse])

    A recursive-descent reader of the JSON grammar.  Numbers with a
    fraction or an exponent and hexadecimal escapes from 256 on are outside
    the domain of [JNum] and of the code units of [string]: on them the
    reader answers [Unsupported], and [JSON.parse] is [Stuck]. *)

Inductive parsed (A : Type) :=
| Parsed (a : A) (rest : list ascii)
| NoParse
| Unsupported.
Arguments Parsed {A} a rest.
Arguments NoParse {A}.
Arguments Unsupported {A}.

Definition and_then {A B} (r : parsed A)
  (k : A -> list ascii -> parsed B) : parsed B :=
  match r with
  | Parsed a rest => k a rest
  | NoParse => NoParse
  | Unsupported => Unsupported
  end.

Definition is_ws (c : ascii) : bool :=
  let n := nat_of_ascii c in
  (n =? 32) || (n =? 9) || (n =? 10) || (n =? 13).

Fixpoint skip_ws (l : list ascii) : list ascii :=
  match l with
  | c :: r => if is_ws c then skip_ws r else l
  | [] => []
  end.

Definition digit_val (c : ascii) : option nat :=
  let n := nat_of_ascii c in
  if (48 <=? n) && (n <=? 57) then Some (n - 48) else None.

Definition hex_val (c : ascii) : option nat :=
  let n := nat_of_ascii c in
  if (48 <=? n) && (n <=? 57) then Some (n - 48)
  else if (97 <=? n) && (n <=? 102) then Some (n - 87)
  else if (65 <=? n) && (n <=? 70) then Some (n - 55)
  else None.

Fixpoint parse_digits (acc : Z) (l : list ascii) : Z * list ascii :=
  match l with
  | c :: r =>
    match digit_val c with
    | Some d => parse_digits (acc * 10 + Z.of_nat d)%Z r
    | None => (acc, l)
    end
  | [] => (acc, [])
  end.

Definition starts_fraction (l : list ascii) : bool :=
  match l with
  | c :: _ => Ascii.eqb c "." || Ascii.eqb c "e" || Ascii.eqb c "E"
  | [] => false
  end.

Definition parse_number (l : list ascii) : parsed json :=
  let '(neg, l1) :=
    match l with
    | c :: r => if Ascii.eqb c "-" then (true, r) else (false, l)
    | [] => (false, l)
    end in
  let sign (n : Z) := if neg : bool then (- n)%Z else n in
  match l1 with
  | c :: r =>
    match digit_val c with
    | None => NoParse
    | Some 0 => if starts_fraction r then Unsupported else Parsed (JNum 0) r
    | Some d =>
      let '(n, r') := parse_digits (Z.of_nat d) r in
      if starts_fraction r' then Unsupported else Parsed (JNum (sign n)) r'
    end
  | [] => NoParse
  end.

Definition unescape (c : ascii) : option ascii :=
  let n := nat_of_ascii c in
  if (n =? 34) || (n =? 92) || (n =? 47) then Some c
  else if Ascii.eqb c "b" then Some (ascii_of_nat 8)
  else if Ascii.eqb c "f" then Some (ascii_of_nat 12)
  else if Ascii.eqb c "n" then Some (ascii_of_nat 10)
  else if Ascii.eqb c "r" then Some (ascii_of_nat 13)
  else if Ascii.eqb c "t" then Some (ascii_of_nat 9)
  else None.

(** The code unit a four-digit hexadecimal escape denotes. *)
Definition hex4 (a b c d : ascii) : parsed ascii :=
  match hex_val a, hex_val b, hex_val c, hex_val d with
  | Some 0, Some 0, Some x, Some y => Parsed (ascii_of_nat (16 * x + y)) []
  | Some _, Some _, Some _, Some _ => Unsupported
  | _, _, _, _ => NoParse
  end.

(** The characters of a string literal, after its opening quote. *)
Fixpoint parse_string_body (l : list ascii) : parsed string :=
  match l with
  | [] => NoParse
  | c :: r =>
    let n := nat_of_ascii c in
    if n =? 34 then Parsed EmptyString r
    else if n =? 92 then
      match r with
      | e :: r' =>
        match unescape e with
        | Some c' =>
          and_then (parse_string_body r')
            (fun s rest => Parsed (String c' s) rest)
        | None =>
          if Ascii.eqb e "u" then
            match r' with
            | h1 :: h2 :: h3 :: h4 :: r'' =>
              and_then (hex4 h1 h2 h3 h4) (fun c' _ =>
              and_then (parse_string_body r'')
                (fun s rest => Parsed (String c' s) rest))
            | _ => NoParse
            end
          else NoParse
        end
      | [] => NoParse
      end
    else if n <? 32 then NoParse
    else
      and_then (parse_string_body r)
        (fun s rest => Parsed (String c s) rest)
  end.

Fixpoint strip_prefix (p l : list ascii) : option (list ascii) :=
  match p, l with
  | [], _ => Some l
  | a :: p', b :: l' => if Ascii.eqb a b then strip_prefix p' l' else None
  | _ :: _, [] => None
  end.

Definition literal (word : string) (j : json) (l : list ascii)
  : parsed json :=
  match strip_prefix (String.list_ascii_of_string word) l with
  | Some r => Parsed j r
  | None => NoParse
  end.

Fixpoint parse_value (fuel : nat) (l : list ascii) : parsed json :=
  match fuel with
  | 0 => NoParse
  | S fuel =>
    match skip_ws l with
    | [] => NoParse
    | c :: r =>
      if Ascii.eqb c "{" then
        match skip_ws r with
        | c' :: r' =>
          if Ascii.eqb c' "}" then Parsed (JObj []) r'
          else and_then (parse_members fuel r)
                 (fun ms rest => Parsed (JObj ms) rest)
        | [] => NoParse
        end
      else if Ascii.eqb c "[" then
        match skip_ws r with
        | c' :: r' =>
          if Ascii.eqb c' "]" then Parsed (JArr []) r'
          else and_then (parse_elements fuel r)
                 (fun xs rest => Parsed (JArr xs) rest)
        | [] => NoParse
        end
      else if Ascii.eqb c dquote then
        and_then (parse_string_body r) (fun s rest => Parsed (JStr s) rest)
      else if Ascii.eqb c "t" then literal "true" (JBool true) (c :: r)
      else if Ascii.eqb c "f" then literal "false" (JBool false) (c :: r)
      else if Ascii.eqb c "n" then literal "null" JNull (c :: r)
      else parse_number (c :: r)
    end
  end
with parse_elements (fuel : nat) (l : list ascii) : parsed (list json) :=
  match fuel with
  | 0 => NoParse
  | S fuel =>
    and_then (parse_value fuel l) (fun x r =>
      match skip_ws r with
      | c :: r' =>
        if Ascii.eqb c "," then
          and_then (parse_elements fuel r')
            (fun xs rest => Parsed (x :: xs) rest)
        else if Ascii.eqb c "]" then Parsed [x] r'
        else NoParse
      | [] => NoParse
      end)
  end
with parse_members (fuel : nat) (l : list ascii)
  : parsed (list (string * json)) :=
  match fuel with
  | 0 => NoParse
  | S fuel =>
    match skip_ws l with
    | q :: r =>
      if Ascii.eqb q dquote then
        and_then (parse_string_body r) (fun k r1 =>
          match skip_ws r1 with
          | colon :: r2 =>
            if Ascii.eqb colon ":" then
              and_then (parse_value fuel r2) (fun x r3 =>
                match skip_ws r3 with
                | c :: r4 =>
                  if Ascii.eqb c "," then
                    and_then (parse_members fuel r4)
                      (fun ms rest => Parsed ((k, x) :: ms) rest)
                  else if Ascii.eqb c "}" then Parsed [(k, x)] r4
                  else NoParse
                | [] => NoParse
                end)
            else NoParse
          | [] => NoParse
          end)
      else NoParse
    | [] => NoParse
    end
  end.

Definition syntax_error : exn := SyntaxError "Unexpected token in JSON".

Definition parse_text (text : string) : run json :=
  let l := String.list_ascii_of_string text in
  match parse_value (2 * length l + 2) l with
  | Parsed j rest =>
    match skip_ws rest with
    | [] => Done j
    | _ :: _ => Raised syntax_error
    end
  | NoParse => Raised syntax_error
  | Unsupported => Stuck
  end.

(** [ToString] of a parsed value, the coercion [JSON.parse] applies to an
    argument that is not a string. *)
Fixpoint to_string (j : json) : string :=
  match j with
  | JNull => "null"
  | JBool true => "true"
  | JBool false => "false"
  | JNum n => pretty n
  | JStr s => s
  | JArr elems =>
    String.concat ","
      (map (fun x => match x with JNull => EmptyString | _ => to_string x end)
           elems)
  | JObj _ => "[object Object]"
  end.

(** [JSON.parse(x)] for [x] read from a parsed object: a property that is
    absent is [undefined]. *)
Definition parse (x : option json) : run json :=
  match x with
  | None => parse_text "undefined"
  | Some j => parse_text (to_string j)
  end.

(** Property lookup on a parsed value, [j.key]: the last binding of the
    key in an object, [undefined] on other values, [TypeError] on [null]. *)
Fixpoint last_binding (key : string) (ms : list (string * json))
  : option json :=
  match ms with
  | [] => None
  | (k, x) :: ms' =>
    match last_binding key ms' with
    | Some y => Some y
    | None => if bool_decide (k = key) then Some x else None
    end
  end.

Definition get (j : json) (key : string) : run (option json) :=
  match j with
  | JNull => Raised (TypeError "Cannot read properties of null")
  | JObj ms => Done (last_binding key ms)
  | _ => Done None
  end.

(** [ToBoolean] of a property read from a parsed object. *)
Definition truthy (x : option json) : bool :=
  match x with
  | None | Some JNull => false
  | Some (JBool b) => b
  | Some (JNum n) => negb (Z.eqb n 0)
  | Some (JStr s) => negb (is_empty s)
  | Some (JArr _) | Some (JObj _) => true
  end.

End JSON.

(** ** The safe serializer  (src/index.js, lines 33-64) *)

(** The two arrays the closure returned by [stringifySafeSerializer] keeps
    between calls. *)
Record serializer_state := {
  stack : list value;
  keys : list string;
}.

Definition fresh_state : serializer_state := {| stack := []; keys := [] |}.

(** A user-supplied [replacer] or [cycleReplacer], called with [this],
    the key and the value. *)
Definition transformer := value -> string -> value -> value.

(** [keys.slice(0, i)], where [i] is the result of an [indexOf]. *)
Definition slice0 (l : list string) (i : option nat) : list string :=
  match i with
  | Some n => take n l
  | None => take (length l - 1) l
  end.

(** Lines 38-43: the default [cycleReplacer]. *)
Definition defaultCycleReplacer (st : serializer_state) (key : string)
  (v : value) : value :=
  if strict_eq (default VUndefined (stack st !! 0)) v then
    VStr "[Circular ~]"
  else
    VStr ("[Circular ~."
            +:+ String.concat "." (slice0 (keys st) (indexOf (stack st) v))
            +:+ "]").

(** Lines 46-59: the function handed to [JSON.stringify]. *)
Definition stringifySafeSerializer
  (replacer cycleReplacer : option transformer)
  (st : serializer_state) (this : value) (key : string) (v : value)
  : serializer_state * value :=
  let '(st', v') :=
    if 0 <? length (stack st) then
      let thisPos := indexOf (stack st) this in
      let st1 :=
        match thisPos with
        | Some p => {| stack := take (p + 1) (stack st);
                       keys := take p (keys st) ++ [key] |}
        | None => {| stack := stack st ++ [this];
                     keys := keys st ++ [key] |}
        end in
      match indexOf (stack st1) v with
      | Some _ =>
        (st1, match cycleReplacer with
              | Some f => f this key v
              | None => defaultCycleReplacer st1 key v
              end)
      | None => (st1, v)
      end
    else ({| stack := stack st ++ [v]; keys := keys st |}, v) in
  (st', match replacer with Some f => f this key v' | None => v' end).

(** ** [JSON.stringify] with a replacer function (ECMA-262, 25.5.2)

    [SerializeJSONProperty] calls the replacer on every property, then
    serializes the value it returns; [nstack] is the engine's own stack,
    on which it raises [TypeError] for a cyclic structure. *)

Module Stringify.
Section Traversal.
Variable h : heap.
Variable replacerFn :
  serializer_state -> value -> string -> value -> serializer_state * value.

Definition cyclic_error : exn :=
  TypeError "Converting circular structure to JSON".

Fixpoint ser_entries
  (rec : serializer_state -> string -> value ->
         serializer_state * run (option json))
  (st : serializer_state) (es : list (string * value))
  : serializer_state * run (list (string * option json)) :=
  match es with
  | [] => (st, Done [])
  | (k, x) :: es' =>
    match rec st k x with
    | (st1, Done r) =>
      match ser_entries rec st1 es' with
      | (st2, Done rs) => (st2, Done ((k, r) :: rs))
      | (st2, Raised e) => (st2, Raised e)
      | (st2, Stuck) => (st2, Stuck)
      end
    | (st1, Raised e) => (st1, Raised e)
    | (st1, Stuck) => (st1, Stuck)
    end
  end.

(** An array prints [null] for an element without JSON form, an object
    omits the member. *)
Definition assemble (o : object) (rs : list (string * option json)) : json :=
  if is_array o then JArr (map (fun kr => default JNull kr.2) rs)
  else JObj (omap (fun kr => match kr.2 with
                             | Some j => Some (kr.1, j)
                             | None => None
                             end) rs).

Fixpoint SerializeJSONProperty (fuel : nat) (nstack : list addr)
  (st : serializer_state) (holder : value) (key : string) (v : value)
  : serializer_state * run (option json) :=
  match fuel with
  | 0 => (st, Stuck)
  | S fuel' =>
    let '(st1, v1) := replacerFn st holder key v in
    match v1 with
    | VUndefined | VFun _ => (st1, Done None)
    | VNull => (st1, Done (Some JNull))
    | VBool b => (st1, Done (Some (JBool b)))
    | VNum n => (st1, Done (Some (JNum n)))
    | VStr s => (st1, Done (Some (JStr s)))
    | VRef a =>
      match h !! a with
      | None => (st1, Stuck)
      | Some o =>
        if bool_decide (a ∈ nstack) then (st1, Raised cyclic_error)
        else
          match ser_entries
                  (fun s k x =>
                     SerializeJSONProperty fuel' (nstack ++ [a]) s
                       (VRef a) k x)
                  st1 (entries o) with
          | (st2, Done rs) => (st2, Done (Some (assemble o rs)))
          | (st2, Raised e) => (st2, Raised e)
          | (st2, Stuck) => (st2, Stuck)
          end
      end
    end
  end.

(** The holder of the root value is a wrapper object the engine has just
    created: it sits at the first free address. *)
Definition stringify (gap : string) (v : value) : run (option string) :=
  match SerializeJSONProperty (S (length h)) [] fresh_state
          (VRef (length h)) EmptyString v with
  | (_, Done r) => Done (JSON.render gap EmptyString <$> r)
  | (_, Raised e) => Raised e
  | (_, Stuck) => Stuck
  end.
End Traversal.
End Stringify.

(** Lines 62-64.  [spaces] is the indentation string, [None] when the
    argument is omitted. *)
Definition stringifySafe (h : heap) (obj : value)
  (replacer : option transformer) (spaces : option string)
  (cycleReplacer : option transformer) : run (option string) :=
  Stringify.stringify h (stringifySafeSerializer replacer cycleReplacer)
    (String.substring 0 10 (default EmptyString spaces)) obj.

(** ** What the specification says of the safe serializer

    [renders h ancestors path v r]: the value [v], found at key-path [path]
    below the root while the objects [ancestors] (root first) are being
    serialized, has JSON form [r] ([None]: no form, as for [undefined]).
    A value that is one of its own ancestors is replaced by a marker naming
    the key-path of that ancestor; the root itself by the bare marker. *)

Definition circular_marker (ancestor_path : list string) : string :=
  match ancestor_path with
  | [] => "[Circular ~]"
  | _ => "[Circular ~." +:+ String.concat "." ancestor_path +:+ "]"
  end.

Inductive renders (h : heap)
  : list addr -> list string -> value -> option json -> Prop :=
| renders_undefined anc path : renders h anc path VUndefined None
| renders_function anc path f : renders h anc path (VFun f) None
| renders_null anc path : renders h anc path VNull (Some JNull)
| renders_bool anc path b : renders h anc path (VBool b) (Some (JBool b))
| renders_num anc path n : renders h anc path (VNum n) (Some (JNum n))
| renders_str anc path s : renders h anc path (VStr s) (Some (JStr s))
| renders_circular anc path a i :
    anc !! i = Some a ->
    renders h anc path (VRef a)
      (Some (JStr (circular_marker (take i path))))
| renders_object anc path a o rs :
    a ∉ anc ->
    h !! a = Some o ->
    Forall2 (fun kx kr =>
               kx.1 = kr.1 /\
               renders h (anc ++ [a]) (path ++ [kx.1]) kx.2 kr.2)
            (entries o) rs ->
    renders h anc path (VRef a) (Some (Stringify.assemble o rs)).

(** ** The platform: [os], [path], [crypto], [process.env] *)

Record platform := {
  EOL : string;                             (* [os.EOL] *)
  path_join : string -> string -> string;   (* [path.join] of two segments *)
  sha256_hex : string -> string;
    (* [crypto.createHash('sha256').update(s).digest('hex')] *)
  TEST_MODE : option string;                (* [process.env.TEST_MODE] *)
  fs_error : string -> string -> object;
    (* the object [fs] throws, from its code and the path *)
}.

(** SHA-256 (FIPS 180-4) on the code units of a string, as lower-case
    hexadecimal. *)
Module SHA256.
Local Open Scope Z_scope.

Definition w32 (x : Z) : Z := Z.land x 0xffffffff.
Definition add32 (x y : Z) : Z := w32 (x + y).
Definition rotr (n x : Z) : Z :=
  w32 (Z.lor (Z.shiftr x n) (Z.shiftl x (32 - n))).
Definition Ch (x y z : Z) : Z :=
  Z.lxor (Z.land x y) (Z.land (Z.lxor x 0xffffffff) z).
Definition Maj (x y z : Z) : Z :=
  Z.lxor (Z.lxor (Z.land x y) (Z.land x z)) (Z.land y z).
Definition Sigma0 (x : Z) : Z :=
  Z.lxor (Z.lxor (rotr 2 x) (rotr 13 x)) (rotr 22 x).
Definition Sigma1 (x : Z) : Z :=
  Z.lxor (Z.lxor (rotr 6 x) (rotr 11 x)) (rotr 25 x).
Definition sigma0 (x : Z) : Z :=
  Z.lxor (Z.lxor (rotr 7 x) (rotr 18 x)) (Z.shiftr x 3).
Definition sigma1 (x : Z) : Z :=
  Z.lxor (Z.lxor (rotr 17 x) (rotr 19 x)) (Z.shiftr x 10).

(** The first sixty-four primes. *)
Definition primes : list Z :=
  [2; 3; 5; 7; 11; 13; 17; 19; 23; 29; 31; 37; 41; 43; 47; 53; 59; 61; 67;
   71; 73; 79; 83; 89; 97; 101; 103; 107; 109; 113; 127; 131; 137; 139;
   149; 151; 157; 163; 167; 173; 179; 181; 191; 193; 197; 199; 211; 223;
   227; 229; 233; 239; 241; 251; 257; 263; 269; 271; 277; 281; 283; 293;
   307; 311].

(** The integer cube root of [x], one bit at a time below bit [bits]. *)
Fixpoint cube_root (bits : nat) (r x : Z) : Z :=
  match bits with
  | O => r
  | S b =>
    let c := r + Z.shiftl 1 (Z.of_nat b) in
    cube_root b (if c * c * c <=? x then c else r) x
  end.

(** The round constants: the first thirty-two bits of the fractional
    parts of the cube roots of the primes. *)
Definition K : list Z :=
  map (fun p => w32 (cube_root 36 0 (Z.shiftl p 96))) primes.

(** The initial hash value: the same of the square roots of the first
    eight primes. *)
Definition H0 : list Z :=
  map (fun p => w32 (Z.sqrt (Z.shiftl p 64))) (take 8 primes).

(** Big-endian bytes of [x], [n] of them. *)
Fixpoint be_bytes (n : nat) (x : Z) : list Z :=
  match n with
  | O => []
  | S n' => Z.land (Z.shiftr x (8 * Z.of_nat n')) 0xff :: be_bytes n' x
  end.

Definition pad (msg : list Z) : list Z :=
  let len := Z.of_nat (length msg) in
  let zeros := Z.to_nat ((55 - len) mod 64) in
  msg ++ [0x80] ++ replicate zeros 0 ++ be_bytes 8 (8 * len).

Fixpoint words (n : nat) (bytes : list Z) : list Z :=
  match n, bytes with
  | S n', a :: b :: c :: d :: rest =>
    (Z.shiftl a 24 + Z.shiftl b 16 + Z.shiftl c 8 + d) :: words n' rest
  | _, _ => []
  end.

(** The message schedule, most recent word first. *)
Fixpoint schedule (n : nat) (w : list Z) : list Z :=
  match n with
  | O => w
  | S n' =>
    let at_ i := nth i w 0 in
    schedule n'
      (add32 (add32 (sigma1 (at_ 1%nat)) (at_ 6%nat))
             (add32 (sigma0 (at_ 14%nat)) (at_ 15%nat)) :: w)
  end.

Definition round (s : list Z) (kw : Z * Z) : list Z :=
  match s with
  | [a; b; c; d; e; f; g; hh] =>
    let t1 := add32 (add32 (add32 hh (Sigma1 e)) (Ch e f g))
                    (add32 kw.1 kw.2) in
    let t2 := add32 (Sigma0 a) (Maj a b c) in
    [add32 t1 t2; a; b; c; add32 d t1; e; f; g]
  | _ => s
  end.

Definition compress (hs : list Z) (block : list Z) : list Z :=
  let w := rev (schedule 48 (rev (words 16 block))) in
  zip_with add32 hs (fold_left round (zip K w) hs).

Fixpoint blocks (n : nat) (hs : list Z) (bytes : list Z) : list Z :=
  match n with
  | O => hs
  | S n' => blocks n' (compress hs (take 64 bytes)) (drop 64 bytes)
  end.

Definition hex (n : Z) : ascii := JSON.hex_digit (Z.to_nat n).

Definition hex_of_byte (b : Z) : list ascii :=
  [hex (Z.shiftr b 4); hex (Z.land b 0xf)].

(** The UTF-8 encoding of a code unit below 256. *)
Definition utf8 (c : Z) : list Z :=
  if c <? 0x80 then [c]
  else [Z.lor 0xc0 (Z.shiftr c 6); Z.lor 0x80 (Z.land c 0x3f)].

(** [createHash('sha256').update(s).digest('hex')]: [update] hashes the
    UTF-8 encoding of a string. *)
Definition digest_hex (s : string) : string :=
  let msg := concat (map (fun c => utf8 (Z.of_nat (nat_of_ascii c)))
                         (String.list_ascii_of_string s)) in
  let bytes := pad msg in
  let hs := blocks (length bytes / 64) H0 bytes in
  String.string_of_list_ascii
    (concat (map (fun x => concat (map hex_of_byte (be_bytes 4 x))) hs)).
End SHA256.

(** POSIX [path.join] and [path.normalize]. *)
Module Posix.
Fixpoint split_on (c : ascii) (s : string) : list string :=
  match s with
  | EmptyString => [EmptyString]
  | String x s' =>
    if Ascii.eqb x c then EmptyString :: split_on c s'
    else
      match split_on c s' with
      | seg :: rest => String x seg :: rest
      | [] => [String x EmptyString]
      end
  end.

(** One segment of [normalizeString]; [acc] holds the segments kept so
    far, last first. *)
Definition segment (allowAboveRoot : bool) (acc : list string)
  (seg : string) : list string :=
  if bool_decide (seg = EmptyString) || bool_decide (seg = ".") then acc
  else if bool_decide (seg = "..") then
    match acc with
    | top :: rest =>
      if bool_decide (top = "..")
      then (if allowAboveRoot then ".." :: acc else acc)
      else rest
    | [] => if allowAboveRoot then [".."] else []
    end
  else seg :: acc.

Definition starts_with_slash (p : string) : bool :=
  match p with String c _ => Ascii.eqb c "/" | EmptyString => false end.

Fixpoint ends_with_slash (p : string) : bool :=
  match p with
  | EmptyString => false
  | String c EmptyString => Ascii.eqb c "/"
  | String _ p' => ends_with_slash p'
  end.

Definition normalize (p : string) : string :=
  if JSON.is_empty p then "."
  else
    let isAbsolute := starts_with_slash p in
    let trailing := ends_with_slash p in
    let body :=
      String.concat "/"
        (rev (fold_left (segment (negb isAbsolute)) (split_on "/" p) [])) in
    if JSON.is_empty body then
      if isAbsolute then "/" else if trailing then "./" else "."
    else
      (if isAbsolute then "/" else EmptyString)
        +:+ body +:+ (if trailing then "/" else EmptyString).

Definition join (a b : string) : string :=
  if JSON.is_empty a then normalize b
  else if JSON.is_empty b then normalize a
  else normalize (a +:+ "/" +:+ b).

(** The numbers Linux gives the error codes of [open]. *)
Definition errno (code : string) : Z :=
  (if bool_decide (code = "EPERM") then -1
   else if bool_decide (code = "ENOENT") then -2
   else if bool_decide (code = "EIO") then -5
   else if bool_decide (code = "EACCES") then -13
   else if bool_decide (code = "EEXIST") then -17
   else if bool_decide (code = "ENOTDIR") then -20
   else if bool_decide (code = "EISDIR") then -21
   else if bool_decide (code = "EMFILE") then -24
   else if bool_decide (code = "ENOSPC") then -28
   else if bool_decide (code = "EROFS") then -30
   else 0)%Z.

(** The enumerable properties of the error [fs] throws when it cannot open
    a file. *)
Definition open_error (code path : string) : object :=
  OObj [("errno", VNum (errno code)); ("code", VStr code);
        ("syscall", VStr "open"); ("path", VStr path)].

Definition platform_of (env : option string) : platform :=
  {| EOL := JSON.str JSON.newline;
     path_join := join;
     sha256_hex := SHA256.digest_hex;
     TEST_MODE := env;
     fs_error := open_error |}.
End Posix.

(** ** Constants and [getNiceError]  (lines 8-23) *)

(** [modes[key]] on the own properties of [modes]. *)
Definition modes (key : string) : option string :=
  if bool_decide (key = "live") then Some "live"
  else if bool_decide (key = "capture") then Some "capture"
  else if bool_decide (key = "replay") then Some "replay"
  else None.

Definition HASH_LENGTH : nat := 12.

Definition NICE_ERR_HEADER : string :=
  "This test (in replay mode) could not read the expected mock data from".
Definition NICE_ERR_SERIALIZATION_DESCRIPTOR : string :=
  "Serialized arguments".
Definition NICE_ERR_FOOTER : string :=
  "If you have not already, try running this test in capture mode to generate new test fixtures.  If you continue to see this error, a likely cause is differing (frequently changing) argument for the wrapped asynchronous task.  This can be mitigated by defining an argumentSerializer option that ignores the frequently-changing argument.".
Definition NICE_ERR_PROMISE : string :=
  "easy-fix retained no resolution/rejection arguments for this wrapped promise".

Definition getNiceError (file details : string) : string :=
  NICE_ERR_HEADER +:+ " " +:+ JSON.str JSON.dquote +:+ file
    +:+ JSON.str JSON.dquote +:+ JSON.str JSON.newline +:+ JSON.str JSON.newline
    +:+ NICE_ERR_SERIALIZATION_DESCRIPTOR +:+ ":" +:+ JSON.str JSON.newline
    +:+ details +:+ JSON.str JSON.newline +:+ JSON.str JSON.newline
    +:+ NICE_ERR_FOOTER.

(** ** Configuration  (lines 66-81) *)

(** A serializer receives one value of the heap and returns a string or
    [undefined]. *)
Definition serializer := heap -> value -> run (option string).

(** A substitution strategy receives the arguments and the new callback;
    it returns the arguments as it leaves them and the callback it took
    out. *)
Definition swap := list value -> value -> list value * value.

(** [optionsArg]: the directory alone, or an object whose absent fields
    are [None]. *)
Record options_object := {
  arg_dir : option string;
  arg_prefix : option string;
  arg_mode : option string;
  arg_callbackSwap : option swap;
  arg_argumentSerializer : option serializer;
  arg_responseSerializer : option serializer;
  arg_returnValueSerializer : option serializer;
  arg_sinon : bool;
}.

Inductive optionsArg :=
| OptString (directory : string)
| OptObject (o : options_object).

Record options := {
  dir : string;
  prefix : string;
  mode : option string;
  callbackSwap : swap;
  argumentSerializer : serializer;
  responseSerializer : serializer;
  returnValueSerializer : serializer;
  sinon : bool;
}.

(** [x || y] on a string that may be [undefined]. *)
Definition or_else (x : option string) (y : string) : string :=
  match x with
  | Some s => if JSON.is_empty s then y else s
  | None => y
  end.

(** Lines 73-77. *)
Definition defaultCallbackSwap : swap := fun args newCallback =>
  match args with
  | [] => ([], VUndefined)
  | _ => (<[length args - 1 := newCallback]> args,
          default VUndefined (last args))
  end.

(** A serializer option left out: [stringifySafe] called with one
    argument. *)
Definition defaultSerializer : serializer := fun h v =>
  stringifySafe h v None None None.

(** A field of [optionsArg]; a string has none of them. *)
Definition field {A} (f : options_object -> option A) (arg : optionsArg)
  : option A :=
  match arg with
  | OptString _ => None
  | OptObject o => f o
  end.

(** Lines 68-81: the options a wrapper works with. *)
Definition resolve_options (P : platform) (method : string) (arg : optionsArg)
  : options :=
  {| dir := match arg with
            | OptString s => s
            | OptObject o => or_else (arg_dir o) "test/data"
            end;
     prefix := or_else (field arg_prefix arg) method;
     mode := match field arg_mode arg with
             | Some m =>
               if JSON.is_empty m then modes (or_else (TEST_MODE P) "replay")
               else Some m
             | None => modes (or_else (TEST_MODE P) "replay")
             end;
     callbackSwap := default defaultCallbackSwap (field arg_callbackSwap arg);
     argumentSerializer :=
       default defaultSerializer (field arg_argumentSerializer arg);
     responseSerializer :=
       default defaultSerializer (field arg_responseSerializer arg);
     returnValueSerializer :=
       default defaultSerializer (field arg_returnValueSerializer arg);
     sinon := match arg with OptString _ => false | OptObject o => arg_sinon o end
  |}.

(** ** The world around one call of the wrapper *)

(** A path of the file system holds a file or fails with an error code. *)
Inductive node :=
| File (content : string)
| Failing (code : string).

(** A value handed to the caller: one of the heap, one [JSON.parse] has
    just built, or an exception object. *)
Inductive datum :=
| Heap (v : value)
| Fresh (j : json)
| Exception (e : exn).

Inductive settlement :=
| Resolved (d : datum)
| Rejected (d : datum).

(** What the wrapped method does.  It calls functions while it runs,
    returns or throws, and in later turns of the event loop calls functions
    again and settles the promise it returned. *)
Inductive action :=
| Invoke (f : value) (args : list value)
| Fulfil (v : value)
| Reject (v : value).

Record behaviour := {
  during : list (value * list value);
  completes : run value;
  afterwards : list action;
}.

Definition method := value -> list value -> behaviour.

(** What the wrapper hands back to its caller. *)
Inductive returned :=
| RetValue (d : datum)
| RetPromise.        (* the promise the wrapper has built *)

(** A callback handed to [process.nextTick] by the replay branch. *)
Inductive task :=
| TaskCallback (callbackArgs : option json)      (* lines 162-164 *)
| TaskSettle (cannedJson : json).                (* lines 168-176 *)

(** What a session shows: the real method runs; [fs.readFileSync] or
    [fs.writeFileSync] is called; a callback of the caller runs; the
    promise the caller holds settles. *)
Inductive event :=
| EvOriginal (self : value) (args : list value)
| EvRead (path : string)
| EvWrite (path : string) (content : string)
| EvCallback (f : value) (args : list datum)
| EvSettled (s : settlement).

(** The file system, what has been observed so far (latest last), the
    [nextTick] queue, what the wrapped method has still to do, and the
    variables the closures of one call share. *)
Record state := {
  fs : gmap string node;
  trace : list event;
  queue : list task;
  pending : list action;
  filepath : string;
  wrappedCallData : list (string * value);
  origCallback : value;
  proxy_built : bool;   (* line 112 has built the callback [ProxyFn] *)
  chained : bool;       (* the handlers of lines 126-143 wait *)
}.

Definition start (files : gmap string node) : state :=
  {| fs := files; trace := []; queue := []; pending := [];
     filepath := EmptyString; wrappedCallData := [];
     origCallback := VUndefined;
     proxy_built := false; chained := false |}.

Definition set_fs (x : gmap string node) (s : state) : state :=
  {| fs := x; trace := trace s; queue := queue s; pending := pending s;
     filepath := filepath s; wrappedCallData := wrappedCallData s;
     origCallback := origCallback s; proxy_built := proxy_built s;
     chained := chained s |}.
Definition set_trace (x : list event) (s : state) : state :=
  {| fs := fs s; trace := x; queue := queue s; pending := pending s;
     filepath := filepath s; wrappedCallData := wrappedCallData s;
     origCallback := origCallback s; proxy_built := proxy_built s;
     chained := chained s |}.
Definition set_queue (x : list task) (s : state) : state :=
  {| fs := fs s; trace := trace s; queue := x; pending := pending s;
     filepath := filepath s; wrappedCallData := wrappedCallData s;
     origCallback := origCallback s; proxy_built := proxy_built s;
     chained := chained s |}.
Definition set_pending (x : list action) (s : state) : state :=
  {| fs := fs s; trace := trace s; queue := queue s; pending := x;
     filepath := filepath s; wrappedCallData := wrappedCallData s;
     origCallback := origCallback s; proxy_built := proxy_built s;
     chained := chained s |}.
Definition set_filepath (x : string) (s : state) : state :=
  {| fs := fs s; trace := trace s; queue := queue s; pending := pending s;
     filepath := x; wrappedCallData := wrappedCallData s;
     origCallback := origCallback s; proxy_built := proxy_built s;
     chained := chained s |}.
Definition set_wrappedCallData (x : list (string * value)) (s : state) : state :=
  {| fs := fs s; trace := trace s; queue := queue s; pending := pending s;
     filepath := filepath s; wrappedCallData := x;
     origCallback := origCallback s; proxy_built := proxy_built s;
     chained := chained s |}.
Definition set_origCallback (x : value) (s : state) : state :=
  {| fs := fs s; trace := trace s; queue := queue s; pending := pending s;
     filepath := filepath s; wrappedCallData := wrappedCallData s;
     origCallback := x; proxy_built := proxy_built s;
     chained := chained s |}.
Definition set_proxy_built (x : bool) (s : state) : state :=
  {| fs := fs s; trace := trace s; queue := queue s; pending := pending s;
     filepath := filepath s; wrappedCallData := wrappedCallData s;
     origCallback := origCallback s; proxy_built := x;
     chained := chained s |}.
Definition set_chained (x : bool) (s : state) : state :=
  {| fs := fs s; trace := trace s; queue := queue s; pending := pending s;
     filepath := filepath s; wrappedCallData := wrappedCallData s;
     origCallback := origCallback s; proxy_built := proxy_built s;
     chained := x |}.

(** *** State and exceptions *)

Definition M (A : Type) : Type := state -> run A * state.

Definition ret {A} (a : A) : M A := fun s => (Done a, s).

Definition bind {A B} (m : M A) (k : A -> M B) : M B := fun s =>
  match m s with
  | (Done a, s') => k a s'
  | (Raised e, s') => (Raised e, s')
  | (Stuck, s') => (Stuck, s')
  end.

Declare Scope wrapper_scope.
Delimit Scope wrapper_scope with W.
Notation "'let*' x ':=' m 'in' k" := (bind m (fun x => k))
  (at level 10, x name, m at level 100, k at level 200) : wrapper_scope.
Local Open Scope wrapper_scope.

Definition lift {A} (r : run A) : M A := fun s => (r, s).
Definition throw {A} (e : exn) : M A := lift (Raised e).
Definition get_state : M state := fun s => (Done s, s).
Definition modify (f : state -> state) : M unit := fun s => (Done tt, f s).
Definition log (e : event) : M unit :=
  modify (fun s => set_trace (trace s ++ [e]) s).

Fixpoint for_each {A} (f : A -> M unit) (l : list A) : M unit :=
  match l with
  | [] => ret tt
  | x :: l' => let* _ := f x in for_each f l'
  end.

(** [obj[key] = v] on an object held as the list of its properties. *)
Fixpoint assign (key : string) (v : value) (props : list (string * value))
  : list (string * value) :=
  match props with
  | [] => [(key, v)]
  | (k, x) :: props' =>
    if bool_decide (k = key) then (k, v) :: props'
    else (k, x) :: assign key v props'
  end.

Definition set_field (key : string) (v : value) : M unit :=
  modify (fun s => set_wrappedCallData (assign key v (wrappedCallData s)) s).

(** A string, or [undefined]. *)
Definition of_option (x : option string) : value :=
  match x with Some s => VStr s | None => VUndefined end.

(** [x + y] where [x] is a string or [undefined]. *)
Definition concat_string (x : option string) (y : string) : string :=
  default "undefined" x +:+ y.

(** [fs.readFileSync(path, 'utf8')] and [fs.writeFileSync(path, data,
    'utf8')]. *)
Definition readFileSync (path : string) : M string :=
  let* _ := log (EvRead path) in
  let* s := get_state in
  match fs s !! path with
  | Some (File content) => ret content
  | Some (Failing code) => throw (SystemError code path)
  | None => throw (SystemError "ENOENT" path)
  end.

Definition writeFileSync (path data : string) : M unit :=
  let* _ := log (EvWrite path data) in
  let* s := get_state in
  match fs s !! path with
  | Some (Failing code) => throw (SystemError code path)
  | _ => modify (fun s => set_fs (<[path := File data]> (fs s)) s)
  end.

(** [err.code] of a caught exception. *)
Definition code_of (e : exn) : option string :=
  match e with
  | SystemError code _ => Some code
  | _ => None
  end.

(** [try { m } catch (err) { handler(err) }] *)
Definition try_catch {A} (m : M A) (handler : exn -> M A) : M A := fun s =>
  match m s with
  | (Raised e, s') => handler e s'
  | other => other
  end.

(** ** The wrapper  (lines 83-180) *)

(** [v.then], as far as line 122 and the call of line 126 need it. *)
Inductive thenable :=
| NotThenable                (* [v.then] is falsy *)
| NativePromise              (* [v] is a promise *)
| Foreign (then_ : value).   (* an object with a truthy property [then] *)

Definition lookup_prop (key : string) (props : list (string * value))
  : value :=
  match list_find (fun kv => kv.1 = key) props with
  | Some (_, (_, x)) => x
  | None => VUndefined
  end.

Definition then_of (h : heap) (v : value) : run thenable :=
  match v with
  | VRef a =>
    match h !! a with
    | Some OPromise => Done NativePromise
    | Some (OObj props) =>
      let t := lookup_prop "then" props in
      Done (if truthy t then Foreign t else NotThenable)
    | Some (OArr _) | Some (OError _) => Done NotThenable
    | None => Stuck
    end
  | _ => Done NotThenable
  end.

(** The value a [catch] receives for an exception, and the heap that
    holds the exception object. *)
Definition caught (P : platform) (h : heap) (e : exn) : heap * value :=
  match e with
  | Thrown v => (h, v)
  | TypeError msg | SyntaxError msg | Error msg =>
    (h ++ [OError msg], VRef (length h))
  | SystemError code path =>
    (h ++ [fs_error P code path], VRef (length h))
  end.

(** The argument list [f.apply(self, x)] builds from a parsed value. *)
Definition CreateListFromArrayLike (x : json) : run (list json) :=
  match x with
  | JNull => Done []
  | JArr elems => Done elems
  | JObj _ => Stuck
  | JBool _ | JNum _ | JStr _ =>
    Raised (TypeError "CreateListFromArrayLike called on non-object")
  end.

(** [resolve.apply(self, args)]: the first argument, or [undefined]. *)
Definition first_argument (args : list json) : datum :=
  match args with
  | j :: _ => Fresh j
  | [] => Heap VUndefined
  end.

Section Wrapper.
Variable P : platform.
Variable h : heap.
Variable opts : options.
Variable originalFn : method.

(** [Array.from(arguments)] handed to a serializer: a new array. *)
Definition serialize_list (f : serializer) (args : list value)
  : M (option string) :=
  lift (f (h ++ [OArr args]) (VRef (length h))).

(** Lines 93-99. *)
Definition hashKey (argStr : string) : string :=
  String.substring 0 HASH_LENGTH (sha256_hex P argStr).

Definition filepath_of (argStr : string) : string :=
  path_join P (dir opts) (prefix opts +:+ "-" +:+ hashKey argStr +:+ ".json").

(** Lines 103-108. *)
Definition writeWrappedCallData : M unit :=
  let* s := get_state in
  let data := wrappedCallData s in
  let* text := lift (stringifySafe (h ++ [OObj data]) (VRef (length h))
                       None (Some "  ") None) in
  writeFileSync (filepath s) (concat_string text (EOL P)).

(** [f.apply(this, args)] for a callback the caller supplied. *)
Definition call_callback (f : value) (args : list datum) : M unit :=
  match f with
  | VFun (UserFn _) => log (EvCallback f args)
  | VFun ProxyFn => lift Stuck
  | _ => throw (TypeError "origCallback.apply is not a function")
  end.

(** Lines 112-117: the body of the callback that replaces the caller's. *)
Definition proxy (callbackArgs : list value) : M unit :=
  let* r := serialize_list (responseSerializer opts) callbackArgs in
  let* _ := set_field "callbackArgs" (of_option r) in
  let* _ := writeWrappedCallData in
  let* s := get_state in
  call_callback (origCallback s) (Heap <$> callbackArgs).

(** A call the wrapped method makes.  [ProxyFn] runs the body above once
    line 112 has built it; any other function belongs to the caller. *)
Definition invoke (f : value) (args : list value) : M unit :=
  let* s := get_state in
  match f with
  | VFun ProxyFn =>
    if proxy_built s then proxy args
    else log (EvCallback f (Heap <$> args))
  | VFun (UserFn _) => log (EvCallback f (Heap <$> args))
  | _ => throw (TypeError "callback is not a function")
  end.

(** [originalFn.apply(self, args)]: the method runs up to its return;
    what it does later is left pending. *)
Definition apply_original (self : value) (args : list value) : M value :=
  let b := originalFn self args in
  let* _ := log (EvOriginal self args) in
  let* _ := modify (set_pending (afterwards b)) in
  let* _ := for_each (fun c => invoke c.1 c.2) (during b) in
  lift (completes b).

(** Lines 120-148. *)
Definition capture (self : value) (callingArgs : list value) : M returned :=
  let* returnValue := apply_original self callingArgs in
  let* t := lift (if truthy returnValue then then_of h returnValue
                  else Done NotThenable) in
  let returnedPromise :=
    if truthy returnValue
    then VBool (match t with NotThenable => false | _ => true end)
    else returnValue in
  let* _ := set_field "returnedPromise" returnedPromise in
  if truthy returnedPromise then
    match t with
    | NativePromise =>
      let* _ := modify (set_chained true) in ret RetPromise
    | Foreign (VFun _) => lift Stuck
    | _ => throw (TypeError "returnValue.then is not a function")
    end
  else
    let* r := lift (returnValueSerializer opts h returnValue) in
    let* _ := set_field "returnValue" (of_option r) in
    ret (RetValue (Heap returnValue)).

(** Lines 150-179. *)
Definition replay (argStr : string) : M returned :=
  let* s := get_state in
  let* cannedData :=
    try_catch (readFileSync (filepath s))
      (fun err =>
         if bool_decide (code_of err = Some "ENOENT")
         then throw (Error (getNiceError (filepath s) argStr))
         else throw err) in
  let* cannedJson := lift (JSON.parse_text cannedData) in
  let* callbackArgs := lift (JSON.get cannedJson "callbackArgs") in
  let* _ :=
    if JSON.truthy callbackArgs
    then modify (fun s => set_queue (queue s ++ [TaskCallback callbackArgs]) s)
    else ret tt in
  let* returnedPromise := lift (JSON.get cannedJson "returnedPromise") in
  if JSON.truthy returnedPromise then
    let* _ := modify (fun s => set_queue (queue s ++ [TaskSettle cannedJson]) s) in
    ret RetPromise
  else
    let* returnValue := lift (JSON.get cannedJson "returnValue") in
    let* j := lift (JSON.parse returnValue) in
    ret (RetValue (Fresh j)).

(** Lines 83-180: one call of the wrapper, up to its return. *)
Definition wrapper (self : value) (arguments : list value) : M returned :=
  let callingArgs := arguments in
  if bool_decide (mode opts = Some "live") then
    let* v := apply_original self callingArgs in
    ret (RetValue (Heap v))
  else
    let* argStr := serialize_list (argumentSerializer opts) callingArgs in
    match argStr with
    | None =>
      throw (TypeError "The data argument must be of type string")
    | Some argStr =>
      let* _ := modify (set_filepath (filepath_of argStr)) in
      let* _ := modify (set_wrappedCallData [("callArgs", VStr argStr)]) in
      let* callingArgs :=
        if is_function (default VUndefined (last callingArgs)) then
          let '(args, orig) := callbackSwap opts callingArgs (VFun ProxyFn) in
          let* _ := modify (set_proxy_built true) in
          let* _ := modify (set_origCallback orig) in
          ret args
        else ret callingArgs in
      if bool_decide (mode opts = Some "capture")
      then capture self callingArgs
      else replay argStr
    end.

(** *** Later turns of the event loop *)

(** Lines 135-143, the handler [catch] attaches, called with the value
    [reason] of the heap [h'], which the caller sees as [d].  An exception
    inside the handler rejects the promise the caller holds. *)
Definition catch_handler (h' : heap) (reason : value) (d : datum) : M unit :=
  try_catch
    (let* r := lift (responseSerializer opts (h' ++ [OArr [reason]])
                       (VRef (length h'))) in
     let* _ := set_field "promiseRejectionArgs" (of_option r) in
     let* _ := writeWrappedCallData in
     log (EvSettled (Rejected d)))
    (fun e => log (EvSettled (Rejected (Exception e)))).

(** The wrapped promise is rejected with [v]. *)
Definition on_rejected (v : value) : M unit :=
  let* _ := modify (set_chained false) in
  catch_handler h v (Heap v).

(** Lines 126-134, the handler [then] attaches: the wrapped promise is
    fulfilled with [v].  An exception inside the handler rejects the
    promise it returns, which the handler of [catch] receives. *)
Definition on_fulfilled (v : value) : M unit :=
  let* _ := modify (set_chained false) in
  try_catch
    (let* r := serialize_list (responseSerializer opts) [v] in
     let* _ := set_field "promiseResolutionArgs" (of_option r) in
     let* _ := writeWrappedCallData in
     log (EvSettled (Resolved (Heap v))))
    (fun e =>
       let '(h', reason) := caught P h e in
       catch_handler h' reason (Exception e)).

(** One thing the wrapped method does after it has returned. *)
Definition deliver (a : action) : M unit :=
  let* s := get_state in
  match a with
  | Invoke f args => invoke f args
  | Fulfil v =>
    if chained s then on_fulfilled v
    else log (EvSettled (Resolved (Heap v)))
  | Reject v =>
    if chained s then on_rejected v
    else log (EvSettled (Rejected (Heap v)))
  end.

(** One callback of the [nextTick] queue. *)
Definition run_task (t : task) : M unit :=
  match t with
  | TaskCallback callbackArgs =>
    let* s := get_state in
    match origCallback s with
    | VUndefined | VNull =>
      throw (TypeError "Cannot read properties of undefined")
    | f =>
      let* parsed := lift (JSON.parse callbackArgs) in
      match f with
      | VFun (UserFn _) =>
        let* args := lift (CreateListFromArrayLike parsed) in
        call_callback f (Fresh <$> args)
      | _ => call_callback f []
      end
    end
  | TaskSettle cannedJson =>
    let* resolution := lift (JSON.get cannedJson "promiseResolutionArgs") in
    if JSON.truthy resolution then
      let* parsed := lift (JSON.parse resolution) in
      let* args := lift (CreateListFromArrayLike parsed) in
      log (EvSettled (Resolved (first_argument args)))
    else
      let* rejection := lift (JSON.get cannedJson "promiseRejectionArgs") in
      if JSON.truthy rejection then
        let* parsed := lift (JSON.parse rejection) in
        let* args := lift (CreateListFromArrayLike parsed) in
        log (EvSettled (Rejected (first_argument args)))
      else
        log (EvSettled (Rejected (Exception (Error NICE_ERR_PROMISE))))
  end.

(** The turns after the call: the [nextTick] queue, then what the wrapped
    method had left to do. *)
Definition later : M unit :=
  let* s := get_state in
  let* _ := modify (set_queue []) in
  let* _ := for_each run_task (queue s) in
  let* s' := get_state in
  let* _ := modify (set_pending []) in
  for_each deliver (pending s').

(** A call and everything that follows from it.  When the wrapper throws,
    the session ends there. *)
Definition session (self : value) (arguments : list value) : M returned :=
  let* r := wrapper self arguments in
  let* _ := later in
  ret r.
End Wrapper.

(** Calling the method without any wrapper: it runs, its callbacks are the
    caller's, the promise it returns is the one the caller holds. *)
Definition direct_invoke (f : value) (args : list value) : M unit :=
  if is_function f then log (EvCallback f (Heap <$> args))
  else throw (TypeError "callback is not a function").

Definition direct_deliver (a : action) : M unit :=
  match a with
  | Invoke f args => direct_invoke f args
  | Fulfil v => log (EvSettled (Resolved (Heap v)))
  | Reject v => log (EvSettled (Rejected (Heap v)))
  end.

Definition direct_call (originalFn : method) (self : value)
  (arguments : list value) : M returned :=
  let b := originalFn self arguments in
  let* _ := log (EvOriginal self arguments) in
  let* _ := for_each (fun c => direct_invoke c.1 c.2) (during b) in
  let* v := lift (completes b) in
  let* _ := for_each direct_deliver (afterwards b) in
  ret (RetValue (Heap v)).

(** ** Vocabulary of the statements *)

(** [sub] occurs in [s]. *)
Definition contains (sub s : string) : Prop :=
  exists a b, s = a +:+ sub +:+ b.

(** The field [key] of a parsed fixture is present and truthy. *)
Definition field_truthy (cannedJson : json) (key : string) : bool :=
  match JSON.get cannedJson key with
  | Done x => JSON.truthy x
  | _ => false
  end.

Definition is_original (e : event) : bool :=
  match e with EvOriginal _ _ => true | _ => false end.

(** The caller's callback runs, or the promise it holds settles. *)
Definition is_delivery (e : event) : bool :=
  match e with EvCallback _ _ | EvSettled _ => true | _ => false end.

Definition is_fs_event (e : event) : bool :=
  match e with EvRead _ | EvWrite _ _ => true | _ => false end.

(** A value that is not an object. *)
Definition primitive (v : value) : Prop :=
  match v with VRef _ => False | _ => True end.

(** The JSON form of such a value, if it has one. *)
Definition json_of_primitive (v : value) : option json :=
  match v with
  | VNull => Some JNull
  | VBool b => Some (JBool b)
  | VNum n => Some (JNum n)
  | VStr s => Some (JStr s)
  | VUndefined | VFun _ | VRef _ => None
  end.

(** The members [JSON.stringify] prints for an object whose properties
    are not objects. *)
Definition members_of (props : list (string * value))
  : list (string * json) :=
  omap (fun kv => match json_of_primitive kv.2 with
                  | Some j => Some (kv.1, j)
                  | None => None
                  end) props.

(** The fields the source gives a fixture. *)
Definition fixture_fields : list string :=
  ["callArgs"; "callbackArgs"; "returnedPromise"; "promiseResolutionArgs";
   "promiseRejectionArgs"; "returnValue"].

(** The fields the specification gives a fixture. *)
Definition spec_fixture_fields : list string :=
  ["callArgs"; "callbackArgs"; "returnedDeferred"; "resolutionArgs";
   "rejectionArgs"; "returnValue"].

(** The text of a fixture with the given members. *)
Definition fixture_text (P : platform) (members : list (string * json))
  : string :=
  JSON.render "  " EmptyString (JObj members) +:+ EOL P.

Definition has_field {A} (key : string) (members : list (string * A))
  : Prop :=
  key ∈ members.*1.

Global Instance has_field_dec {A} (key : string)
  (members : list (string * A)) : Decision (has_field key members).
Proof. unfold has_field. apply _. Defined.

(** How many of the three outcome groups a fixture populates: callback
    arguments; the settlement of a promise; a return value. *)
Definition populated_groups (members : list (string * json)) : nat :=
  let has key := bool_decide (has_field key members) in
  (if has "callbackArgs" then 1 else 0)
  + (if has "promiseResolutionArgs" || has "promiseRejectionArgs"
     then 1 else 0)
  + (if has "returnValue" then 1 else 0).

(** ** Scenarios

    A POSIX platform without [TEST_MODE]; a method [fetch] wrapped with the
    fixture directory [/tmp/x] in each of the three modes. *)

Module Scenario.
Definition P0 : platform := Posix.platform_of None.

Definition with_mode (m : option string) : options_object :=
  {| arg_dir := Some "/tmp/x"; arg_prefix := None; arg_mode := m;
     arg_callbackSwap := None; arg_argumentSerializer := None;
     arg_responseSerializer := None; arg_returnValueSerializer := None;
     arg_sinon := false |}.

Definition no_directory : options_object :=
  {| arg_dir := None; arg_prefix := None; arg_mode := None;
     arg_callbackSwap := None; arg_argumentSerializer := None;
     arg_responseSerializer := None; arg_returnValueSerializer := None;
     arg_sinon := false |}.

Definition live_opts : options :=
  resolve_options P0 "fetch" (OptObject (with_mode (Some "live"))).
Definition capture_opts : options :=
  resolve_options P0 "fetch" (OptObject (with_mode (Some "capture"))).
Definition replay_opts : options :=
  resolve_options P0 "fetch" (OptString "/tmp/x").

Definition the_callback : value := VFun (UserFn 1).

(** [fetch(42, cb)] calls [cb(null, 7)] in a later turn and returns
    nothing. *)
Definition fetch_later : method := fun _ args =>
  {| during := [];
     completes := Done VUndefined;
     afterwards := [Invoke (default VUndefined (last args)) [VNull; VNum 7]] |}.

(** [seven(1)] returns [7]. *)
Definition seven : method := fun _ _ =>
  {| during := []; completes := Done (VNum 7); afterwards := [] |}.

(** A heap with a promise, an [Error] and a cyclic pair of objects. *)
Definition objects : heap :=
  [OPromise; OError "boom";
   OObj [("name", VStr "root"); ("self", VRef 2); ("child", VRef 3)];
   OObj [("parent", VRef 2); ("items", VRef 4)];
   OArr [VRef 3; VNum 5; VUndefined]].

(** [both(1, cb)] calls [cb(3)] before it returns a promise, which is
    later fulfilled with [8]. *)
Definition both : method := fun _ args =>
  {| during := [(default VUndefined (last args), [VNum 3])];
     completes := Done (VRef 0);
     afterwards := [Fulfil (VNum 8)] |}.

(** [resolving(1)] returns a promise that is later fulfilled with [8]. *)
Definition resolving : method := fun _ _ =>
  {| during := []; completes := Done (VRef 0);
     afterwards := [Fulfil (VNum 8)] |}.

(** [failing(1)] returns a promise that is later rejected with an
    [Error]. *)
Definition failing : method := fun _ _ =>
  {| during := []; completes := Done (VRef 0);
     afterwards := [Reject (VRef 1)] |}.

Definition fixture_of_one : string := "/tmp/x/fetch-080a9ed42855.json".

Definition fixture_of_both : string := "/tmp/x/fetch-28f6766b5fb8.json".

(** The record the capture of [both(1, cb)] leaves. *)
Definition members_of_both : list (string * json) :=
  [("callArgs", JStr "[1,null]"); ("callbackArgs", JStr "[3]");
   ("returnedPromise", JBool true); ("promiseResolutionArgs", JStr "[8]")].

(** The record the capture of [failing(1)] leaves. *)
Definition members_of_failing : list (string * json) :=
  [("callArgs", JStr "[1]"); ("returnedPromise", JBool true);
   ("promiseRejectionArgs", JStr "[{}]")].

(** A fixture that marks a promise and holds no settlement. *)
Definition unsettled : gmap string node :=
  {[ fixture_of_one :=
       File (fixture_text P0 [("callArgs", JStr "[1]");
                              ("returnedPromise", JBool true)]) ]}.

(** A fixture that marks the promise under the name the specification
    gives the flag. *)
Definition marked_deferred : gmap string node :=
  {[ fixture_of_one :=
       File (fixture_text P0 [("callArgs", JStr "[1]");
                              ("returnedDeferred", JBool true)]) ]}.
End Scenario.

(** ** Vocabulary of the proofs *)

(** The state of the serializer between two calls of the replacer, while
    the objects [anc] are open and [path] leads to the last of them: its
    arrays start with the ancestors and their keys; what follows is left
    over from a subtree already printed. *)
Definition settled (st : serializer_state) (anc : list addr)
  (path : list string) : Prop :=
  exists junk jk,
    stack st = (VRef <$> anc) ++ junk /\ keys st = path ++ jk.

(** The state in which the replacer is called for a property of [hd]:
    either [hd] has not been pushed yet (its first property), or it has. *)
Definition entering (st : serializer_state) (anc0 : list addr) (hd : addr)
  (path : list string) : Prop :=
  (anc0 <> [] /\ stack st = VRef <$> anc0 /\ keys st = path)
  \/ settled st (anc0 ++ [hd]) path.

(** [s'] extends [s] without touching the file system. *)
Definition quiet (s s' : state) : Prop :=
  fs s' = fs s
  /\ exists evs, trace s' = trace s ++ evs
                 /\ Forall (fun e => is_fs_event e = false) evs.

(** A state of the wrapper in which no callback has been substituted and
    no handler attached, against a state of the direct call. *)
Definition alike (s d : state) : Prop :=
  fs s = fs d /\ trace s = trace d
  /\ proxy_built s = false /\ chained s = false.


(** Hoare triples for the state-and-exception monad.

    [triple pre m post exc]: from a state of [pre], [m] ends in a state of
    [post] when it returns and in a state of [exc] otherwise. *)

Definition triple {A} (pre : state -> Prop) (m : M A)
  (post : A -> state -> Prop) (exc : state -> Prop) : Prop :=
  forall s, pre s ->
    match m s with
    | (Done a, s') => post a s'
    | (_, s') => exc s'
    end.


(** A step that leaves the state as it is keeps whatever held. *)
Ltac unchanged :=
  let s := fresh "s" in
  let Hs := fresh "Hs" in
  intros s Hs; unfold throw, lift, ret, get_state; simpl;
  solve [ exact Hs | by destruct Hs | done ].


(** What a capture has written and holds in memory, for a call whose
    arguments serialize to [argStr], started on the files [files]; [Rok]
    is what is known of every result of the response serializer. *)
Section Invariants.
Variable P : platform.
Variable opts : options.
Variable argStr : string.
Variable files : gmap string node.
Variable Rok : option string -> Prop.


(** The record never holds a return value beside the settlement of a
    promise. *)
Definition exclusive {A} (data : list (string * A)) : Prop :=
  ~ (has_field "returnValue" data
     /\ (has_field "promiseResolutionArgs" data
         \/ has_field "promiseRejectionArgs" data)).

Definition outcome_recorded (data : list (string * value)) : Prop :=
  exists K r,
    K ∈ ["callbackArgs"; "promiseResolutionArgs"; "promiseRejectionArgs"]
    /\ Rok r /\ (K, of_option r) ∈ data.

Definition record_ok (data : list (string * value)) : Prop :=
  (exists rest, data = ("callArgs", VStr argStr) :: rest)
  /\ Forall (fun kv => primitive kv.2) data
  /\ (forall k, has_field k data -> k ∈ fixture_fields)
  /\ exclusive data
  /\ outcome_recorded data.

Definition written_ok (e : event) : Prop :=
  match e with
  | EvWrite path content =>
    path = filepath_of P opts argStr
    /\ exists data, record_ok data
                    /\ content = fixture_text P (members_of data)
  | _ => True
  end.

Definition files_ok (s : state) : Prop :=
  forall p, fs s !! p = files !! p
            \/ exists content, fs s !! p = Some (File content)
                               /\ EvWrite p content ∈ trace s.

(** What holds of the record and of the flag [chained] before the
    wrapped method has returned, and after. *)
Definition before_return (data : list (string * value)) (c : bool) : Prop :=
  (forall k, has_field k data -> k = "callArgs" \/ k = "callbackArgs")
  /\ c = false.

Definition after_return (data : list (string * value)) (c : bool) : Prop :=
  (forall k, has_field k data -> k ∈ fixture_fields)
  /\ exclusive data
  /\ (c = true -> ~ has_field "returnValue" data
                  /\ ~ has_field "promiseResolutionArgs" data
                  /\ ~ has_field "promiseRejectionArgs" data).

(** What holds once a handler of the promise runs. *)
Definition settling (data : list (string * value)) (c : bool) : Prop :=
  (forall k, has_field k data -> k ∈ fixture_fields)
  /\ c = false
  /\ ~ has_field "returnValue" data.

Definition Inv (X : list (string * value) -> bool -> Prop) (s : state)
  : Prop :=
  filepath s = filepath_of P opts argStr
  /\ Forall written_ok (trace s)
  /\ files_ok s
  /\ (exists rest, wrappedCallData s = ("callArgs", VStr argStr) :: rest)
  /\ Forall (fun kv => primitive kv.2) (wrappedCallData s)
  /\ X (wrappedCallData s) (chained s).

Definition sound (X : list (string * value) -> bool -> Prop) : Prop :=
  (forall d c v, X d c -> X (assign "callbackArgs" v d) c)
  /\ (forall d c, X d c ->
        (forall k, has_field k d -> k ∈ fixture_fields) /\ exclusive d).
End Invariants.

(** ** Vocabulary of the further properties *)

(** The characters of a string. *)
Abbreviation chars := String.list_ascii_of_string.

(** A bound on the depth the reader of JSON texts needs for a value. *)
Fixpoint jsize (j : json) : nat :=
  match j with
  | JArr elems => S (list_sum (map (fun x => S (jsize x)) elems))
  | JObj members => S (list_sum (map (fun kv => S (jsize kv.2)) members))
  | _ => 1
  end.

(** White space only. *)
Definition blank (l : list ascii) : Prop :=
  Forall (fun c => JSON.is_ws c = true) l.

(** What may follow a value in a JSON text: nothing, white space, a comma
    or a closing bracket. *)
Definition closes (l : list ascii) : Prop :=
  match l with
  | [] => True
  | c :: _ =>
    JSON.is_ws c = true \/ c = ","%char \/ c = "]"%char \/ c = "}"%char
  end.

(** Parts separated by [sep]. *)
Fixpoint joined (sep : list ascii) (parts : list (list ascii)) : list ascii :=
  match parts with
  | [] => []
  | [p] => p
  | p :: ps => p ++ sep ++ joined sep ps
  end.

(** Running the monad on a state that is known. *)
Ltac run :=
  cbv beta iota zeta delta
    [bind log modify lift ret throw set_field get_state try_catch
     serialize_list for_each fst snd
     during completes afterwards
     fs trace queue pending filepath wrappedCallData origCallback
     proxy_built chained start
     set_fs set_trace set_queue set_pending set_filepath
     set_wrappedCallData set_origCallback set_proxy_built set_chained].

(** The JSON form of the [i]-th element [x] of the array at address [root],
    as [JSON.stringify] prints it with the safe replacer: [null] for an
    element without a form of its own. *)
Definition json_form (h : heap) (root : addr) (i : nat) (x : value)
  (j : json) : Prop :=
  exists r, renders h [root] [pretty i] x r /\ j = default JNull r.

(** ** Installing the wrapper  (lines 66-67 and 182-189) *)

(** What a property of [obj] holds: [undefined], a method of the user, or
    the wrapper [wrapAsyncMethod] has built for the property [method], with
    its options and what the property held before. *)
Inductive installed :=
| Undefined
| Method (m : method)
| Wrapper (method : string) (opts : options) (originalFn : installed).

(** The object that carries the method: its own properties, and the
    properties its prototype chain provides (those of the nearest prototype
    that has the name). *)
Record target := {
  own : gmap string installed;
  inherited : gmap string installed;
}.

(** [obj[method]]: the own property, else the inherited one, else
    [undefined]. *)
Definition get_method (obj : target) (method : string) : installed :=
  match own obj !! method with
  | Some f => f
  | None => default Undefined (inherited obj !! method)
  end.

(** [obj[method] = f]: the assignment creates or updates an own property
    and leaves the prototypes alone. *)
Definition set_method (obj : target) (method : string) (f : installed)
  : target :=
  {| own := <[method := f]> (own obj); inherited := inherited obj |}.

(** [wrapAsyncMethod(obj, method, optionsArg)]; [optionsArg] is [None]
    when the argument is left out.  It returns the object as it leaves it
    and the wrapper.  With the option [sinon] the wrapper is handed to
    that library, which is outside the model. *)
Definition wrapAsyncMethod (P : platform) (obj : target)
  (method : string) (arg : option optionsArg)
  : run (target * installed) :=
  let originalFn := get_method obj method in
  match arg with
  | None => Raised (TypeError "Cannot read properties of undefined")
  | Some optionsArg =>
    let options := resolve_options P method optionsArg in
    if sinon options then Stuck
    else
      let w := Wrapper method options originalFn in
      Done (set_method obj method w, w)
  end.

(** [f.restore()], lines 186-188: only a wrapper has the method. *)
Definition restore (obj : target) (f : installed) : run target :=
  match f with
  | Wrapper method _ originalFn => Done (set_method obj method originalFn)
  | _ => Raised (TypeError "restore is not a function")
  end.

(** A file is read. *)
Definition is_read (e : event) : bool :=
  match e with EvRead _ => true | _ => false end.

(** No file has been read so far. *)
Definition unread (s : state) : Prop :=
  Forall (fun e => is_read e = false) (trace s).

(** The stack of the safe replacer once the root has been pushed: it is
    not empty and holds objects only. *)
Definition holds_objects (st : serializer_state) : Prop :=
  stack st <> [] /\ Forall (fun x => exists a, x = VRef a) (stack st).

(** ** Further calls and fixtures *)

Module Cases.
Import Scenario.

(** [answer(42, cb)] returns [5] and calls [cb(null, 7)] in a later
    turn. *)
Definition answer : method := fun _ args =>
  {| during := [];
     completes := Done (VNum 5);
     afterwards := [Invoke (default VUndefined (last args)) [VNull; VNum 7]] |}.

Definition fixture_of_fetch : string := "/tmp/x/fetch-11e6a435235a.json".

(** A file that is no JSON text. *)
Definition garbled : gmap string node :=
  {[ fixture_of_one := File "{ callArgs: [1]" ]}.

(** A fixture with callback arguments and a return value. *)
Definition members_of_answer (callArgs : string) : list (string * json) :=
  [("callArgs", JStr callArgs); ("callbackArgs", JStr "[null,7]");
   ("returnedPromise", JBool false); ("returnValue", JStr "5")].

Definition answered (path callArgs : string) : gmap string node :=
  {[ path := File (fixture_text P0 (members_of_answer callArgs)) ]}.

(** A fixture with a promise and its resolution. *)
Definition members_of_resolved : list (string * json) :=
  [("callArgs", JStr "[1]"); ("returnedPromise", JBool true);
   ("promiseResolutionArgs", JStr "[8]")].

Definition resolved : gmap string node :=
  {[ fixture_of_one := File (fixture_text P0 members_of_resolved) ]}.

(** A directory that refuses the fixture. *)
Definition refused (path : string) : gmap string node :=
  {[ path := Failing "EACCES" ]}.

(** An argument serializer that throws, and one that returns
    [undefined]. *)
Definition with_argumentSerializer (f : serializer) : options :=
  {| dir := dir replay_opts; prefix := prefix replay_opts;
     mode := mode replay_opts; callbackSwap := callbackSwap replay_opts;
     argumentSerializer := f;
     responseSerializer := responseSerializer replay_opts;
     returnValueSerializer := returnValueSerializer replay_opts;
     sinon := sinon replay_opts |}.

(** A heap without cycles. *)
Definition plain : heap :=
  [OObj [("a", VNum 1); ("b", VRef 1)]; OArr [VStr "x"; VNull; VNum (-3)]].

Definition json_of_plain : json :=
  JObj [("a", JNum 1); ("b", JArr [JStr "x"; JNull; JNum (-3)])].

(** The JSON form of the cyclic structure of [objects]. *)
Definition json_of_objects : json :=
  JObj [("name", JStr "root"); ("self", JStr "[Circular ~]");
        ("child",
         JObj [("parent", JStr "[Circular ~]");
               ("items", JArr [JStr "[Circular ~.child]"; JNum 5; JNull])])].

(** An object with a method of its own, and an instance of a class that
    provides the method. *)
Definition service : target :=
  {| own := {[ "fetch" := Method seven ]}; inherited := ∅ |}.

Definition instance : target :=
  {| own := {[ "name" := Undefined ]};
     inherited := {[ "fetch" := Method seven ]} |}.
End Cases.

(** * Properties *)

(** ** The safe serializer *)

Section SafeSerializer.
Variable h : heap.

Lemma indexOf_app_found l1 l2 x i :
  indexOf l1 x = Some i -> indexOf (l1 ++ l2) x = Some i.
Proof.
  revert i. induction l1 as [|y l1 IH]; intros i; simpl; [done|].
  destruct (strict_eq y x); [done|].
  destruct (indexOf l1 x) as [j|] eqn:E; simpl; [|done].
  intros [= <-]. by rewrite (IH j).
Qed.

Lemma indexOf_refs_notin (anc : list addr) a :
  a ∉ anc -> indexOf (VRef <$> anc) (VRef a) = None.
Proof.
  induction anc as [|b anc IH]; csimpl; [done|].
  intros Hn. apply not_elem_of_cons in Hn as [Hne Hn].
  unfold strict_eq. rewrite bool_decide_eq_false_2 by congruence.
  by rewrite IH.
Qed.

Lemma indexOf_refs_found (anc : list addr) a i :
  NoDup anc -> anc !! i = Some a ->
  indexOf (VRef <$> anc) (VRef a) = Some i.
Proof.
  revert i. induction anc as [|b anc IH]; intros i Hnd Hi; [done|].
  apply NoDup_cons in Hnd as [Hb Hnd]. csimpl. unfold strict_eq.
  destruct i as [|i]; simpl in Hi.
  - injection Hi as ->. by rewrite bool_decide_eq_true_2.
  - rewrite bool_decide_eq_false_2.
    + by rewrite (IH i).
    + intros [= ->]. apply Hb. by eapply list_elem_of_lookup_2.
Qed.

Lemma indexOf_refs_other (anc : list addr) v :
  (forall a, v <> VRef a) -> indexOf (VRef <$> anc) v = None.
Proof.
  intros Hv. induction anc as [|b anc IH]; csimpl; [done|].
  unfold strict_eq. rewrite bool_decide_eq_false_2; [by rewrite IH|].
  intros E. by apply (Hv b).
Qed.

Lemma entering_settled st anc0 hd path key :
  entering st anc0 hd (path ++ [key]) -> settled st anc0 path.
Proof.
  intros [(_ & Hs & Hk)|(junk & jk & Hs & Hk)].
  - exists [], [key]. by rewrite Hs, Hk, app_nil_r.
  - exists (VRef hd :: junk), (key :: jk).
    rewrite Hs, Hk, fmap_app, <- !app_assoc. done.
Qed.

Lemma marker_agrees (anc : list addr) (ks : list string) a i :
  NoDup anc -> anc !! i = Some a -> i < length ks ->
  defaultCycleReplacer {| stack := VRef <$> anc; keys := ks |}
    EmptyString (VRef a) = VStr (circular_marker (take i ks)).
Proof.
  intros Hnd Hi Hlen. unfold defaultCycleReplacer; simpl.
  rewrite (indexOf_refs_found anc a i Hnd Hi); simpl.
  destruct i as [|i].
  - destruct anc as [|b anc]; [done|]. injection Hi as ->. simpl.
    unfold strict_eq. by rewrite bool_decide_eq_true_2.
  - destruct anc as [|b anc]; [done|]. simpl.
    apply NoDup_cons in Hnd as [Hb _]. simpl in Hi.
    unfold strict_eq. rewrite bool_decide_eq_false_2.
    + destruct ks as [|k ks]; [simpl in Hlen; lia|]. done.
    + intros [= ->]. apply Hb. by eapply list_elem_of_lookup_2.
Qed.

(** One call of the replacer made for a property of the open object
    [hd]. *)
Lemma replacer_step st anc0 hd path key v :
  NoDup (anc0 ++ [hd]) ->
  length path = length anc0 ->
  entering st anc0 hd path ->
  exists st1 v1,
    stringifySafeSerializer None None st (VRef hd) key v = (st1, v1)
    /\ stack st1 = VRef <$> (anc0 ++ [hd])
    /\ keys st1 = path ++ [key]
    /\ ((exists a i, v = VRef a /\ (anc0 ++ [hd]) !! i = Some a
                     /\ v1 = VStr (circular_marker (take i (path ++ [key]))))
        \/ (v1 = v /\ forall a, v = VRef a -> a ∉ anc0 ++ [hd])).
Proof.
  intros Hnd Hlen Hent.
  assert (exists st1, stack st1 = VRef <$> (anc0 ++ [hd])
    /\ keys st1 = path ++ [key]
    /\ stringifySafeSerializer None None st (VRef hd) key v =
       (st1, match indexOf (stack st1) v with
             | Some _ => defaultCycleReplacer st1 key v
             | None => v
             end)) as (st1 & Hs1 & Hk1 & Hcall).
  { unfold stringifySafeSerializer.
    destruct Hent as [(Hne & Hs & Hk)|(junk & jk & Hs & Hk)].
    - assert ((0 <? length (stack st)) = true) as ->.
      { rewrite Hs, length_fmap. destruct anc0; [done|]. done. }
      assert (indexOf (stack st) (VRef hd) = None) as ->.
      { rewrite Hs. apply indexOf_refs_notin.
        apply NoDup_app in Hnd as (_ & Hd & _). intros Hin.
        apply (Hd hd Hin). by apply list_elem_of_singleton. }
      exists {| stack := stack st ++ [VRef hd]; keys := keys st ++ [key] |}.
      split_and!; simpl.
      + by rewrite Hs, fmap_app.
      + by rewrite Hk.
      + by destruct (indexOf _ v).
    - assert ((0 <? length (stack st)) = true) as ->.
      { rewrite Hs, length_app, length_fmap, length_app. simpl.
        apply Nat.ltb_lt. lia. }
      assert (indexOf (stack st) (VRef hd) = Some (length anc0)) as ->.
      { rewrite Hs. apply indexOf_app_found.
        apply indexOf_refs_found; [done|].
        by rewrite lookup_app_r, Nat.sub_diag. }
      exists {| stack := take (length anc0 + 1) (stack st);
                keys := take (length anc0) (keys st) ++ [key] |}.
      split_and!; simpl.
      + rewrite Hs. rewrite take_app_length'; [done|].
        rewrite length_fmap, length_app. simpl. lia.
      + rewrite Hk. by rewrite take_app_length' by done.
      + by destruct (indexOf _ v). }
  exists st1. eexists. split; [exact Hcall|]. split; [done|]. split; [done|].
  rewrite Hs1.
  destruct v as [| | | | | |a];
    try (right; split; [by rewrite indexOf_refs_other by done|done]).
  destruct (decide (a ∈ anc0 ++ [hd])) as [Hin|Hnin].
  - left. apply list_elem_of_lookup_1 in Hin as [i Hi].
    exists a, i. split; [done|]. split; [done|].
    rewrite (indexOf_refs_found _ a i Hnd Hi).
    destruct st1 as [s1 k1]; simpl in *. subst s1 k1.
    pose proof (marker_agrees (anc0 ++ [hd]) (path ++ [key]) a i Hnd Hi) as Hm.
    unfold defaultCycleReplacer in *; simpl in *. apply Hm.
    apply lookup_lt_Some in Hi.
    rewrite !length_app in *. simpl in *. lia.
  - right. rewrite indexOf_refs_notin by done. split; [done|].
    by intros ? [= <-].
Qed.

Lemma open_objects_bounded (anc : list addr) :
  NoDup anc -> Forall (fun a => a < length h) anc -> length anc <= length h.
Proof.
  intros Hnd Hall.
  transitivity (length (seq 0 (length h))); [|by rewrite length_seq].
  apply submseteq_length, NoDup_submseteq; [done|].
  intros a Ha. rewrite Forall_forall in Hall.
  apply elem_of_seq. specialize (Hall a Ha). lia.
Qed.

(** The loop over the properties of an object. *)
Lemma ser_entries_spec rec anc0 hd path es :
  (forall st k x, (k, x) ∈ es -> entering st anc0 hd path ->
     exists st' r, rec st k x = (st', Done r)
       /\ renders h (anc0 ++ [hd]) (path ++ [k]) x r
       /\ settled st' (anc0 ++ [hd]) path) ->
  forall st, entering st anc0 hd path ->
  exists st' rs,
    Stringify.ser_entries rec st es = (st', Done rs)
    /\ Forall2 (fun kx kr =>
                  kx.1 = kr.1
                  /\ renders h (anc0 ++ [hd]) (path ++ [kx.1]) kx.2 kr.2)
               es rs
    /\ entering st' anc0 hd path.
Proof.
  induction es as [|[k x] es IH]; intros Hrec st Hent; simpl.
  - exists st, []. by split_and!.
  - destruct (Hrec st k x) as (st1 & r & -> & Hr & Hset);
      [apply list_elem_of_here|done|].
    destruct (IH (fun s k' x' Hin => Hrec s k' x' (list_elem_of_further _ _ _ Hin))
                st1 (or_intror Hset)) as (st2 & rs & -> & Hrs & Hent2).
    exists st2, ((k, r) :: rs). split; [done|]. split; [|done].
    constructor; [done|done].
Qed.

Hypothesis h_closed : heap_closed h.

Lemma entries_closed a o :
  h !! a = Some o -> Forall (fun kv => value_closed h kv.2) (entries o).
Proof.
  intros Ha. unfold heap_closed in h_closed. rewrite Forall_forall in h_closed.
  apply h_closed. by eapply list_elem_of_lookup_2.
Qed.

(** Serializing a property of an open object: the traversal returns, and
    returns what the specification describes. *)
Lemma property_spec fuel :
  forall anc0 hd path st key v,
    value_closed h v ->
    NoDup (anc0 ++ [hd]) ->
    Forall (fun a => a < length h) (anc0 ++ [hd]) ->
    length path = length anc0 ->
    length h < fuel + length (anc0 ++ [hd]) ->
    entering st anc0 hd path ->
    exists st' r,
      Stringify.SerializeJSONProperty h (stringifySafeSerializer None None)
        fuel (anc0 ++ [hd]) st (VRef hd) key v = (st', Done r)
      /\ renders h (anc0 ++ [hd]) (path ++ [key]) v r
      /\ settled st' (anc0 ++ [hd]) path.
Proof.
  induction fuel as [|fuel IH];
    intros anc0 hd path st key v Hv Hnd Hall Hlen Hfuel Hent.
  { pose proof (open_objects_bounded _ Hnd Hall). lia. }
  destruct (replacer_step st anc0 hd path key v Hnd Hlen Hent)
    as (st1 & v1 & Hcall & Hs1 & Hk1 & Hcase).
  assert (settled st1 (anc0 ++ [hd]) path) as Hset1.
  { exists [], [key]. by rewrite Hs1, Hk1, app_nil_r. }
  simpl. rewrite Hcall.
  destruct Hcase as [(a & i & -> & Hi & ->)|[-> Hfresh]].
  { exists st1. eexists. split; [done|]. split; [|done].
    by apply renders_circular. }
  destruct v as [| | | | | |a]; try by (exists st1; eexists; split_and!; [done|constructor|done]).
  simpl in Hv. destruct (h !! a) as [o|] eqn:Ho.
  2:{ apply lookup_ge_None in Ho. lia. }
  specialize (Hfresh a eq_refl).
  rewrite bool_decide_eq_false_2 by done.
  destruct (ser_entries_spec
              (fun s k x =>
                 Stringify.SerializeJSONProperty h
                   (stringifySafeSerializer None None) fuel
                   ((anc0 ++ [hd]) ++ [a]) s (VRef a) k x)
              (anc0 ++ [hd]) a (path ++ [key]) (entries o))
    with (st := st1) as (st2 & rs & Hloop & Hrs & Hent2).
  - intros s k x Hin Hs. apply IH; try done.
    + pose proof (entries_closed a o Ho) as Hc.
      rewrite Forall_forall in Hc. apply (Hc (k, x) Hin).
    + apply NoDup_app. split; [done|]. split; [|apply NoDup_singleton].
      intros b Hb Hb'. apply list_elem_of_singleton in Hb' as ->. done.
    + apply Forall_app. split; [done|]. by apply Forall_singleton.
    + rewrite !length_app. simpl. lia.
    + rewrite !length_app in Hfuel. rewrite !length_app. simpl in *. lia.
  - left. split; [by destruct anc0|]. done.
  - rewrite Hloop. exists st2. eexists. split; [done|]. split.
    + by eapply renders_object.
    + by eapply entering_settled.
Qed.

(** The whole of [stringifySafe] on a value of a closed heap. *)
Lemma stringifySafe_spec v spaces :
  value_closed h v ->
  exists r,
    stringifySafe h v None spaces None
    = Done (JSON.render (String.substring 0 10 (default EmptyString spaces))
              EmptyString <$> r)
    /\ renders h [] [] v r.
Proof.
  intros Hv. unfold stringifySafe, Stringify.stringify.
  cbn [Stringify.SerializeJSONProperty].
  unfold stringifySafeSerializer at 1. cbn [stack keys fresh_state length Nat.ltb Nat.leb app].
  destruct v as [| | | | | |a]; try by (eexists; split; [done|constructor]).
  simpl in Hv. destruct (h !! a) as [o|] eqn:Ho.
  2:{ apply lookup_ge_None in Ho. lia. }
  rewrite bool_decide_eq_false_2 by apply not_elem_of_nil.
  destruct (ser_entries_spec
              (fun s k x =>
                 Stringify.SerializeJSONProperty h
                   (stringifySafeSerializer None None) (length h)
                   ([] ++ [a]) s (VRef a) k x)
              [] a [] (entries o))
    with (st := {| stack := [VRef a]; keys := [] |})
    as (st2 & rs & Hloop & Hrs & _).
  - intros s k x Hin Hs. apply (property_spec (length h) [] a []); try done.
    + pose proof (entries_closed a o Ho) as Hc.
      rewrite Forall_forall in Hc. apply (Hc (k, x) Hin).
    + apply NoDup_singleton.
    + by apply Forall_singleton.
    + simpl. lia.
  - right. exists [], []. split; reflexivity.
  - simpl in Hloop |- *. rewrite Hloop. eexists. split; [done|].
    eapply renders_object; [apply not_elem_of_nil|exact Ho|exact Hrs].
Qed.
End SafeSerializer.

(** ** Pass-through mode *)

Lemma quiet_refl s : quiet s s.
Proof. split; [done|]. exists []. by rewrite app_nil_r. Qed.

Lemma quiet_trans s1 s2 s3 : quiet s1 s2 -> quiet s2 s3 -> quiet s1 s3.
Proof.
  intros [Hf1 (e1 & Ht1 & He1)] [Hf2 (e2 & Ht2 & He2)].
  split; [congruence|]. exists (e1 ++ e2).
  rewrite Ht2, Ht1, app_assoc. split; [done|]. by apply Forall_app.
Qed.

Lemma quiet_log s e :
  is_fs_event e = false -> quiet s (set_trace (trace s ++ [e]) s).
Proof. intros He. split; [done|]. exists [e]. by repeat constructor. Qed.

Section PassThrough.
Variable P : platform.
Variable h : heap.
Variable opts : options.
Variable originalFn : method.

Lemma invoke_alike f args s d :
  alike s d ->
  (invoke P h opts f args s).1 = (direct_invoke f args d).1
  /\ alike (invoke P h opts f args s).2 (direct_invoke f args d).2
  /\ quiet s (invoke P h opts f args s).2.
Proof.
  intros (Hf & Ht & Hb & Hc).
  unfold invoke, direct_invoke, bind, get_state.
  destruct f as [| | | | |[id|]|]; simpl; rewrite ?Hb; simpl;
    try (split_and!; [done|by repeat split|apply quiet_refl]);
    (split_and!; [done|repeat split; simpl; congruence|by apply quiet_log]).
Qed.

Lemma for_each_invoke_alike (cs : list (value * list value)) s d :
  alike s d ->
  let w := for_each (fun c => invoke P h opts c.1 c.2) cs s in
  let r := for_each (fun c => direct_invoke c.1 c.2) cs d in
  w.1 = r.1 /\ alike w.2 r.2 /\ quiet s w.2.
Proof.
  revert s d. induction cs as [|[f args] cs IH]; intros s d Hsd; simpl.
  { split_and!; [done|done|apply quiet_refl]. }
  unfold bind. destruct (invoke_alike f args s d Hsd) as (Hr & Ha & Hq).
  simpl in *.
  destruct (invoke P h opts f args s) as [r1 s1].
  destruct (direct_invoke f args d) as [r2 d1]. simpl in *. subst r2.
  destruct r1 as [[]| |]; simpl; try by split_and!.
  destruct (IH s1 d1 Ha) as (H1 & H2 & H3).
  split_and!; [done|done|by eapply quiet_trans].
Qed.

Lemma deliver_alike a s d :
  alike s d ->
  (deliver P h opts a s).1 = (direct_deliver a d).1
  /\ alike (deliver P h opts a s).2 (direct_deliver a d).2
  /\ quiet s (deliver P h opts a s).2.
Proof.
  intros Hsd. pose proof Hsd as (Hf & Ht & Hb & Hc).
  unfold deliver, direct_deliver, bind, get_state.
  destruct a as [f args|v|v]; simpl.
  - by apply invoke_alike.
  - rewrite Hc. split_and!; [done| |by apply quiet_log].
    repeat split; simpl; congruence.
  - rewrite Hc. split_and!; [done| |by apply quiet_log].
    repeat split; simpl; congruence.
Qed.

Lemma for_each_deliver_alike (acts : list action) s d :
  alike s d ->
  let w := for_each (deliver P h opts) acts s in
  let r := for_each direct_deliver acts d in
  w.1 = r.1 /\ alike w.2 r.2 /\ quiet s w.2.
Proof.
  revert s d. induction acts as [|a acts IH]; intros s d Hsd; simpl.
  { split_and!; [done|done|apply quiet_refl]. }
  unfold bind. destruct (deliver_alike a s d Hsd) as (Hr & Ha & Hq).
  destruct (deliver P h opts a s) as [r1 s1].
  destruct (direct_deliver a d) as [r2 d1]. simpl in *. subst r2.
  destruct r1 as [[]| |]; simpl; try by split_and!.
  destruct (IH s1 d1 Ha) as (H1 & H2 & H3).
  split_and!; [done|done|by eapply quiet_trans].
Qed.

Lemma live_session self args s d :
  mode opts = Some "live" ->
  alike s d -> queue s = [] ->
  let w := session P h opts originalFn self args s in
  let r := direct_call originalFn self args d in
  w.1 = r.1 /\ alike w.2 r.2 /\ quiet s w.2.
Proof.
  intros Hm Hsd Hq. pose proof Hsd as (Hf & Ht & Hb & Hc).
  unfold session, wrapper, direct_call, apply_original, later.
  rewrite bool_decide_eq_true_2 by done.
  set (b := originalFn self args).
  unfold bind, log, modify, lift, get_state, ret. simpl.
  set (s1 := set_pending _ _). set (d1 := set_trace _ d).
  assert (alike s1 d1) as H1.
  { unfold s1, d1. repeat split; simpl; congruence. }
  assert (quiet s s1) as Hq1.
  { unfold s1. split; [done|]. exists [EvOriginal self args].
    by repeat constructor. }
  assert (queue s1 = []) as Hqu1 by done.
  destruct (for_each_invoke_alike (during b) s1 d1 H1) as (Hr & Ha & Hq2).
  simpl in Hr, Ha, Hq2.
  assert (queue (for_each (fun c => invoke P h opts c.1 c.2) (during b) s1).2
          = [] /\ pending (for_each (fun c => invoke P h opts c.1 c.2)
                             (during b) s1).2 = afterwards b) as [Hqu2 Hpe2].
  { clear -Hqu1 H1. destruct H1 as (_ & _ & Hb & _).
    assert (pending s1 = afterwards b) as Hp by done.
    revert Hqu1 Hp Hb. generalize s1. generalize (afterwards b).
    induction (during b) as [|[f a] cs IH]; intros x s0 Hq0 Hp0 Hb0; [done|].
    simpl. unfold bind.
    unfold invoke at 1 2 3. unfold bind, get_state.
    destruct f as [| | | | |[id|]|]; simpl; rewrite ?Hb0; simpl; try done;
      by apply IH. }
  destruct (for_each (fun c => invoke P h opts c.1 c.2) (during b) s1)
    as [r1 s2].
  destruct (for_each (fun c => direct_invoke c.1 c.2) (during b) d1)
    as [r2 d2].
  simpl in *. subst r2.
  assert (quiet s s2) as Hq3 by (by eapply quiet_trans).
  destruct r1 as [[]| |]; simpl; try by split_and!.
  destruct (completes b) as [v| |]; simpl; try by split_and!.
  rewrite Hqu2. simpl. rewrite Hpe2.
  set (s3 := set_pending [] _).
  assert (alike s3 d2) as H3.
  { destruct Ha as (?&?&?&?). by repeat split. }
  destruct (for_each_deliver_alike (afterwards b) s3 d2 H3)
    as (Hr3 & Ha3 & Hq4). simpl in *.
  destruct (for_each (deliver P h opts) (afterwards b) s3) as [r3 s4].
  destruct (for_each direct_deliver (afterwards b) d2) as [r4 d4].
  simpl in *. subst r4.
  assert (quiet s s4) as Hq5.
  { eapply quiet_trans; [exact Hq3|].
    destruct Hq4 as [Hf4 He4]. split; [done|]. exact He4. }
  destruct r3 as [[]| |]; simpl; by split_and!.
Qed.
End PassThrough.

(** C8.  In pass-through mode ([live]) a call of the wrapper, followed to
    its end, is observably the call of the method itself: same result
    (value returned or exception thrown), same calls of the caller's
    callbacks and same settlement, in the same order; the file system is
    left as it was and is neither read nor written.  Nothing depends on the
    directory, the prefix, the serializers or the platform's hash, which a
    pass-through call never consults. *)
Theorem pass_through_is_direct_call
  (P : platform) (h : heap) (opts : options) (originalFn : method)
  (self : value) (arguments : list value) (files : gmap string node) :
  mode opts = Some "live" ->
  let w := session P h opts originalFn self arguments (start files) in
  let d := direct_call originalFn self arguments (start files) in
  w.1 = d.1
  /\ trace w.2 = trace d.2
  /\ fs w.2 = files
  /\ Forall (fun e => is_fs_event e = false) (trace w.2).
Proof.
  intros Hm.
  destruct (live_session P h opts originalFn self arguments
              (start files) (start files) Hm) as (Hr & Ha & Hq).
  { by repeat split. }
  { done. }
  simpl in *. destruct Ha as (_ & Ht & _). destruct Hq as (Hf & evs & He & Hall).
  split_and!; try done. rewrite He. done.
Qed.

(** ** Replay mode *)

Lemma append_assoc (a b c : string) : (a +:+ b) +:+ c = a +:+ b +:+ c.
Proof.
  induction a as [|x a IH]; [done|].
  change (String x ((a +:+ b) +:+ c) = String x (a +:+ b +:+ c)).
  by rewrite IH.
Qed.

Lemma contains_here pre sub post : contains sub (pre +:+ sub +:+ post).
Proof. by exists pre, post. Qed.

Lemma contains_after pre sub s : contains sub s -> contains sub (pre +:+ s).
Proof.
  intros (a & b & ->). exists (pre +:+ a), b. by rewrite append_assoc.
Qed.

Lemma contains_end pre sub : contains sub (pre +:+ sub).
Proof.
  exists pre, EmptyString. f_equal.
  induction sub as [|x sub IH]; [done|].
  change (String x sub = String x (sub +:+ EmptyString)). by rewrite <- IH.
Qed.

Lemma getNiceError_contains file details :
  let msg := getNiceError file details in
  contains NICE_ERR_HEADER msg
  /\ contains file msg
  /\ contains NICE_ERR_SERIALIZATION_DESCRIPTOR msg
  /\ contains details msg
  /\ contains NICE_ERR_FOOTER msg.
Proof.
  unfold getNiceError. split_and!.
  - exists EmptyString. eexists. reflexivity.
  - do 2 apply contains_after. apply contains_here.
  - do 6 apply contains_after. apply contains_here.
  - do 9 apply contains_after. apply contains_here.
  - do 12 apply contains_after. apply contains_end.
Qed.

(** What the replay branch does to the state: it reads once, and queues
    tasks. *)
Lemma replay_effects argStr s :
  let w := replay argStr s in
  fs w.2 = fs s /\ pending w.2 = pending s
  /\ origCallback w.2 = origCallback s
  /\ trace w.2 = trace s ++ [EvRead (filepath s)]
  /\ exists tasks, queue w.2 = queue s ++ tasks.
Proof.
  unfold replay, bind, get_state, try_catch, readFileSync, bind, log,
    modify, get_state, throw, lift, ret. simpl.
  repeat (case_match; simpl); simplify_eq; simpl.
  all: split_and!; try done.
  all: try (by exists []; rewrite app_nil_r).
  all: try (by eexists).
  all: eexists; by rewrite <- app_assoc.
Qed.

Lemma replay_missing argStr s :
  fs s !! filepath s = None ->
  replay argStr s
  = (Raised (Error (getNiceError (filepath s) argStr)),
     set_trace (trace s ++ [EvRead (filepath s)]) s).
Proof.
  intros Hf.
  unfold replay, bind, get_state, try_catch, readFileSync, bind, log,
    modify, get_state, throw, lift, ret. simpl. by rewrite Hf.
Qed.

Lemma replay_failing argStr s code :
  fs s !! filepath s = Some (Failing code) -> code <> "ENOENT" ->
  replay argStr s
  = (Raised (SystemError code (filepath s)),
     set_trace (trace s ++ [EvRead (filepath s)]) s).
Proof.
  intros Hf Hc.
  unfold replay, bind, get_state, try_catch, readFileSync, bind, log,
    modify, get_state, throw, lift, ret. simpl. rewrite Hf. simpl.
  rewrite bool_decide_eq_false_2; [done|]. by intros [= ->].
Qed.

Lemma replay_fixture argStr s content cannedJson :
  fs s !! filepath s = Some (File content) ->
  JSON.parse_text content = Done cannedJson ->
  let w := replay argStr s in
  (field_truthy cannedJson "callbackArgs" = true ->
   exists cb, JSON.get cannedJson "callbackArgs" = Done cb
              /\ TaskCallback cb ∈ queue w.2)
  /\ (field_truthy cannedJson "returnedPromise" = true ->
      w.1 = Done RetPromise
      /\ exists before, queue w.2 = before ++ [TaskSettle cannedJson])
  /\ (field_truthy cannedJson "callbackArgs" = false ->
      field_truthy cannedJson "returnedPromise" = true ->
      queue w.2 = queue s ++ [TaskSettle cannedJson]).
Proof.
  intros Hf Hp.
  unfold replay, bind, get_state, try_catch, readFileSync, bind, log,
    modify, get_state, throw, lift, ret. simpl. rewrite Hf. simpl.
  rewrite Hp. simpl. unfold field_truthy.
  destruct (JSON.get cannedJson "callbackArgs") as [cb| |] eqn:Hcb; simpl.
  2,3: destruct cannedJson; done.
  destruct (JSON.get cannedJson "returnedPromise") as [rp| |] eqn:Hrp.
  2,3: destruct cannedJson; done.
  destruct (JSON.truthy cb) eqn:Tcb; destruct (JSON.truthy rp) eqn:Trp;
    simpl; rewrite ?Hrp; simpl; rewrite ?Trp; simpl.
  - split_and!; try done.
    + intros _. exists cb. split; [done|]. set_solver.
    + intros _. split; [done|]. by eexists.
  - split_and!; try done.
    intros _. exists cb. split; [done|].
    destruct (JSON.get cannedJson "returnValue") as [rv| |]; simpl;
      try set_solver.
    destruct (JSON.parse rv); simpl; set_solver.
  - split_and!; try done. intros _. split; [done|]. by eexists.
  - by split_and!.
Qed.

Section Replay.
Variable P : platform.
Variable h : heap.
Variable opts : options.

Hypothesis not_live : mode opts <> Some "live".
Hypothesis not_capture : mode opts <> Some "capture".

(** Up to the branch on the mode, a call only prepares the variables
    the closures share. *)
Lemma wrapper_reaches_replay originalFn self args s argStr :
  argumentSerializer opts (h ++ [OArr args]) (VRef (length h))
  = Done (Some argStr) ->
  exists s1,
    wrapper P h opts originalFn self args s = replay argStr s1
    /\ fs s1 = fs s /\ trace s1 = trace s /\ queue s1 = queue s
    /\ pending s1 = pending s
    /\ filepath s1 = filepath_of P opts argStr
    /\ (is_function (default VUndefined (last args)) = false ->
        origCallback s1 = origCallback s).
Proof.
  intros Hser. unfold wrapper.
  rewrite bool_decide_eq_false_2 by done.
  unfold bind at 1. unfold serialize_list, lift. rewrite Hser.
  unfold bind at 1 2. unfold modify at 1 2. cbn [fst snd].
  rewrite (bool_decide_eq_false_2 (mode opts = Some "capture")) by done.
  destruct (is_function (default VUndefined (last args))).
  - destruct (callbackSwap opts args (VFun ProxyFn)) as [args' orig].
    eexists. split; [reflexivity|]. by split_and!.
  - eexists. split; [reflexivity|]. by split_and!.
Qed.

Lemma wrapper_without_arguments originalFn self args s :
  (forall argStr,
     argumentSerializer opts (h ++ [OArr args]) (VRef (length h))
     <> Done (Some argStr)) ->
  (wrapper P h opts originalFn self args s).2 = s
  /\ forall v, (wrapper P h opts originalFn self args s).1 <> Done v.
Proof.
  intros Hser. unfold wrapper.
  rewrite bool_decide_eq_false_2 by done.
  unfold bind at 1. unfold serialize_list, lift.
  destruct (argumentSerializer opts _ _) as [[argStr|]| |]; try done.
  by destruct (Hser argStr).
Qed.
End Replay.

(** The tasks of the [nextTick] queue deliver; they run nothing else. *)
Lemma run_task_effects t s :
  let w := run_task t s in
  fs w.2 = fs s /\ pending w.2 = pending s
  /\ exists evs, trace w.2 = trace s ++ evs
                 /\ Forall (fun e => is_original e = false) evs.
Proof.
  unfold run_task, call_callback, bind, get_state, log, modify, throw, lift,
    ret.
  destruct t as [cb|cj]; simpl.
  - repeat (case_match; simpl); simplify_eq; simpl.
    all: split_and!; try done.
    all: try (by exists []; rewrite app_nil_r).
    all: eexists; split; [reflexivity|]; by repeat constructor.
  - repeat (case_match; simpl); simplify_eq; simpl.
    all: split_and!; try done.
    all: try (by exists []; rewrite app_nil_r).
    all: eexists; split; [reflexivity|]; by repeat constructor.
Qed.

Lemma run_tasks_effects ts s :
  let w := for_each run_task ts s in
  fs w.2 = fs s /\ pending w.2 = pending s
  /\ exists evs, trace w.2 = trace s ++ evs
                 /\ Forall (fun e => is_original e = false) evs.
Proof.
  revert s. induction ts as [|t ts IH]; intros s; simpl.
  { split_and!; try done. exists []. by rewrite app_nil_r. }
  unfold bind. destruct (run_task_effects t s) as (Hf & Hp & evs & Ht & He).
  destruct (run_task t s) as [r s1]. simpl in *.
  destruct r as [[]| |]; simpl; try (split_and!; try done; by exists evs).
  destruct (IH s1) as (Hf2 & Hp2 & evs2 & Ht2 & He2).
  split_and!; try congruence.
  exists (evs ++ evs2). rewrite Ht2, Ht, app_assoc. split; [done|].
  by apply Forall_app.
Qed.

Lemma run_settle_unsettled cannedJson s :
  field_truthy cannedJson "promiseResolutionArgs" = false ->
  field_truthy cannedJson "promiseRejectionArgs" = false ->
  field_truthy cannedJson "returnedPromise" = true ->
  run_task (TaskSettle cannedJson) s
  = (Done tt,
     set_trace
       (trace s ++ [EvSettled (Rejected (Exception (Error NICE_ERR_PROMISE)))])
       s).
Proof.
  unfold field_truthy. intros H1 H2 H3.
  unfold run_task, bind, lift, log, modify.
  destruct cannedJson as [| | | | |ms]; try done. simpl in *.
  by rewrite H1, H2.
Qed.

Lemma later_unfold P h opts s :
  later P h opts s
  = match for_each run_task (queue s) (set_queue [] s) with
    | (Done _, s') =>
      for_each (deliver P h opts) (pending s') (set_pending [] s')
    | (Raised e, s') => (Raised e, s')
    | (Stuck, s') => (Stuck, s')
    end.
Proof.
  unfold later, bind, get_state, modify. simpl.
  by destruct (for_each run_task (queue s) (set_queue [] s)) as [[[]| |] s'].
Qed.

Lemma session_unfold P h opts originalFn self args s :
  session P h opts originalFn self args s
  = match wrapper P h opts originalFn self args s with
    | (Done r, s1) =>
      match later P h opts s1 with
      | (Done _, s2) => (Done r, s2)
      | (Raised e, s2) => (Raised e, s2)
      | (Stuck, s2) => (Stuck, s2)
      end
    | (Raised e, s1) => (Raised e, s1)
    | (Stuck, s1) => (Stuck, s1)
    end.
Proof.
  unfold session, bind, ret.
  by destruct (wrapper P h opts originalFn self args s) as [[r| |] s1].
Qed.

(** C10.  Called with an options object that has no [dir] field, [wrap]
    stores fixtures under [test/data]. *)
Theorem default_directory_is_test_data
  (P : platform) (method : string) (o : options_object) :
  arg_dir o = None ->
  dir (resolve_options P method (OptObject o)) = "test/data".
Proof. intros Hd. simpl. by rewrite Hd. Qed.

(** C5.  In replay mode, when no file exists at the path computed for the
    call, the wrapper throws during the call, before anything is handed to
    [nextTick], an [Error] whose message holds the fixed header, the path
    of the fixture, the label of the serialized arguments, the serialized
    arguments and the fixed footer.  When reading the file fails for
    another reason, the exception of the file system is thrown as it
    is. *)
Theorem replay_without_fixture_throws
  (P : platform) (h : heap) (opts : options) (originalFn : method)
  (self : value) (arguments : list value) (files : gmap string node)
  (argStr : string) :
  mode opts <> Some "live" ->
  mode opts <> Some "capture" ->
  argumentSerializer opts (h ++ [OArr arguments]) (VRef (length h))
  = Done (Some argStr) ->
  let path := filepath_of P opts argStr in
  let w := wrapper P h opts originalFn self arguments (start files) in
  (files !! path = None ->
     w.1 = Raised (Error (getNiceError path argStr))
     /\ trace w.2 = [EvRead path] /\ queue w.2 = []
     /\ contains NICE_ERR_HEADER (getNiceError path argStr)
     /\ contains path (getNiceError path argStr)
     /\ contains NICE_ERR_SERIALIZATION_DESCRIPTOR (getNiceError path argStr)
     /\ contains argStr (getNiceError path argStr)
     /\ contains NICE_ERR_FOOTER (getNiceError path argStr))
  /\ (forall code,
        files !! path = Some (Failing code) -> code <> "ENOENT" ->
        w.1 = Raised (SystemError code path)
        /\ trace w.2 = [EvRead path] /\ queue w.2 = []).
Proof.
  intros Hl Hc Hser path w.
  destruct (wrapper_reaches_replay P h opts Hl Hc originalFn self arguments
              (start files) argStr Hser)
    as (s1 & Hw & Hfs & Htr & Hqu & _ & Hfp & _).
  subst w. rewrite Hw. simpl in *. split.
  - intros Hnone. rewrite replay_missing by (by rewrite Hfs, Hfp).
    simpl. rewrite Htr, Hfp, Hqu.
    split_and!; try done; apply getNiceError_contains.
  - intros code Hfail Hne.
    rewrite (replay_failing argStr s1 code) by (by rewrite ?Hfs, ?Hfp).
    simpl. by rewrite Htr, Hfp, Hqu.
Qed.

(** C6.  In replay mode the real method is never invoked: no session
    records a run of it, and the call does not depend on it.  Nothing is
    delivered during the call: when the fixture holds callback arguments
    the delivery waits in the [nextTick] queue, and when it marks a promise
    the call returns a promise whose settlement waits there too. *)
Theorem replay_never_runs_the_method_and_defers
  (P : platform) (h : heap) (opts : options) (originalFn : method)
  (self : value) (arguments : list value) (files : gmap string node) :
  mode opts <> Some "live" ->
  mode opts <> Some "capture" ->
  let w := wrapper P h opts originalFn self arguments (start files) in
  let e := session P h opts originalFn self arguments (start files) in
  Forall (fun ev => is_original ev = false) (trace e.2)
  /\ (forall other : method,
        wrapper P h opts other self arguments (start files) = w)
  /\ Forall (fun ev => is_delivery ev = false) (trace w.2)
  /\ (forall argStr content cannedJson,
        argumentSerializer opts (h ++ [OArr arguments]) (VRef (length h))
        = Done (Some argStr) ->
        files !! filepath_of P opts argStr = Some (File content) ->
        JSON.parse_text content = Done cannedJson ->
        (field_truthy cannedJson "callbackArgs" = true ->
         exists cb, JSON.get cannedJson "callbackArgs" = Done cb
                    /\ TaskCallback cb ∈ queue w.2)
        /\ (field_truthy cannedJson "returnedPromise" = true ->
            w.1 = Done RetPromise /\ TaskSettle cannedJson ∈ queue w.2)).
Proof.
  intros Hl Hc w e.
  destruct (argumentSerializer opts (h ++ [OArr arguments]) (VRef (length h)))
    as [[argStr|]| |] eqn:Hser.
  2-4: assert (forall a, argumentSerializer opts (h ++ [OArr arguments])
                    (VRef (length h)) <> Done (Some a)) as Hno
         by (intros a; rewrite Hser; congruence).
  2-4: assert (forall f, (wrapper P h opts f self arguments (start files)).2
                    = start files
                    /\ forall v, (wrapper P h opts f self arguments
                                    (start files)).1 <> Done v) as Hw
         by (intros f; by apply wrapper_without_arguments).
  2-4: subst w e; split_and!;
       [ rewrite session_unfold; destruct (Hw originalFn) as [H2 H1];
         destruct (wrapper P h opts originalFn self arguments (start files))
           as [[v| |] s']; simpl in *; subst;
         [by destruct (H1 v)|constructor|constructor]
       | intros other; unfold wrapper;
         rewrite !bool_decide_eq_false_2 by done;
         unfold bind, serialize_list, lift; by rewrite Hser
       | destruct (Hw originalFn) as [-> _]; constructor
       | intros ? ? ? [=] ].
  destruct (wrapper_reaches_replay P h opts Hl Hc originalFn self arguments
              (start files) argStr Hser)
    as (s1 & Hw & Hfs & Htr & Hqu & Hpe & Hfp & _).
  destruct (replay_effects argStr s1) as (Rfs & Rpe & _ & Rtr & tasks & Rqu).
  simpl in *. split_and!.
  - subst e. rewrite session_unfold, Hw.
    destruct (replay argStr s1) as [r s2] eqn:Hr. simpl in *.
    assert (Forall (fun ev => is_original ev = false) (trace s2)) as Ht2.
    { rewrite Rtr, Htr. by repeat constructor. }
    destruct r as [r| |]; try done.
    rewrite later_unfold.
    destruct (run_tasks_effects (queue s2) (set_queue [] s2))
      as (Tfs & Tpe & evs & Ttr & Tev).
    destruct (for_each run_task (queue s2) (set_queue [] s2)) as [r3 s3].
    simpl in *.
    assert (Forall (fun ev => is_original ev = false) (trace s3)) as Ht3.
    { rewrite Ttr. by apply Forall_app. }
    destruct r3 as [[]| |]; simpl; try done.
    rewrite Tpe, Rpe, Hpe. simpl. done.
  - intros other. subst w.
    destruct (wrapper_reaches_replay P h opts Hl Hc other self arguments
                (start files) argStr Hser) as (s1' & Hw' & _).
    rewrite Hw, Hw'.
    (* both calls prepare the same state *)
    clear -Hw Hw' Hl Hc Hser. revert Hw Hw'. unfold wrapper.
    rewrite !bool_decide_eq_false_2 by done.
    unfold bind at 1 3. unfold serialize_list, lift. rewrite Hser.
    unfold bind, modify, ret. simpl.
    destruct (is_function _); [destruct (callbackSwap opts _ _)|];
      simpl; congruence.
  - subst w. rewrite Hw, Rtr, Htr. by repeat constructor.
  - intros argStr' content cannedJson [= <-] Hfile Hparse.
    destruct (replay_fixture argStr s1 content cannedJson) as (Hcb & Hrp & _).
    { by rewrite Hfs, Hfp. }
    { done. }
    subst w. rewrite Hw. split; [done|].
    intros Ht. destruct (Hrp Ht) as (-> & before & ->).
    split; [done|]. set_solver.
Qed.

(** C7 (amended).  In replay mode, when the fixture marks a promise (its
    field [returnedPromise] is truthy) and holds neither
    [promiseResolutionArgs] nor [promiseRejectionArgs], the call returns a
    promise; the task that settles it is the last of the [nextTick] queue
    and, when it runs, rejects the promise with an [Error] whose message is
    [NICE_ERR_PROMISE].  When the fixture holds no callback arguments
    either, that rejection is all the session shows after the read. *)
Theorem replay_unsettled_promise_rejects
  (P : platform) (h : heap) (opts : options) (originalFn : method)
  (self : value) (arguments : list value) (files : gmap string node)
  (argStr content : string) (cannedJson : json) :
  mode opts <> Some "live" ->
  mode opts <> Some "capture" ->
  argumentSerializer opts (h ++ [OArr arguments]) (VRef (length h))
  = Done (Some argStr) ->
  files !! filepath_of P opts argStr = Some (File content) ->
  JSON.parse_text content = Done cannedJson ->
  field_truthy cannedJson "returnedPromise" = true ->
  field_truthy cannedJson "promiseResolutionArgs" = false ->
  field_truthy cannedJson "promiseRejectionArgs" = false ->
  let w := wrapper P h opts originalFn self arguments (start files) in
  let e := session P h opts originalFn self arguments (start files) in
  let rejection :=
    EvSettled (Rejected (Exception (Error NICE_ERR_PROMISE))) in
  w.1 = Done RetPromise
  /\ last (queue w.2) = Some (TaskSettle cannedJson)
  /\ (forall s, run_task (TaskSettle cannedJson) s
                = (Done tt, set_trace (trace s ++ [rejection]) s))
  /\ (field_truthy cannedJson "callbackArgs" = false ->
      e.1 = Done RetPromise
      /\ trace e.2 = [EvRead (filepath_of P opts argStr); rejection]).
Proof.
  intros Hl Hc Hser Hfile Hparse Hrp Hres Hrej w e rejection.
  destruct (wrapper_reaches_replay P h opts Hl Hc originalFn self arguments
              (start files) argStr Hser)
    as (s1 & Hw & Hfs & Htr & Hqu & Hpe & Hfp & _).
  destruct (replay_effects argStr s1) as (Rfs & Rpe & _ & Rtr & _).
  destruct (replay_fixture argStr s1 content cannedJson)
    as (_ & Hprom & Honly); [by rewrite Hfs, Hfp|done|].
  destruct (Hprom Hrp) as (Hret & before & Hq).
  simpl in *. split_and!.
  - subst w. by rewrite Hw.
  - subst w. rewrite Hw, Hq. apply last_snoc.
  - intros s. by apply run_settle_unsettled.
  - intros Hcb. specialize (Honly Hcb Hrp).
    subst e. rewrite session_unfold, Hw.
    destruct (replay argStr s1) as [r s2] eqn:Hr. simpl in *. subst r.
    rewrite later_unfold, Honly, Hqu. cbn [app for_each]. unfold bind.
    rewrite run_settle_unsettled by done.
    cbn [ret pending set_trace set_queue set_pending].
    rewrite Rpe, Hpe. cbn [for_each ret fst snd trace set_pending].
    split; [done|]. simpl. by rewrite Rtr, Htr, Hfp.
Qed.

(** ** Capture mode *)

(** *** Serializing an object without nested objects *)

Lemma SerializeJSONProperty_step h rep fuel nstack st holder key v :
  Stringify.SerializeJSONProperty h rep (S fuel) nstack st holder key v
  = let '(st1, v1) := rep st holder key v in
    match v1 with
    | VUndefined | VFun _ => (st1, Done None)
    | VNull => (st1, Done (Some JNull))
    | VBool b => (st1, Done (Some (JBool b)))
    | VNum n => (st1, Done (Some (JNum n)))
    | VStr s => (st1, Done (Some (JStr s)))
    | VRef a =>
      match h !! a with
      | None => (st1, Stuck)
      | Some o =>
        if bool_decide (a ∈ nstack)
        then (st1, Raised Stringify.cyclic_error)
        else
          match Stringify.ser_entries
                  (fun s k x =>
                     Stringify.SerializeJSONProperty h rep fuel
                       (nstack ++ [a]) s (VRef a) k x)
                  st1 (entries o) with
          | (st2, Done rs) => (st2, Done (Some (Stringify.assemble o rs)))
          | (st2, Raised e) => (st2, Raised e)
          | (st2, Stuck) => (st2, Stuck)
          end
      end
    end.
Proof. reflexivity. Qed.

Section Flat.
Variable h : heap.
Variable data : list (string * value).

Local Abbreviation n := (length h).
Local Abbreviation h' := (h ++ [OObj data]).

Lemma replacer_flat st rest k x :
  primitive x ->
  stack st = VRef n :: rest ->
  stringifySafeSerializer None None st (VRef n) k x
  = ({| stack := [VRef n]; keys := [k] |}, x).
Proof.
  intros Hx Hst. unfold stringifySafeSerializer. rewrite Hst. simpl.
  unfold strict_eq. rewrite bool_decide_eq_true_2 by done. simpl.
  rewrite take_0.
  destruct x; try done; simpl; by rewrite ?bool_decide_eq_false_2.
Qed.

Lemma flat_entries fuel (es : list (string * value)) st rest :
  Forall (fun kv => primitive kv.2) es ->
  stack st = VRef n :: rest ->
  exists st',
    Stringify.ser_entries
      (fun s k x =>
         Stringify.SerializeJSONProperty h'
           (stringifySafeSerializer None None) (S fuel) [n] s (VRef n) k x)
      st es
    = (st', Done (map (fun kv => (kv.1, json_of_primitive kv.2)) es))
    /\ exists rest', stack st' = VRef n :: rest'.
Proof.
  set (rec := fun s k x =>
                Stringify.SerializeJSONProperty h'
                  (stringifySafeSerializer None None) (S fuel) [n] s
                  (VRef n) k x).
  revert st rest. induction es as [|[k x] es IH]; intros st rest Hp Hst.
  { exists st. split; [done|]. by exists rest. }
  apply Forall_cons in Hp as [Hx Hp]. simpl in Hx.
  cbn [Stringify.ser_entries]. unfold rec at 1.
  rewrite SerializeJSONProperty_step.
  rewrite (replacer_flat st rest k x Hx Hst).
  destruct (IH {| stack := [VRef n]; keys := [k] |} [] Hp eq_refl)
    as (st' & Hloop & Hst').
  destruct x; try done; cbn [json_of_primitive map fst snd];
    rewrite Hloop; exists st'; by split.
Qed.

Lemma omap_assemble (es : list (string * value)) :
  omap (fun kr : string * option json =>
          match kr.2 with Some j => Some (kr.1, j) | None => None end)
       (map (fun kv => (kv.1, json_of_primitive kv.2)) es)
  = members_of es.
Proof.
  unfold members_of. induction es as [|[k x] es IH]; [done|].
  csimpl in *. destruct (json_of_primitive x); csimpl; by rewrite IH.
Qed.

Lemma stringifySafe_flat spaces :
  Forall (fun kv => primitive kv.2) data ->
  stringifySafe h' (VRef n) None spaces None
  = Done (Some (JSON.render
                  (String.substring 0 10 (default EmptyString spaces))
                  EmptyString (JObj (members_of data)))).
Proof.
  intros Hp. unfold stringifySafe, Stringify.stringify.
  assert (length h' = S n) as Hlen.
  { rewrite length_app. simpl. lia. }
  rewrite Hlen, SerializeJSONProperty_step.
  unfold stringifySafeSerializer at 1.
  cbn [stack keys fresh_state length Nat.ltb Nat.leb app].
  assert (h' !! n = Some (OObj data)) as ->.
  { by rewrite lookup_app_r, Nat.sub_diag. }
  rewrite bool_decide_eq_false_2 by apply not_elem_of_nil.
  cbn [app entries].
  destruct (flat_entries n data {| stack := [VRef n]; keys := [] |} [] Hp
              eq_refl) as (st' & -> & _).
  unfold Stringify.assemble. cbn [is_array]. by rewrite omap_assemble.
Qed.
End Flat.

(** *** Assigning a field *)

Lemma has_field_assign key v (props : list (string * value)) k :
  has_field k (assign key v props) <-> k = key \/ has_field k props.
Proof.
  unfold has_field. induction props as [|[k0 x] props IH]; simpl.
  - rewrite list_elem_of_singleton. set_solver.
  - case_bool_decide as Hk; simpl.
    + subst. rewrite !elem_of_cons. naive_solver.
    + rewrite !elem_of_cons, IH. naive_solver.
Qed.

Lemma assign_mem key v (props : list (string * value)) :
  (key, v) ∈ assign key v props.
Proof.
  induction props as [|[k0 x] props IH]; simpl; [set_solver|].
  case_bool_decide; subst; set_solver.
Qed.

Lemma assign_primitive key v (props : list (string * value)) :
  primitive v ->
  Forall (fun kv => primitive kv.2) props ->
  Forall (fun kv => primitive kv.2) (assign key v props).
Proof.
  intros Hv. induction 1 as [|[k0 x] props Hx Hp IH]; simpl.
  - by repeat constructor.
  - case_bool_decide; constructor; done.
Qed.

Lemma assign_head key v k0 x (props : list (string * value)) :
  key <> k0 ->
  assign key v ((k0, x) :: props) = (k0, x) :: assign key v props.
Proof. intros Hne. simpl. by rewrite bool_decide_eq_false_2 by congruence. Qed.

Lemma members_of_has k (props : list (string * value)) :
  has_field k (members_of props) -> has_field k props.
Proof.
  unfold has_field, members_of.
  induction props as [|[k0 x] props IH]; simpl; [done|].
  destruct (json_of_primitive x); simpl; set_solver.
Qed.

Lemma members_of_mem k s (props : list (string * value)) :
  (k, VStr s) ∈ props -> has_field k (members_of props).
Proof.
  unfold has_field, members_of.
  induction props as [|[k0 x] props IH]; [set_solver|].
  rewrite elem_of_cons. intros [[= <- <-]|Hin]; simpl.
  - set_solver.
  - destruct (json_of_primitive x); simpl; set_solver.
Qed.

Lemma of_option_primitive r : primitive (of_option r).
Proof. by destruct r. Qed.

(** *** Rules of the triples *)

Lemma triple_bind {A B} pre mid post exc (m : M A) (k : A -> M B) :
  triple pre m mid exc ->
  (forall a, triple (mid a) (k a) post exc) ->
  triple pre (bind m k) post exc.
Proof.
  intros Hm Hk s Hs. unfold bind. specialize (Hm s Hs).
  destruct (m s) as [[a| |] s1]; try done. by apply Hk.
Qed.

Lemma triple_ret {A} (pre : state -> Prop) (a : A) exc :
  triple pre (ret a) (fun _ s => pre s) exc.
Proof. by intros s Hs. Qed.

Lemma triple_weaken {A} (pre pre' : state -> Prop) (m : M A)
  (post post' : A -> state -> Prop) (exc exc' : state -> Prop) :
  triple pre' m post' exc' ->
  (forall s, pre s -> pre' s) ->
  (forall a s, post' a s -> post a s) ->
  (forall s, exc' s -> exc s) ->
  triple pre m post exc.
Proof.
  intros Hm H1 H2 H3 s Hs. specialize (Hm s (H1 s Hs)).
  destruct (m s) as [[a| |] s1]; auto.
Qed.

Lemma triple_lift {A} (pre : state -> Prop) (r : run A) :
  triple pre (lift r) (fun a s => pre s /\ r = Done a) pre.
Proof. intros s Hs. unfold lift. by destruct r. Qed.

Lemma triple_get (pre : state -> Prop) :
  triple pre get_state (fun a s => pre s /\ a = s) pre.
Proof. by intros s Hs. Qed.

Lemma triple_modify (pre post : state -> Prop) f exc :
  (forall s, pre s -> post (f s)) ->
  triple pre (modify f) (fun _ s => post s) exc.
Proof. intros Hf s Hs. by apply Hf. Qed.

Lemma triple_for_each {A} (I : state -> Prop) (f : A -> M unit) l :
  (forall x, triple I (f x) (fun _ s => I s) I) ->
  triple I (for_each f l) (fun _ s => I s) I.
Proof.
  intros Hf. induction l as [|x l IH]; simpl.
  - apply triple_ret.
  - eapply triple_bind; [apply Hf|]. intros ?. apply IH.
Qed.

Lemma triple_try {A} pre (m : M A) handler post exc :
  triple pre m post exc ->
  (forall e, triple exc (handler e) post exc) ->
  triple pre (try_catch m handler) post exc.
Proof.
  intros Hm Hh s Hs. unfold try_catch. specialize (Hm s Hs).
  destruct (m s) as [[a| |] s1]; try done. by apply Hh.
Qed.

(** *** What a capture writes *)

Section CaptureInvariant.
Variable P : platform.
Variable h : heap.
Variable opts : options.
Variable originalFn : method.
Variable argStr : string.
Variable files : gmap string node.

(** What is known of every result of the response serializer. *)
Variable Rok : option string -> Prop.
Hypothesis response_ok : forall h' args r,
  responseSerializer opts (h' ++ [OArr args]) (VRef (length h')) = Done r ->
  Rok r.

Local Abbreviation FP := (filepath_of P opts argStr).
Local Abbreviation record_ok := (record_ok argStr Rok).
Local Abbreviation outcome_recorded := (outcome_recorded Rok).
Local Abbreviation written_ok := (written_ok P opts argStr Rok).
Local Abbreviation files_ok := (files_ok files).
Local Abbreviation INV := (Inv P opts argStr files Rok).

Lemma before_return_sound : sound before_return.
Proof.
  split.
  - intros d c v [Hk ->]. split; [|done].
    intros k Hin. apply has_field_assign in Hin as [->|Hin]; auto.
  - intros d c [Hk ->]. split.
    + intros k Hin. destruct (Hk k Hin) as [-> | ->]; set_solver.
    + intros [H1 H2]. destruct (Hk _ H1) as [?|?]; done.
Qed.

Lemma after_return_sound : sound after_return.
Proof.
  split.
  - intros d c v (Hk & He1 & Hc). split; [|split].
    + intros k Hin. apply has_field_assign in Hin as [->|Hin];
        [set_solver|auto].
    + intros [H1 H2]. apply He1.
      apply has_field_assign in H1 as [?|H1]; [done|].
      split; [done|].
      destruct H2 as [H2|H2]; apply has_field_assign in H2 as [?|H2];
        try done; auto.
    + intros Ht. destruct (Hc Ht) as (N1 & N2 & N3).
      split_and!; intros Hin;
        apply has_field_assign in Hin as [?|Hin]; done.
  - intros d c (Hk & He & _). done.
Qed.

Lemma before_is_after d c : before_return d c -> after_return d c.
Proof.
  intros HX. destruct (proj2 before_return_sound d c HX) as [Hk He].
  destruct HX as [Hk0 ->]. by split_and!.
Qed.

Section Phase.
Variable X : list (string * value) -> bool -> Prop.

Lemma Inv_log e s :
  (forall p c, e <> EvWrite p c) ->
  INV X s -> INV X (set_trace (trace s ++ [e]) s).
Proof.
  intros He (H1 & H2 & H3 & H4 & H5 & H6). split_and!; try done.
  - simpl. apply Forall_app. split; [done|]. constructor; [|done].
    destruct e; try done. by destruct (He path content).
  - intros p. destruct (H3 p) as [Hp|(c & Hp & Hin)]; [by left|right].
    exists c. split; [done|]. simpl. set_solver.
Qed.

Lemma triple_log e :
  (forall p c, e <> EvWrite p c) ->
  triple (INV X) (log e) (fun _ => INV X) (INV X).
Proof. intros He s Hs. by apply Inv_log. Qed.

Lemma triple_call_callback f args :
  triple (INV X) (call_callback f args) (fun _ => INV X) (INV X).
Proof.
  unfold call_callback.
  destruct f as [| | | | |[id|]|]; try unchanged.
  by apply triple_log.
Qed.

Lemma triple_run_task t :
  triple (INV X) (run_task t) (fun _ => INV X) (INV X).
Proof.
  intros s Hs.
  assert (forall e r, (forall p c, e <> EvWrite p c) ->
            match (r : run unit), set_trace (trace s ++ [e]) s with
            | Done _, s' => INV X s'
            | _, s' => INV X s'
            end) as Hlog.
  { intros e r He. pose proof (Inv_log e s He Hs). by destruct r. }
  unfold run_task, call_callback, bind, get_state, log, modify, throw,
    lift, ret.
  destruct t as [cb|cj]; simpl.
  - repeat (case_match; simpl); simplify_eq; simpl; try done.
    all: by apply Inv_log.
  - repeat (case_match; simpl); simplify_eq; simpl; try done.
    all: by apply Inv_log.
Qed.

Hypothesis X_sound : sound X.

(** Lines 103-108: the record is written as it stands. *)
Lemma triple_write :
  triple (fun s => INV X s /\ outcome_recorded (wrappedCallData s))
         (writeWrappedCallData P h) (fun _ => INV X) (INV X).
Proof.
  intros s [HI Ho]. pose proof HI as (H1 & H2 & H3 & H4 & H5 & H6).
  unfold writeWrappedCallData, bind, get_state, lift.
  rewrite (stringifySafe_flat h (wrappedCallData s) (Some "  ") H5).
  cbn [fst snd].
  pose (content := fixture_text P (members_of (wrappedCallData s))).
  assert (concat_string
            (Some (JSON.render
                     (String.substring 0 10
                        (default EmptyString (Some "  ")))
                     EmptyString (JObj (members_of (wrappedCallData s)))))
            (EOL P) = content) as -> by reflexivity.
  unfold writeFileSync, bind, log, modify, get_state, throw, lift.
  cbn [fst snd].
  assert (INV X (set_trace (trace s ++ [EvWrite (filepath s) content]) s))
    as HI'.
  { split_and!; try done.
    - simpl. apply Forall_app. split; [done|]. constructor; [|done].
      simpl. split; [done|]. exists (wrappedCallData s). split; [|done].
      destruct (proj2 X_sound _ _ H6) as [Hk He]. by split_and!.
    - intros p. destruct (H3 p) as [Hp|(c & Hp & Hin)]; [by left|right].
      exists c. split; [done|]. simpl. set_solver. }
  cbn [fs set_trace].
  destruct (fs s !! filepath s) as [[c|code]|] eqn:Hf; cbn [fst snd];
    try exact HI'.
  all: destruct HI' as (I1 & I2 & I3 & I4 & I5 & I6).
  all: split_and!; try done.
  all: intros p; destruct (decide (p = filepath s)) as [->|Hne];
    [ right; exists content; split;
      [ simpl; by rewrite lookup_insert_eq | simpl; set_solver ]
    | destruct (I3 p) as [Hp|(c' & Hp & Hin)];
      [ left; simpl in *; by rewrite lookup_insert_ne
      | right; exists c'; split;
        [ simpl in *; by rewrite lookup_insert_ne | done ] ] ].
Qed.

Lemma Inv_set_field key v s :
  primitive v -> key <> "callArgs" ->
  X (assign key v (wrappedCallData s)) (chained s) ->
  INV X s ->
  INV X (set_wrappedCallData (assign key v (wrappedCallData s)) s).
Proof.
  intros Hv Hk HX (H1 & H2 & H3 & (rest & H4) & H5 & H6).
  split_and!; try done.
  - simpl. rewrite H4, assign_head by done. by eexists.
  - simpl. by apply assign_primitive.
Qed.

(** Lines 112-117. *)
Lemma triple_proxy args :
  triple (INV X) (proxy P h opts args) (fun _ => INV X) (INV X).
Proof.
  unfold proxy.
  eapply triple_bind with
    (mid := fun r s => INV X s /\ Rok r).
  { intros s Hs. unfold serialize_list, lift.
    destruct (responseSerializer opts _ _) as [r| |] eqn:Hr; try done.
    split; [done|]. by eapply response_ok. }
  intros r.
  eapply triple_bind with
    (mid := fun _ s => INV X s /\ outcome_recorded (wrappedCallData s)).
  { intros s [Hs Hr]. unfold set_field, modify. split.
    - apply Inv_set_field; try done.
      + apply of_option_primitive.
      + apply (proj1 X_sound). by destruct Hs as (_&_&_&_&_&?).
    - exists "callbackArgs", r. split_and!; [set_solver|done|].
      simpl. apply assign_mem. }
  intros ?.
  eapply triple_bind; [apply triple_write|]. intros ?.
  eapply triple_bind with (mid := fun _ s => INV X s).
  { by intros s Hs. }
  intros s0. apply triple_call_callback.
Qed.

Lemma triple_invoke f args :
  triple (INV X) (invoke P h opts f args) (fun _ => INV X) (INV X).
Proof.
  unfold invoke.
  eapply triple_bind with (mid := fun _ s => INV X s).
  { by intros s Hs. }
  intros s0.
  destruct f as [| | | | |[id|]|]; try unchanged.
  - by apply triple_log.
  - destruct (proxy_built s0); [apply triple_proxy|by apply triple_log].
Qed.

End Phase.

(** [originalFn.apply] up to the return of the method. *)
Lemma triple_apply_original self args :
  triple (INV before_return) (apply_original P h opts originalFn self args)
         (fun _ => INV before_return) (INV before_return).
Proof.
  unfold apply_original.
  eapply triple_bind; [by apply triple_log|]. intros ?.
  eapply triple_bind with (mid := fun _ s => INV before_return s).
  { by intros s Hs. }
  intros ?.
  eapply triple_bind.
  { apply triple_for_each. intros [f xs].
    apply triple_invoke, before_return_sound. }
  intros ?. intros s Hs. unfold lift. by destruct (completes _).
Qed.

Lemma Inv_before_after s : INV before_return s -> INV after_return s.
Proof.
  intros (H1 & H2 & H3 & H4 & H5 & H6). split_and!; try done.
  by apply before_is_after.
Qed.

(** Lines 120-148. *)
Lemma triple_capture self args :
  triple (INV before_return) (capture P h opts originalFn self args)
         (fun _ => INV after_return) (INV after_return).
Proof.
  unfold capture.
  eapply triple_bind.
  { eapply triple_weaken; [apply triple_apply_original|done|..].
    - intros a s Hs. exact Hs.
    - apply Inv_before_after. }
  intros returnValue.
  eapply triple_bind with (mid := fun _ s => INV before_return s).
  { intros s Hs. unfold lift.
    destruct (if truthy returnValue then _ else _); try done;
      by apply Inv_before_after. }
  intros t.
  set (rp := if truthy returnValue then _ else returnValue).
  assert (primitive rp) as Hrp.
  { unfold rp. destruct returnValue; simpl; try done; by case_match. }
  eapply triple_bind with
    (mid := fun _ s =>
              INV (fun d c =>
                     (forall k, has_field k d ->
                        k = "callArgs" \/ k = "callbackArgs"
                        \/ k = "returnedPromise") /\ c = false) s).
  { intros s (H1 & H2 & H3 & (rest & H4) & H5 & [Hk Hc]).
    unfold set_field, modify. split_and!; try done.
    - simpl. rewrite H4, assign_head by done. by eexists.
    - simpl. by apply assign_primitive.
    - simpl. intros k Hin.
      apply has_field_assign in Hin as [->|Hin]; [auto|].
      destruct (Hk k Hin); auto. }
  intros ?.
  assert (forall s,
            INV (fun d c =>
                   (forall k, has_field k d ->
                      k = "callArgs" \/ k = "callbackArgs"
                      \/ k = "returnedPromise") /\ c = false) s ->
            INV after_return s) as Hweak.
  { intros s (H1 & H2 & H3 & H4 & H5 & [Hk Hc]).
    unfold Inv, after_return, exclusive. split_and!; try done.
    - intros k Hin. destruct (Hk k Hin) as [->|[->| ->]]; set_solver.
    - intros [N1 N2]; destruct (Hk _ N1) as [?|[?|?]]; done.
    - by rewrite Hc. }
  destruct (truthy rp).
  - destruct t as [| |[| | | | | |]];
      try (intros s' Hs'; unfold throw, lift; cbv beta iota;
           by apply Hweak).
    eapply triple_bind with (mid := fun _ s => INV after_return s).
    + intros s (H1 & H2 & H3 & H4 & H5 & [Hk Hc]).
      unfold modify, Inv, after_return, exclusive. cbn [fst snd].
      split_and!; try done.
      * intros k Hin. destruct (Hk k Hin) as [->|[->| ->]]; set_solver.
      * intros [N1 N2]; destruct (Hk _ N1) as [?|[?|?]]; done.
      * intros ?. split_and!; intros N; destruct (Hk _ N) as [?|[?|?]];
          done.
    + intros ? s Hs. exact Hs.
  - eapply triple_bind with
      (mid := fun _ s =>
                INV (fun d c =>
                       (forall k, has_field k d ->
                          k = "callArgs" \/ k = "callbackArgs"
                          \/ k = "returnedPromise") /\ c = false) s).
    { intros s Hs. unfold lift.
      destruct (returnValueSerializer opts h returnValue); try done;
        by apply Hweak. }
    intros r.
    eapply triple_bind with (mid := fun _ s => INV after_return s).
    + intros s (H1 & H2 & H3 & (rest & H4) & H5 & [Hk Hc]).
      unfold set_field, modify, Inv, after_return, exclusive.
      cbn [fst snd]. split_and!; try done.
      * simpl. rewrite H4, assign_head by done. by eexists.
      * simpl. apply assign_primitive; [apply of_option_primitive|done].
      * simpl. intros k Hin.
        apply has_field_assign in Hin as [->|Hin]; [set_solver|].
        destruct (Hk k Hin) as [->|[->| ->]]; set_solver.
      * simpl. intros [N1 N2].
        destruct N2 as [N2|N2];
          apply has_field_assign in N2 as [?|N2]; try done;
          destruct (Hk _ N2) as [?|[?|?]]; done.
      * simpl. by rewrite Hc.
    + intros ? s Hs. exact Hs.
Qed.

Lemma settling_sound : sound settling.
Proof.
  split.
  - intros d c v (Hk & Hc & N). split_and!; [|done|].
    + intros k Hin. apply has_field_assign in Hin as [->|Hin];
        [set_solver|auto].
    + intros Hin. apply N. by apply has_field_assign in Hin as [?|Hin].
  - intros d c (Hk & Hc & N). split; [done|]. by intros [? _].
Qed.

Lemma settling_after s : INV settling s -> INV after_return s.
Proof.
  intros (H1 & H2 & H3 & H4 & H5 & (Hk & Hc & N)).
  unfold Inv, after_return, exclusive. split_and!; try done.
  - by intros [? _].
  - by rewrite Hc.
Qed.

(** What the two handlers share: the arguments are serialized, recorded
    under [key] and written, and the promise of the caller settles. *)
Lemma triple_attempt key h' args ev :
  key ∈ ["promiseResolutionArgs"; "promiseRejectionArgs"] ->
  (forall p c, ev <> EvWrite p c) ->
  triple (INV settling)
    (let* r := lift (responseSerializer opts (h' ++ [OArr args])
                       (VRef (length h'))) in
     let* _ := set_field key (of_option r) in
     let* _ := writeWrappedCallData P h in
     log ev)
    (fun _ => INV settling) (INV settling).
Proof.
  intros Hkey Hev.
  assert (key <> "callArgs" /\ key <> "returnValue"
          /\ key ∈ fixture_fields) as (K1 & K2 & K3).
  { rewrite !elem_of_cons in Hkey.
    destruct Hkey as [->|[->|Hkey]]; [| |by apply elem_of_nil in Hkey];
      (split_and!; [done|done|set_solver]). }
  eapply triple_bind with (mid := fun r s => INV settling s /\ Rok r).
  { intros s Hs. unfold lift.
    destruct (responseSerializer opts _ _) as [r| |] eqn:Hr; try done.
    split; [done|]. by eapply response_ok. }
  intros r.
  eapply triple_bind with
    (mid := fun _ s => INV settling s
                       /\ outcome_recorded (wrappedCallData s)).
  { intros s [Hs Hr]. unfold set_field, modify. split.
    - apply Inv_set_field; try done.
      + apply of_option_primitive.
      + destruct Hs as (_ & _ & _ & _ & _ & (Hk & Hc & N)).
        split_and!; [|done|].
        * intros k Hin. apply has_field_assign in Hin as [->|Hin]; auto.
        * intros Hin. apply N.
          by apply has_field_assign in Hin as [?|Hin].
    - exists key, r. split_and!; [set_solver|done|simpl; apply assign_mem]. }
  intros ?.
  eapply triple_bind; [apply triple_write, settling_sound|]. intros ?.
  by apply triple_log.
Qed.

(** Lines 135-143. *)
Lemma triple_catch_handler h' reason d :
  triple (INV settling) (catch_handler P h opts h' reason d)
         (fun _ => INV settling) (INV settling).
Proof.
  unfold catch_handler. apply triple_try.
  - apply triple_attempt; [set_solver|done].
  - intros e. by apply triple_log.
Qed.

(** Lines 126-143: the handlers. *)
Lemma triple_settle (fulfilled : bool) v :
  triple (fun s => INV after_return s /\ chained s = true)
         (if fulfilled then on_fulfilled P h opts v
          else on_rejected P h opts v)
         (fun _ => INV after_return) (INV after_return).
Proof.
  assert (triple (fun s => INV after_return s /\ chained s = true)
            (modify (set_chained false))
            (fun _ => INV settling) (INV after_return)) as Hstart.
  { intros s [(H1 & H2 & H3 & H4 & H5 & (Hk & He & Hc)) Ht].
    destruct (Hc Ht) as (N1 & N2 & N3).
    unfold modify. cbn [fst snd]. by split_and!. }
  destruct fulfilled; unfold on_fulfilled, on_rejected.
  - eapply triple_bind; [exact Hstart|]. intros ?.
    eapply triple_weaken with
      (post' := fun _ s => INV settling s) (exc' := INV settling);
      [|intros s Hs; exact Hs|intros ? s; apply settling_after
       |apply settling_after].
    apply triple_try.
    + unfold serialize_list. apply triple_attempt; [set_solver|done].
    + intros e. destruct (caught P h e) as [h' reason].
      apply triple_catch_handler.
  - eapply triple_bind; [exact Hstart|]. intros ?.
    eapply triple_weaken with
      (post' := fun _ s => INV settling s) (exc' := INV settling);
      [|intros s Hs; exact Hs|intros ? s; apply settling_after
       |apply settling_after].
    apply triple_catch_handler.
Qed.

Lemma triple_deliver a :
  triple (INV after_return) (deliver P h opts a)
         (fun _ => INV after_return) (INV after_return).
Proof.
  unfold deliver.
  eapply triple_bind with
    (mid := fun s0 s => INV after_return s /\ s0 = s).
  { by intros s Hs. }
  intros s0.
  destruct a as [f args|v|v].
  - eapply triple_weaken;
      [apply triple_invoke, after_return_sound|by intros s [? ?]|done|done].
  - destruct (chained s0) eqn:Hc.
    + eapply triple_weaken; [apply (triple_settle true v)| |done|done].
      intros s [Hs ->]. by split.
    + eapply triple_weaken;
        [by apply (triple_log after_return)|by intros s [? ?]|done|done].
  - destruct (chained s0) eqn:Hc.
    + eapply triple_weaken; [apply (triple_settle false v)| |done|done].
      intros s [Hs ->]. by split.
    + eapply triple_weaken;
        [by apply (triple_log after_return)|by intros s [? ?]|done|done].
Qed.

Lemma triple_later :
  triple (INV after_return) (later P h opts)
         (fun _ => INV after_return) (INV after_return).
Proof.
  unfold later.
  eapply triple_bind with (mid := fun _ s => INV after_return s).
  { by intros s Hs. }
  intros s0.
  eapply triple_bind with (mid := fun _ s => INV after_return s).
  { by intros s Hs. }
  intros ?.
  eapply triple_bind.
  { apply triple_for_each. intros t. apply triple_run_task. }
  intros ?.
  eapply triple_bind with (mid := fun _ s => INV after_return s).
  { by intros s Hs. }
  intros s1.
  eapply triple_bind with (mid := fun _ s => INV after_return s).
  { by intros s Hs. }
  intros ?. apply triple_for_each. intros act. apply triple_deliver.
Qed.
End CaptureInvariant.

Section CaptureSession.
Variable P : platform.
Variable h : heap.
Variable opts : options.
Variable originalFn : method.
Variable files : gmap string node.
Variable Rok : option string -> Prop.

Hypothesis is_capture : mode opts = Some "capture".
Hypothesis response_ok : forall h' args r,
  responseSerializer opts (h' ++ [OArr args]) (VRef (length h')) = Done r ->
  Rok r.

Lemma wrapper_reaches_capture self args argStr :
  argumentSerializer opts (h ++ [OArr args]) (VRef (length h))
  = Done (Some argStr) ->
  exists args' s1,
    wrapper P h opts originalFn self args (start files)
    = capture P h opts originalFn self args' s1
    /\ Inv P opts argStr files Rok before_return s1.
Proof.
  intros Hser. unfold wrapper.
  rewrite bool_decide_eq_false_2 by (rewrite is_capture; discriminate).
  unfold bind at 1. unfold serialize_list, lift. rewrite Hser.
  unfold bind at 1 2. unfold modify at 1 2. cbn [fst snd].
  rewrite (bool_decide_eq_true_2 (mode opts = Some "capture")) by done.
  assert (forall s1,
            filepath s1 = filepath_of P opts argStr ->
            trace s1 = [] -> fs s1 = files ->
            wrappedCallData s1 = [("callArgs", VStr argStr)] ->
            chained s1 = false ->
            Inv P opts argStr files Rok before_return s1) as Hinv.
  { intros s1 H1 H2 H3 H4 H5. unfold Inv, before_return.
    rewrite H1, H2, H4, H5. split_and!; try done.
    - intros p. left. by rewrite H3.
    - by eexists.
    - by repeat constructor.
    - intros k Hk. unfold has_field in Hk. simpl in Hk.
      apply list_elem_of_singleton in Hk. by left. }
  destruct (is_function (default VUndefined (last args))).
  - destruct (callbackSwap opts args (VFun ProxyFn)) as [args' orig].
    eexists _, _. split; [reflexivity|]. by apply Hinv.
  - eexists _, _. split; [reflexivity|]. by apply Hinv.
Qed.

(** Whatever a capture session does, what it has written and what it
    holds in memory stay within the invariant. *)
Lemma capture_session_invariant self args argStr :
  argumentSerializer opts (h ++ [OArr args]) (VRef (length h))
  = Done (Some argStr) ->
  Inv P opts argStr files Rok after_return
    (session P h opts originalFn self args (start files)).2.
Proof.
  intros Hser. rewrite session_unfold.
  destruct (wrapper_reaches_capture self args argStr Hser)
    as (args' & s1 & -> & HI).
  pose proof (triple_capture P h opts originalFn argStr files Rok
                response_ok self args' s1 HI) as Hc.
  destruct (capture P h opts originalFn self args' s1) as [[r| |] s2];
    try done.
  pose proof (triple_later P h opts argStr files Rok response_ok s2 Hc)
    as Hl.
  by destruct (later P h opts s2) as [[[]| |] s3].
Qed.

Lemma capture_session_without_arguments self args :
  (forall argStr,
     argumentSerializer opts (h ++ [OArr args]) (VRef (length h))
     <> Done (Some argStr)) ->
  (session P h opts originalFn self args (start files)).2 = start files.
Proof.
  intros Hser. rewrite session_unfold. unfold wrapper.
  rewrite bool_decide_eq_false_2 by (rewrite is_capture; discriminate).
  unfold bind at 1. unfold serialize_list, lift.
  destruct (argumentSerializer opts _ _) as [[argStr|]| |]; try done.
  by destruct (Hser argStr).
Qed.

(** Every file a capture session leaves changed is a record it wrote. *)
Lemma capture_session_files self args path content :
  let e := session P h opts originalFn self args (start files) in
  fs e.2 !! path = Some (File content) ->
  files !! path <> Some (File content) ->
  exists argStr data,
    argumentSerializer opts (h ++ [OArr args]) (VRef (length h))
    = Done (Some argStr)
    /\ path = filepath_of P opts argStr
    /\ content = fixture_text P (members_of data)
    /\ record_ok argStr Rok data.
Proof.
  intros e Hfs Hne. subst e.
  destruct (argumentSerializer opts (h ++ [OArr args]) (VRef (length h)))
    as [[argStr|]| |] eqn:Hser.
  2-4: rewrite capture_session_without_arguments in Hfs
    by (intros a; rewrite Hser; congruence); by destruct Hne.
  destruct (capture_session_invariant self args argStr Hser)
    as (_ & Hw & Hf & _).
  destruct (Hf path) as [Hsame|(c & Hc & Hin)].
  { rewrite Hfs in Hsame. by destruct Hne. }
  rewrite Hfs in Hc. injection Hc as <-.
  rewrite Forall_forall in Hw. specialize (Hw _ Hin). simpl in Hw.
  destruct Hw as (-> & data & Hok & ->).
  exists argStr, data. by split_and!.
Qed.
End CaptureSession.

(** The default serializer gives an array a string. *)
Lemma defaultSerializer_of_array h xs :
  defaultSerializer (h ++ [OArr xs]) (VRef (length h)) <> Done None.
Proof.
  unfold defaultSerializer, stringifySafe, Stringify.stringify.
  rewrite SerializeJSONProperty_step.
  unfold stringifySafeSerializer at 1.
  cbn [stack keys fresh_state length Nat.ltb Nat.leb app].
  rewrite lookup_app_r, Nat.sub_diag by done. cbn [lookup list_lookup].
  rewrite bool_decide_eq_false_2 by apply not_elem_of_nil.
  by destruct (Stringify.ser_entries _ _ _) as [st [rs| |]].
Qed.

(** C4 (amended).  Every file a capture session writes sits at
    [path.join(dir, prefix-fingerprint.json)], where the fingerprint is the
    first twelve characters of the hexadecimal SHA-256 digest of the
    serialized arguments, so that equal serialized arguments give the same
    file.  The file holds one JSON object, printed with an indentation of
    two spaces and followed by the line terminator; its first member is
    [callArgs], the serialized arguments; its other members are among
    [callbackArgs], [returnedPromise], [promiseResolutionArgs],
    [promiseRejectionArgs] and [returnValue]. *)
Theorem capture_writes_fixture_files
  (P : platform) (h : heap) (opts : options) (originalFn : method)
  (self : value) (arguments : list value) (files : gmap string node)
  (path content : string) :
  mode opts = Some "capture" ->
  let e := session P h opts originalFn self arguments (start files) in
  fs e.2 !! path = Some (File content) ->
  files !! path <> Some (File content) ->
  exists argStr members,
    argumentSerializer opts (h ++ [OArr arguments]) (VRef (length h))
    = Done (Some argStr)
    /\ path = path_join P (dir opts)
                (prefix opts +:+ "-"
                   +:+ String.substring 0 12 (sha256_hex P argStr)
                   +:+ ".json")
    /\ content = fixture_text P members
    /\ members !! 0 = Some ("callArgs", JStr argStr)
    /\ forall key, has_field key members -> key ∈ fixture_fields.
Proof.
  intros Hm e Hfs Hne.
  destruct (capture_session_files P h opts originalFn files (fun _ => True)
              Hm (fun _ _ _ _ => I) self arguments path content Hfs Hne)
    as (argStr & data & Hser & -> & -> & (rest & ->) & _ & Hk & _).
  exists argStr, (members_of (("callArgs", VStr argStr) :: rest)).
  split_and!; try done.
  intros key Hin. by apply Hk, members_of_has.
Qed.

(** C3 (amended).  Every record a capture session writes holds [callArgs]
    and at least one outcome group: callback arguments, the settlement of a
    promise (its resolution or its rejection) or a return value (the
    response serializer returning a string for every array of arguments, as
    the default one does).  It never holds a return value beside the
    settlement of a promise; callback arguments may stand beside a
    settlement or beside a return value, so that a record may hold two
    groups. *)
Theorem capture_record_outcomes
  (P : platform) (h : heap) (opts : options) (originalFn : method)
  (self : value) (arguments : list value) (files : gmap string node)
  (path content : string) :
  mode opts = Some "capture" ->
  (forall h' xs,
     responseSerializer opts (h' ++ [OArr xs]) (VRef (length h'))
     <> Done None) ->
  let e := session P h opts originalFn self arguments (start files) in
  fs e.2 !! path = Some (File content) ->
  files !! path <> Some (File content) ->
  exists members,
    content = fixture_text P members
    /\ has_field "callArgs" members
    /\ (has_field "callbackArgs" members
        \/ has_field "promiseResolutionArgs" members
        \/ has_field "promiseRejectionArgs" members
        \/ has_field "returnValue" members)
    /\ ~ (has_field "returnValue" members
          /\ (has_field "promiseResolutionArgs" members
              \/ has_field "promiseRejectionArgs" members)).
Proof.
  intros Hm Hresp e Hfs Hne.
  destruct (capture_session_files P h opts originalFn files
              (fun r => r <> None) Hm) with
    (self := self) (args := arguments) (path := path) (content := content)
    as (argStr & data & Hser & -> & -> & (rest & Hd) & _ & Hk & He1
        & (K & r & HK & Hr & Hin)); try done.
  { intros h' xs r Hx ->. by apply (Hresp h' xs). }
  exists (members_of data). split_and!; try done.
  - apply (members_of_mem _ argStr). rewrite Hd. set_solver.
  - destruct r as [str|]; [|done]. simpl in Hin.
    apply members_of_mem in Hin.
    rewrite !elem_of_cons in HK.
    destruct HK as [->|[->|[->|HK]]]; [tauto..|]. by apply elem_of_nil in HK.
  - intros [A B]. apply He1. split; [by apply members_of_has|].
    destruct B as [B|B]; [left|right]; by apply members_of_has.
Qed.

(** C9.  On every value of a closed heap, cyclic or not, [stringifySafe]
    returns: it neither runs forever nor throws, although [JSON.stringify]
    itself throws on a cyclic structure.  What it returns is the printing of
    the value in which an object met again below itself is replaced by the
    marker of the key-path of that ancestor: the keys from the root joined
    by dots, and the bare marker for the root. *)
Theorem stringifySafe_returns_and_marks_cycles
  (h : heap) (v : value) (spaces : option string) :
  heap_closed h ->
  value_closed h v ->
  exists r,
    stringifySafe h v None spaces None
    = Done (JSON.render (String.substring 0 10 (default EmptyString spaces))
              EmptyString <$> r)
    /\ renders h [] [] v r.
Proof. intros Hh Hv. by apply stringifySafe_spec. Qed.

Import Scenario.

(** A cyclic structure: the root holds itself and a child that holds the
    root and an array that holds the child. *)
Lemma stringifySafe_returns_and_marks_cycles_witness :
  exists r,
    stringifySafe objects (VRef 2) None None None
    = Done (JSON.render (String.substring 0 10 (default EmptyString None))
              EmptyString <$> r)
    /\ renders objects [] [] (VRef 2) r.
Proof.
  apply (stringifySafe_returns_and_marks_cycles objects (VRef 2) None).
  - unfold heap_closed, objects. repeat constructor; simpl; lia.
  - simpl. lia.
Defined.

(** The markers of that structure, as the code prints them. *)
Example stringifySafe_cyclic_example :
  stringifySafe objects (VRef 2) None None None
  = Done (Some (JSON.render EmptyString EmptyString
                  (JObj [("name", JStr "root");
                         ("self", JStr "[Circular ~]");
                         ("child",
                          JObj [("parent", JStr "[Circular ~]");
                                ("items",
                                 JArr [JStr "[Circular ~.child]";
                                       JNum 5; JNull])])]))).
Proof. vm_compute. reflexivity. Qed.

(** [JSON.stringify] without the replacer throws on the same value. *)
Example stringify_cyclic_throws :
  Stringify.stringify objects (fun st _ _ x => (st, x)) EmptyString (VRef 2)
  = Raised Stringify.cyclic_error.
Proof. vm_compute. reflexivity. Qed.

Lemma default_directory_is_test_data_witness :
  dir (resolve_options P0 "fetch" (OptObject no_directory)) = "test/data".
Proof.
  apply (default_directory_is_test_data P0 "fetch" no_directory).
  reflexivity.
Defined.

Lemma pass_through_is_direct_call_witness :
  let w := session P0 [] live_opts fetch_later VUndefined
             [VNum 42; the_callback] (start ∅) in
  let d := direct_call fetch_later VUndefined [VNum 42; the_callback]
             (start ∅) in
  w.1 = d.1
  /\ trace w.2 = trace d.2
  /\ fs w.2 = ∅
  /\ Forall (fun e => is_fs_event e = false) (trace w.2).
Proof.
  apply (pass_through_is_direct_call P0 [] live_opts fetch_later VUndefined
           [VNum 42; the_callback] ∅).
  reflexivity.
Defined.

Lemma replay_opts_not_live : mode replay_opts <> Some "live".
Proof. vm_compute. discriminate. Qed.

Lemma replay_opts_not_capture : mode replay_opts <> Some "capture".
Proof. vm_compute. discriminate. Qed.

Lemma argStr_of_one :
  argumentSerializer replay_opts ([] ++ [OArr [VNum 1]]) (VRef (length ([] : heap)))
  = Done (Some "[1]").
Proof. vm_compute. reflexivity. Qed.

(** Replaying [seven(1)] before any capture. *)
Lemma replay_without_fixture_throws_witness :
  (wrapper P0 [] replay_opts seven VUndefined [VNum 1] (start ∅)).1
  = Raised (Error (getNiceError fixture_of_one "[1]")).
Proof.
  refine (proj1 (proj1 (replay_without_fixture_throws P0 [] replay_opts seven
                          VUndefined [VNum 1] ∅ "[1]"
                          replay_opts_not_live replay_opts_not_capture
                          argStr_of_one) _)).
  vm_compute. reflexivity.
Defined.

(** C7 (as stated): a fixture that marks the promise with the field
    [returnedDeferred] gives no promise; the call throws at line 179. *)
Lemma replay_ignores_returnedDeferred :
  let w := wrapper P0 [] replay_opts seven VUndefined [VNum 1]
             (start marked_deferred) in
  w.1 = Raised JSON.syntax_error
  /\ trace w.2 = [EvRead fixture_of_one]
  /\ queue w.2 = [].
Proof. vm_compute. by split_and!. Qed.

(** Replaying against a fixture that marks a promise without settlement. *)
Lemma replay_unsettled_promise_rejects_witness :
  let e := session P0 [] replay_opts seven VUndefined [VNum 1]
             (start unsettled) in
  e.1 = Done RetPromise
  /\ trace e.2
     = [EvRead fixture_of_one;
        EvSettled (Rejected (Exception (Error NICE_ERR_PROMISE)))].
Proof.
  refine (proj2 (proj2 (proj2
    (replay_unsettled_promise_rejects P0 [] replay_opts seven VUndefined
       [VNum 1] unsettled "[1]"
       (fixture_text P0 [("callArgs", JStr "[1]");
                         ("returnedPromise", JBool true)])
       (JObj [("callArgs", JStr "[1]"); ("returnedPromise", JBool true)])
       replay_opts_not_live replay_opts_not_capture argStr_of_one
       _ _ _ _ _))) _);
    vm_compute; reflexivity.
Defined.

Lemma capture_opts_capture : mode capture_opts = Some "capture".
Proof. reflexivity. Qed.

(** Replaying [both(1, cb)] from the fixture its capture left. *)
Lemma replay_never_runs_the_method_and_defers_witness :
  let files :=
    fs (session P0 objects capture_opts both VUndefined
          [VNum 1; the_callback] (start ∅)).2 in
  let w := wrapper P0 objects replay_opts both VUndefined
             [VNum 1; the_callback] (start files) in
  let e := session P0 objects replay_opts both VUndefined
             [VNum 1; the_callback] (start files) in
  Forall (fun ev => is_original ev = false) (trace e.2)
  /\ (forall other : method,
        wrapper P0 objects replay_opts other VUndefined
          [VNum 1; the_callback] (start files) = w)
  /\ Forall (fun ev => is_delivery ev = false) (trace w.2)
  /\ (forall argStr content cannedJson,
        argumentSerializer replay_opts
          (objects ++ [OArr [VNum 1; the_callback]]) (VRef (length objects))
        = Done (Some argStr) ->
        files !! filepath_of P0 replay_opts argStr = Some (File content) ->
        JSON.parse_text content = Done cannedJson ->
        (field_truthy cannedJson "callbackArgs" = true ->
         exists cb, JSON.get cannedJson "callbackArgs" = Done cb
                    /\ TaskCallback cb ∈ queue w.2)
        /\ (field_truthy cannedJson "returnedPromise" = true ->
            w.1 = Done RetPromise /\ TaskSettle cannedJson ∈ queue w.2)).
Proof.
  apply (replay_never_runs_the_method_and_defers P0 objects replay_opts both
           VUndefined [VNum 1; the_callback]
           (fs (session P0 objects capture_opts both VUndefined
                  [VNum 1; the_callback] (start ∅)).2)
           replay_opts_not_live replay_opts_not_capture).
Defined.

(** What that replay shows: the callback and the settlement, both after
    the call has returned its promise. *)
Example replay_of_both :
  let files :=
    fs (session P0 objects capture_opts both VUndefined
          [VNum 1; the_callback] (start ∅)).2 in
  let w := wrapper P0 objects replay_opts both VUndefined
             [VNum 1; the_callback] (start files) in
  let e := session P0 objects replay_opts both VUndefined
             [VNum 1; the_callback] (start files) in
  w.1 = Done RetPromise
  /\ trace w.2 = [EvRead fixture_of_both]
  /\ length (queue w.2) = 2
  /\ trace e.2 = [EvRead fixture_of_both;
                  EvCallback the_callback [Fresh (JNum 3)];
                  EvSettled (Resolved (Fresh (JNum 8)))].
Proof. vm_compute. by split_and!. Qed.

Lemma capture_writes_fixture_files_witness :
  exists argStr members,
    argumentSerializer capture_opts
      (objects ++ [OArr [VNum 1; the_callback]]) (VRef (length objects))
    = Done (Some argStr)
    /\ fixture_of_both
       = path_join P0 (dir capture_opts)
           (prefix capture_opts +:+ "-"
              +:+ String.substring 0 12 (sha256_hex P0 argStr) +:+ ".json")
    /\ fixture_text P0 members_of_both = fixture_text P0 members
    /\ members !! 0 = Some ("callArgs", JStr argStr)
    /\ forall key, has_field key members -> key ∈ fixture_fields.
Proof.
  apply (capture_writes_fixture_files P0 objects capture_opts both VUndefined
           [VNum 1; the_callback] ∅ fixture_of_both
           (fixture_text P0 members_of_both) capture_opts_capture).
  - vm_compute. reflexivity.
  - rewrite lookup_empty. discriminate.
Defined.

(** Where the fixture cannot be written: the handler of [then] throws, the
    handler of [catch] records that error beside the resolution and throws
    in its turn; the promise of the caller is rejected although the wrapped
    promise was fulfilled, and no file is left. *)
Example capture_on_a_failing_path :
  let files : gmap string node := {[ fixture_of_one := Failing "EACCES" ]} in
  let e := session P0 objects capture_opts resolving VUndefined [VNum 1]
             (start files) in
  e.1 = Done RetPromise
  /\ last (trace e.2)
     = Some (EvSettled
               (Rejected (Exception (SystemError "EACCES" fixture_of_one))))
  /\ (wrappedCallData e.2).*1
     = ["callArgs"; "returnedPromise"; "promiseResolutionArgs";
        "promiseRejectionArgs"]
  /\ fs e.2 = files.
Proof. vm_compute. by split_and!. Qed.

(** C4 (as stated): the capture of [failing(1)] writes a fixture with the
    field [returnedPromise], which is none of the fields the specification
    lists. *)
Lemma capture_writes_returnedPromise :
  let e := session P0 objects capture_opts failing VUndefined [VNum 1]
             (start ∅) in
  fs e.2 !! fixture_of_one = Some (File (fixture_text P0 members_of_failing))
  /\ has_field "returnedPromise" members_of_failing
  /\ "returnedPromise" ∉ spec_fixture_fields.
Proof.
  split_and!.
  - vm_compute. reflexivity.
  - apply (bool_decide_unpack _). vm_compute. exact I.
  - apply (bool_decide_unpack _). vm_compute. exact I.
Qed.

Lemma capture_record_outcomes_witness :
  exists members,
    fixture_text P0 members_of_both = fixture_text P0 members
    /\ has_field "callArgs" members
    /\ (has_field "callbackArgs" members
        \/ has_field "promiseResolutionArgs" members
        \/ has_field "promiseRejectionArgs" members
        \/ has_field "returnValue" members)
    /\ ~ (has_field "returnValue" members
          /\ (has_field "promiseResolutionArgs" members
              \/ has_field "promiseRejectionArgs" members)).
Proof.
  apply (capture_record_outcomes P0 objects capture_opts both VUndefined
           [VNum 1; the_callback] ∅ fixture_of_both
           (fixture_text P0 members_of_both) capture_opts_capture).
  - intros h' xs. apply defaultSerializer_of_array.
  - vm_compute. reflexivity.
  - rewrite lookup_empty. discriminate.
Defined.

(** The fingerprint of the serialized arguments of a call with one string,
    the code unit 233 (e with an acute accent): the digest of the six
    bytes of its UTF-8 encoding. *)
Example hashKey_of_accented_argument :
  hashKey P0 (String.string_of_list_ascii
                (ascii_of_nat <$> [91; 34; 233; 34; 93]))
  = "0b657be394b1".
Proof. vm_compute. reflexivity. Qed.

(** C3 (as stated): the capture of [both(1, cb)], whose callback fires and
    whose promise is fulfilled, leaves a record with two outcome groups. *)
Lemma capture_populates_two_groups :
  let e := session P0 objects capture_opts both VUndefined
             [VNum 1; the_callback] (start ∅) in
  e.1 = Done RetPromise
  /\ fs e.2 !! fixture_of_both
     = Some (File (fixture_text P0 members_of_both))
  /\ populated_groups members_of_both = 2.
Proof. vm_compute. by split_and!. Qed.

(** C2 (code at the failing input).  The capture of [seven(1)], which
    returns [7] and neither calls back nor returns a promise, records the
    return value in memory and writes no file: line 145 is not followed by
    [writeWrappedCallData()]. *)
Theorem capture_of_return_value_writes_nothing :
  let e := session P0 [] capture_opts seven VUndefined [VNum 1] (start ∅) in
  e.1 = Done (RetValue (Heap (VNum 7)))
  /\ wrappedCallData e.2
     = [("callArgs", VStr "[1]"); ("returnedPromise", VBool false);
        ("returnValue", VStr "7")]
  /\ trace e.2 = [EvOriginal VUndefined [VNum 1]]
  /\ fs e.2 = ∅.
Proof. vm_compute. by split_and!. Qed.

(** C1 (code at the failing inputs).  Capture then replay, same
    configuration but the mode.  For [seven(1)] the capture leaves no
    fixture and the replay throws the missing-fixture error instead of
    returning [7].  For [fetch(42, cb)] the capture leaves a fixture with
    [callArgs] and [callbackArgs]; the replay queues the callback, then
    throws at line 179, where [JSON.parse] receives [undefined], instead of
    returning [undefined]. *)
Theorem capture_then_replay_diverges :
  let c1 := session P0 [] capture_opts seven VUndefined [VNum 1] (start ∅) in
  let r1 := session P0 [] replay_opts seven VUndefined [VNum 1]
              (start (fs c1.2)) in
  let c2 := session P0 [] capture_opts fetch_later VUndefined
              [VNum 42; the_callback] (start ∅) in
  let r2 := session P0 [] replay_opts fetch_later VUndefined
              [VNum 42; the_callback] (start (fs c2.2)) in
  c1.1 = Done (RetValue (Heap (VNum 7)))
  /\ r1.1 = Raised (Error (getNiceError fixture_of_one "[1]"))
  /\ c2.1 = Done (RetValue (Heap VUndefined))
  /\ trace c2.2
     = [EvOriginal VUndefined [VNum 42; VFun ProxyFn];
        EvWrite "/tmp/x/fetch-11e6a435235a.json"
          (fixture_text P0 [("callArgs", JStr "[42,null]");
                            ("callbackArgs", JStr "[null,7]")]);
        EvCallback the_callback [Heap VNull; Heap (VNum 7)]]
  /\ r2.1 = Raised JSON.syntax_error
  /\ queue r2.2 = [TaskCallback (Some (JStr "[null,7]"))].
Proof. vm_compute. by split_and!. Qed.

(** Where the round trip holds: a promise fulfilled with a number (here
    together with a callback). *)
Example capture_then_replay_of_promise :
  let c := session P0 objects capture_opts both VUndefined
             [VNum 1; the_callback] (start ∅) in
  let r := session P0 objects replay_opts both VUndefined
             [VNum 1; the_callback] (start (fs c.2)) in
  c.1 = Done RetPromise /\ r.1 = Done RetPromise
  /\ filter (fun ev => is_delivery ev = true) (trace c.2)
     = [EvCallback the_callback [Heap (VNum 3)];
        EvSettled (Resolved (Heap (VNum 8)))]
  /\ filter (fun ev => is_delivery ev = true) (trace r.2)
     = [EvCallback the_callback [Fresh (JNum 3)];
        EvSettled (Resolved (Fresh (JNum 8)))].
Proof. vm_compute. by split_and!. Qed.

(** ** Reading back what [JSON.stringify] prints *)

Lemma json_induction (Q : json -> Prop) :
  Q JNull -> (forall b, Q (JBool b)) -> (forall n, Q (JNum n)) ->
  (forall s, Q (JStr s)) ->
  (forall elems, Forall Q elems -> Q (JArr elems)) ->
  (forall members, Forall (fun kv => Q kv.2) members -> Q (JObj members)) ->
  forall j, Q j.
Proof.
  intros Hnull Hbool Hnum Hstr Harr Hobj.
  fix IH 1. intros [ |b|n|s|elems|members].
  - exact Hnull.
  - apply Hbool.
  - apply Hnum.
  - apply Hstr.
  - apply Harr. induction elems as [|x elems IHl]; constructor.
    + apply IH.
    + exact IHl.
  - apply Hobj. induction members as [|[k x] members IHl]; constructor.
    + apply IH.
    + exact IHl.
Qed.

Lemma chars_app (a b : string) : chars (a +:+ b) = chars a ++ chars b.
Proof.
  induction a as [|c a IH]; [done|].
  change (c :: chars (a +:+ b) = c :: (chars a ++ chars b)). by rewrite IH.
Qed.

Lemma chars_concat sep parts :
  chars (String.concat sep parts) = joined (chars sep) (chars <$> parts).
Proof.
  induction parts as [|p [|q parts] IH]; [done|done|].
  change (String.concat sep (p :: q :: parts))
    with (p +:+ sep +:+ String.concat sep (q :: parts)).
  rewrite !chars_app, IH. done.
Qed.

Lemma skip_ws_blank pre l : blank pre -> JSON.skip_ws (pre ++ l) = JSON.skip_ws l.
Proof.
  induction 1 as [|c pre Hc _ IH]; [done|]. simpl. by rewrite Hc.
Qed.

Lemma skip_ws_all pre : blank pre -> JSON.skip_ws pre = [].
Proof. induction 1 as [|c pre Hc _ IH]; [done|]. simpl. by rewrite Hc. Qed.

Lemma skip_ws_head c l : JSON.is_ws c = false -> JSON.skip_ws (c :: l) = c :: l.
Proof. intros H. simpl. by rewrite H. Qed.

(** *** Numbers *)

Lemma digit_char d :
  (d < 10)%N -> JSON.digit_val (pretty_N_char d) = Some (N.to_nat d).
Proof.
  intros Hd.
  assert (d = 0 \/ d = 1 \/ d = 2 \/ d = 3 \/ d = 4 \/ d = 5 \/ d = 6
          \/ d = 7 \/ d = 8 \/ d = 9)%N as H by lia.
  repeat (destruct H as [->|H]; [done|]). by subst.
Qed.

Lemma parse_digits_app ds rest acc :
  Forall (fun c => is_Some (JSON.digit_val c)) ds ->
  match rest with c :: _ => JSON.digit_val c = None | [] => True end ->
  JSON.parse_digits acc (ds ++ rest)
  = (fold_left (fun a c => (a * 10 + Z.of_nat (default 0%nat (JSON.digit_val c)))%Z)
       ds acc, rest).
Proof.
  intros Hds Hrest. revert acc.
  induction Hds as [|c ds [d Hc] _ IH]; intros acc; simpl.
  - destruct rest as [|c rest]; [done|]. simpl. by rewrite Hrest.
  - rewrite Hc. simpl. apply IH.
Qed.

Lemma pretty_go_digits x :
  forall s, exists ds,
    chars (pretty_N_go x s) = ds ++ chars s
    /\ Forall (fun c => is_Some (JSON.digit_val c)) ds
    /\ (forall acc,
          fold_left
            (fun a c => (a * 10 + Z.of_nat (default 0%nat (JSON.digit_val c)))%Z)
            ds acc
          = (acc * 10 ^ Z.of_nat (length ds) + Z.of_N x)%Z)
    /\ ((0 < x)%N ->
        exists c ds' d, ds = c :: ds' /\ JSON.digit_val c = Some (S d)).
Proof.
  induction (N.lt_wf_0 x) as [x _ IH]. intros s.
  destruct (decide (x = 0)%N) as [->|Hx].
  { exists []. rewrite pretty_N_go_0. split_and!; try done.
    intros acc. simpl. lia. }
  rewrite pretty_N_go_step by lia.
  assert (x `mod` 10 < 10)%N as Hmod by (apply N.mod_lt; lia).
  pose proof (digit_char _ Hmod) as Hc.
  destruct (IH (x `div` 10)%N) with
    (s := String (pretty_N_char (x `mod` 10)) s)
    as (ds & Hds & Hall & Hval & Hhead).
  { apply N.div_lt; lia. }
  exists (ds ++ [pretty_N_char (x `mod` 10)]). split_and!.
  - rewrite Hds, <- app_assoc. done.
  - apply Forall_app. split; [done|]. constructor; [|done]. by eexists.
  - intros acc. rewrite fold_left_app. simpl. rewrite Hval, Hc. simpl.
    rewrite length_app. simpl.
    replace (Z.of_nat (length ds + 1)) with (Z.of_nat (length ds) + 1)%Z
      by lia.
    rewrite Z.pow_add_r by lia.
    rewrite Z.pow_1_r, N_nat_Z.
    pose proof (N.div_mod x 10 ltac:(done)) as Hdm.
    apply (f_equal Z.of_N) in Hdm.
    rewrite N2Z.inj_add, N2Z.inj_mul in Hdm. rewrite Hdm.
    generalize (10 ^ Z.of_nat (length ds))%Z (Z.of_N (x `div` 10))
      (Z.of_N (x `mod` 10)).
    intros. change (Z.of_N 10) with 10%Z. ring.
  - intros _. destruct (N.eq_0_gt_0_cases (x `div` 10)) as [Hz|Hq].
    2: { destruct (Hhead Hq) as (c & ds' & d & -> & Hd).
         by exists c, (ds' ++ [pretty_N_char (x `mod` 10)]), d. }
    + assert (x < 10)%N as Hlt.
      { by apply (N.div_small_iff x 10). }
      rewrite Hz, pretty_N_go_0 in Hds.
      assert (ds = []) as ->.
      { apply (f_equal length) in Hds. rewrite length_app in Hds.
        simpl in Hds. destruct ds; [done|simpl in Hds; lia]. }
      rewrite N.mod_small in Hc |- * by done.
      exists (pretty_N_char x), [], (pred (N.to_nat x)).
      split; [done|]. rewrite Hc. f_equal. lia.
Qed.

(** What [closes] gives the reader of numbers. *)
Lemma closes_number rest :
  closes rest ->
  JSON.starts_fraction rest = false
  /\ match rest with c :: _ => JSON.digit_val c = None | [] => True end.
Proof.
  destruct rest as [|c rest]; [done|]. simpl.
  intros [H|[->|[->| ->]]]; [|done..].
  destruct c as [[] [] [] [] [] [] [] []]; done.
Qed.

Lemma parse_number_pretty n rest :
  closes rest ->
  JSON.parse_number (chars (pretty n) ++ rest) = JSON.Parsed (JNum n) rest.
Proof.
  intros Hrest. destruct (closes_number rest Hrest) as [Hfrac Hdig].
  assert (forall p neg,
            match chars (pretty (N.pos p)) ++ rest with
            | c :: r =>
              match JSON.digit_val c with
              | None => JSON.NoParse
              | Some 0 =>
                if JSON.starts_fraction r then JSON.Unsupported
                else JSON.Parsed (JNum 0) r
              | Some d =>
                let '(n, r') := JSON.parse_digits (Z.of_nat d) r in
                if JSON.starts_fraction r' then JSON.Unsupported
                else JSON.Parsed (JNum (if neg : bool then (- n)%Z else n)) r'
              end
            | [] => JSON.NoParse
            end
            = JSON.Parsed (JNum (if neg then Z.neg p else Z.pos p)) rest) as Hpos.
  { intros p neg.
    change (pretty (N.pos p)) with (pretty_N_go (N.pos p) EmptyString).
    destruct (pretty_go_digits (N.pos p) EmptyString) as (ds & Hds & Hall & Hval & Hhead).
    destruct Hhead as (c & ds' & d & -> & Hc); [lia|].
    rewrite Hds. simpl. rewrite app_nil_r, Hc.
    apply Forall_cons in Hall as [_ Hall].
    rewrite (parse_digits_app ds' rest _ Hall Hdig).
    rewrite Hfrac.
    specialize (Hval 0%Z). simpl in Hval. rewrite Hc in Hval. simpl in Hval.
    change (0 * 10 + Z.of_nat (S d))%Z with (Z.of_nat (S d)) in Hval.
    rewrite Hval. destruct neg; do 2 f_equal; lia. }
  unfold JSON.parse_number.
  destruct n as [|p|p].
  - change (chars (pretty 0%Z)) with ["0"%char]. simpl. by rewrite Hfrac.
  - change (pretty (Z.pos p)) with (pretty (N.pos p)).
    destruct (chars (pretty (N.pos p)) ++ rest) as [|c r] eqn:E.
    { specialize (Hpos p false). by rewrite E in Hpos. }
    assert (Ascii.eqb c "-" = false) as ->.
    { specialize (Hpos p false). rewrite E in Hpos.
      destruct (Ascii.eqb_spec c "-") as [->|]; done. }
    specialize (Hpos p false). by rewrite E in Hpos.
  - change (pretty (Z.neg p)) with ("-" +:+ pretty (N.pos p)).
    rewrite chars_app. simpl.
    specialize (Hpos p true). done.
Qed.

(** *** Strings *)

Lemma parse_quote_unit c l :
  JSON.parse_string_body (chars (JSON.quote_unit c) ++ l)
  = JSON.and_then (JSON.parse_string_body l)
      (fun s rest => JSON.Parsed (String c s) rest).
Proof. destruct c as [[] [] [] [] [] [] [] []]; reflexivity. Qed.

Lemma parse_quote_body s rest :
  JSON.parse_string_body (chars (JSON.quote_body s) ++ JSON.dquote :: rest)
  = JSON.Parsed s rest.
Proof.
  induction s as [|c s IH]; [done|].
  change (JSON.quote_body (String c s))
    with (JSON.quote_unit c +:+ JSON.quote_body s).
  rewrite chars_app, <- app_assoc, parse_quote_unit, IH. done.
Qed.

Lemma chars_quote s :
  chars (JSON.quote s)
  = JSON.dquote :: chars (JSON.quote_body s) ++ [JSON.dquote].
Proof.
  unfold JSON.quote.
  change (String JSON.dquote (JSON.quote_body s) +:+ JSON.str JSON.dquote)
    with (String JSON.dquote (JSON.quote_body s +:+ JSON.str JSON.dquote)).
  change (chars (String JSON.dquote ?x)) with (JSON.dquote :: chars x).
  by rewrite chars_app.
Qed.

(** *** Values *)

Lemma parse_value_S fuel l :
  JSON.parse_value (S fuel) l
  = match JSON.skip_ws l with
    | [] => JSON.NoParse
    | c :: r =>
      if Ascii.eqb c "{" then
        match JSON.skip_ws r with
        | c' :: r' =>
          if Ascii.eqb c' "}" then JSON.Parsed (JObj []) r'
          else JSON.and_then (JSON.parse_members fuel r)
                 (fun ms rest => JSON.Parsed (JObj ms) rest)
        | [] => JSON.NoParse
        end
      else if Ascii.eqb c "[" then
        match JSON.skip_ws r with
        | c' :: r' =>
          if Ascii.eqb c' "]" then JSON.Parsed (JArr []) r'
          else JSON.and_then (JSON.parse_elements fuel r)
                 (fun xs rest => JSON.Parsed (JArr xs) rest)
        | [] => JSON.NoParse
        end
      else if Ascii.eqb c JSON.dquote then
        JSON.and_then (JSON.parse_string_body r)
          (fun s rest => JSON.Parsed (JStr s) rest)
      else if Ascii.eqb c "t" then
        JSON.literal "true" (JBool true) (c :: r)
      else if Ascii.eqb c "f" then
        JSON.literal "false" (JBool false) (c :: r)
      else if Ascii.eqb c "n" then JSON.literal "null" JNull (c :: r)
      else JSON.parse_number (c :: r)
    end.
Proof. reflexivity. Qed.

Lemma parse_elements_S fuel l :
  JSON.parse_elements (S fuel) l
  = JSON.and_then (JSON.parse_value fuel l) (fun x r =>
      match JSON.skip_ws r with
      | c :: r' =>
        if Ascii.eqb c "," then
          JSON.and_then (JSON.parse_elements fuel r')
            (fun xs rest => JSON.Parsed (x :: xs) rest)
        else if Ascii.eqb c "]" then JSON.Parsed [x] r'
        else JSON.NoParse
      | [] => JSON.NoParse
      end).
Proof. reflexivity. Qed.

Lemma parse_members_S fuel l :
  JSON.parse_members (S fuel) l
  = match JSON.skip_ws l with
    | q :: r =>
      if Ascii.eqb q JSON.dquote then
        JSON.and_then (JSON.parse_string_body r) (fun k r1 =>
          match JSON.skip_ws r1 with
          | colon :: r2 =>
            if Ascii.eqb colon ":" then
              JSON.and_then (JSON.parse_value fuel r2) (fun x r3 =>
                match JSON.skip_ws r3 with
                | c :: r4 =>
                  if Ascii.eqb c "," then
                    JSON.and_then (JSON.parse_members fuel r4)
                      (fun ms rest => JSON.Parsed ((k, x) :: ms) rest)
                  else if Ascii.eqb c "}" then JSON.Parsed [(k, x)] r4
                  else JSON.NoParse
                | [] => JSON.NoParse
                end)
            else JSON.NoParse
          | [] => JSON.NoParse
          end)
      else JSON.NoParse
    | [] => JSON.NoParse
    end.
Proof. reflexivity. Qed.

(** The first character of a number. *)
Lemma number_head (n : Z) :
  exists c tl, chars (pretty n) = c :: tl
               /\ (is_Some (JSON.digit_val c) \/ c = "-"%char).
Proof.
  destruct n as [|p|p].
  - exists "0"%char, []. split; [done|]. left. by eexists.
  - change (pretty (Z.pos p)) with (pretty_N_go (N.pos p) EmptyString).
    destruct (pretty_go_digits (N.pos p) EmptyString) as (ds & Hds & _ & _ & Hhead).
    destruct Hhead as (c & ds' & d & -> & Hc); [lia|].
    exists c, (ds' ++ chars EmptyString). split; [done|]. left. by eexists.
  - change (pretty (Z.neg p)) with ("-" +:+ pretty (N.pos p)).
    rewrite chars_app. exists "-"%char, (chars (pretty (N.pos p))). auto.
Qed.

Lemma number_head_dispatch c :
  is_Some (JSON.digit_val c) \/ c = "-"%char ->
  JSON.is_ws c = false /\ Ascii.eqb c "{" = false /\ Ascii.eqb c "[" = false
  /\ Ascii.eqb c JSON.dquote = false /\ Ascii.eqb c "t" = false
  /\ Ascii.eqb c "f" = false /\ Ascii.eqb c "n" = false
  /\ Ascii.eqb c "]" = false /\ Ascii.eqb c "}" = false.
Proof.
  intros [[d Hd]| ->]; [|done].
  destruct c as [[] [] [] [] [] [] [] []]; done.
Qed.

(** The first character of a printed value: not white space, and no
    closing bracket. *)
Lemma render_head gap ind j :
  exists c tl, chars (JSON.render gap ind j) = c :: tl
               /\ JSON.is_ws c = false
               /\ Ascii.eqb c "]" = false /\ Ascii.eqb c "}" = false.
Proof.
  destruct j as [ |[]|n|s|elems|members]; cbn [JSON.render].
  1-3: by eexists _, _.
  - destruct (number_head n) as (c & tl & -> & Hc).
    destruct (number_head_dispatch c Hc) as (? & _ & _ & _ & _ & _ & _ & ? & ?).
    by exists c, tl.
  - rewrite chars_quote. by eexists _, _.
  - unfold JSON.bracket. destruct (map _ elems); [by eexists _, _|].
    destruct (JSON.is_empty gap); rewrite chars_app; by eexists _, _.
  - unfold JSON.bracket. destruct (map _ members); [by eexists _, _|].
    destruct (JSON.is_empty gap); rewrite chars_app; by eexists _, _.
Qed.

Lemma render_nonempty gap ind j :
  JSON.is_empty (JSON.render gap ind j) = false.
Proof.
  destruct (render_head gap ind j) as (c & tl & Hc & _).
  by destruct (JSON.render gap ind j).
Qed.

Lemma blank_app a b : blank a -> blank b -> blank (a ++ b).
Proof. apply Forall_app_2. Qed.

(** The characters of a printed array or object. *)
Lemma chars_bracket open close gap stepback parts :
  parts <> [] ->
  blank (chars gap) -> blank (chars stepback) ->
  exists pre post,
    blank pre /\ blank post
    /\ chars (JSON.bracket open close gap stepback parts)
       = chars open ++ pre ++ joined ("," :: pre)%char (chars <$> parts)
           ++ post ++ chars close.
Proof.
  intros Hne Hgap Hstep. unfold JSON.bracket.
  destruct parts as [|p parts]; [done|].
  destruct (JSON.is_empty gap) eqn:Hg.
  - exists [], []. split_and!; [constructor..|].
    rewrite !chars_app, chars_concat. done.
  - exists (JSON.newline :: chars (stepback +:+ gap)),
           (JSON.newline :: chars stepback).
    split_and!.
    + constructor; [done|]. rewrite chars_app. by apply blank_app.
    + by constructor.
    + rewrite !chars_app, chars_concat, !chars_app. simpl.
      rewrite <- !app_assoc. done.
Qed.

Lemma joined_cons sep p q ps :
  joined sep (p :: q :: ps) = p ++ sep ++ joined sep (q :: ps).
Proof. done. Qed.

(** The property of one value: what is printed for it is read back. *)
Lemma parse_leaf_null fuel pre rest :
  blank pre ->
  JSON.parse_value (S fuel) (pre ++ chars "null" ++ rest)
  = JSON.Parsed JNull rest.
Proof.
  intros Hpre. rewrite parse_value_S, skip_ws_blank by done. done.
Qed.

Lemma parse_leaf_bool fuel pre rest gap ind b :
  blank pre ->
  JSON.parse_value (S fuel)
    (pre ++ chars (JSON.render gap ind (JBool b)) ++ rest)
  = JSON.Parsed (JBool b) rest.
Proof.
  intros Hpre. rewrite parse_value_S, skip_ws_blank by done.
  by destruct b.
Qed.

Lemma parse_leaf_num fuel pre rest (n : Z) :
  blank pre -> closes rest ->
  JSON.parse_value (S fuel) (pre ++ chars (pretty n) ++ rest)
  = JSON.Parsed (JNum n) rest.
Proof.
  intros Hpre Hrest. rewrite parse_value_S, skip_ws_blank by done.
  rewrite <- (parse_number_pretty n rest Hrest).
  destruct (number_head n) as (c & tl & -> & Hc).
  destruct (number_head_dispatch c Hc)
    as (Hws & H1 & H2 & H3 & H4 & H5 & H6 & _).
  simpl. by rewrite Hws, H1, H2, H3, H4, H5, H6.
Qed.

Lemma parse_leaf_str fuel pre rest s :
  blank pre ->
  JSON.parse_value (S fuel) (pre ++ chars (JSON.quote s) ++ rest)
  = JSON.Parsed (JStr s) rest.
Proof.
  intros Hpre. rewrite parse_value_S, skip_ws_blank by done.
  rewrite chars_quote. simpl. rewrite <- app_assoc. simpl.
  by rewrite parse_quote_body.
Qed.

Lemma closes_blank post c rest :
  blank post ->
  c = ","%char \/ c = "]"%char \/ c = "}"%char ->
  closes (post ++ c :: rest).
Proof. intros Hpost Hc. destruct Hpost; simpl; auto. Qed.

Lemma skip_to post c rest :
  blank post -> JSON.is_ws c = false ->
  JSON.skip_ws (post ++ c :: rest) = c :: rest.
Proof. intros Hp Hc. by rewrite skip_ws_blank, skip_ws_head. Qed.

(** The elements of a printed array. *)
Lemma parse_elements_rendered gap ind xs :
  Forall (fun x => forall fuel pre rest gap ind,
            jsize x <= fuel -> blank pre ->
            blank (chars gap) -> blank (chars ind) -> closes rest ->
            JSON.parse_value fuel (pre ++ chars (JSON.render gap ind x) ++ rest)
            = JSON.Parsed x rest) xs ->
  xs <> [] ->
  forall fuel pre post rest,
    list_sum (map (fun x => S (jsize x)) xs) <= fuel ->
    blank pre -> blank post -> blank (chars gap) -> blank (chars ind) ->
    JSON.parse_elements fuel
      (pre ++ joined ("," :: pre)%char
                (chars <$> map (fun x => JSON.render gap ind x) xs)
           ++ post ++ "]"%char :: rest)
    = JSON.Parsed xs rest.
Proof.
  induction 1 as [|x xs Hx Hxs IH]; [done|]. intros _.
  intros fuel pre post rest Hfuel Hpre Hpost Hgap Hind.
  simpl in Hfuel. destruct fuel as [|fuel]; [lia|].
  rewrite parse_elements_S.
  destruct xs as [|y ys].
  - cbn [map fmap list_fmap joined].
    rewrite Hx; [|lia|done|done|done|by apply closes_blank; auto].
    simpl. rewrite skip_to by done. done.
  - cbn [map fmap list_fmap]. rewrite joined_cons.
    rewrite <- !app_assoc. simpl.
    rewrite Hx; [|simpl in *; lia|done|done|done|simpl; auto].
    simpl.
    rewrite app_assoc.
    change (JSON.render gap ind y :: map (fun x => JSON.render gap ind x) ys)
      with (map (fun x => JSON.render gap ind x) (y :: ys)).
    rewrite <- app_assoc.
    rewrite IH; [done|done|simpl in *; lia|done..].
Qed.

(** The members of a printed object. *)
Lemma parse_members_rendered gap ind (ms : list (string * json)) :
  Forall (fun kv => forall fuel pre rest gap ind,
            jsize kv.2 <= fuel -> blank pre ->
            blank (chars gap) -> blank (chars ind) -> closes rest ->
            JSON.parse_value fuel
              (pre ++ chars (JSON.render gap ind kv.2) ++ rest)
            = JSON.Parsed kv.2 rest) ms ->
  ms <> [] ->
  forall fuel pre post rest,
    list_sum (map (fun kv => S (jsize kv.2)) ms) <= fuel ->
    blank pre -> blank post -> blank (chars gap) -> blank (chars ind) ->
    JSON.parse_members fuel
      (pre ++ joined ("," :: pre)%char
                (chars <$> map (fun kv : string * json =>
                                  JSON.quote kv.1 +:+ ":"
                                    +:+ (if JSON.is_empty gap
                                         then EmptyString else " ")
                                    +:+ JSON.render gap ind kv.2) ms)
           ++ post ++ "}"%char :: rest)
    = JSON.Parsed ms rest.
Proof.
  induction 1 as [|[k x] ms Hx Hms IH]; [done|]. intros _.
  intros fuel pre post rest Hfuel Hpre Hpost Hgap Hind.
  simpl in Hfuel, Hx. destruct fuel as [|fuel]; [lia|].
  rewrite parse_members_S.
  assert (blank (chars (if JSON.is_empty gap then EmptyString else " ")))
    as Hsp by (destruct (JSON.is_empty gap); repeat constructor).
  assert (forall REST,
            chars (JSON.quote k +:+ ":"
                     +:+ (if JSON.is_empty gap then EmptyString else " ")
                     +:+ JSON.render gap ind x) ++ REST
            = JSON.dquote :: chars (JSON.quote_body k)
                ++ JSON.dquote :: ":"%char
                   :: chars (if JSON.is_empty gap then EmptyString else " ")
                   ++ chars (JSON.render gap ind x) ++ REST) as Hpart.
  { intros REST. rewrite !chars_app, chars_quote. simpl.
    rewrite <- !app_assoc. simpl. by rewrite <- !app_assoc. }
  destruct ms as [|[k' y] ys].
  - cbn [map fmap list_fmap joined fst snd].
    rewrite Hpart, skip_to by done.
    change (Ascii.eqb JSON.dquote JSON.dquote) with true. cbv iota.
    rewrite parse_quote_body. simpl.
    rewrite Hx; [|lia|done|done|done|by apply closes_blank; auto].
    simpl. rewrite skip_to by done. done.
  - cbn [map fmap list_fmap fst snd]. rewrite joined_cons.
    rewrite <- !app_assoc. rewrite Hpart, skip_to by done.
    change (Ascii.eqb JSON.dquote JSON.dquote) with true. cbv iota.
    rewrite parse_quote_body. simpl.
    rewrite Hx; [|simpl in *; lia|done|done|done|simpl; auto].
    simpl.
    change ((JSON.quote k' +:+ ":"
               +:+ (if JSON.is_empty gap then EmptyString else " ")
               +:+ JSON.render gap ind y)
            :: map (fun kv : string * json =>
                      JSON.quote kv.1 +:+ ":"
                        +:+ (if JSON.is_empty gap then EmptyString else " ")
                        +:+ JSON.render gap ind kv.2) ys)
      with (map (fun kv : string * json =>
                   JSON.quote kv.1 +:+ ":"
                     +:+ (if JSON.is_empty gap then EmptyString else " ")
                     +:+ JSON.render gap ind kv.2) ((k', y) :: ys)).
    rewrite IH; [done|done|simpl in *; lia|done..].
Qed.

Lemma joined_length sep parts :
  list_sum (length <$> parts) <= length (joined sep parts).
Proof.
  induction parts as [|p [|q parts] IH]; simpl in *; [lia|lia|].
  rewrite !length_app. lia.
Qed.

Lemma chars_bracket_length open close gap stepback parts :
  parts <> [] ->
  length (chars open) + length (chars close)
    + list_sum (length <$> (chars <$> parts))
  <= length (chars (JSON.bracket open close gap stepback parts)).
Proof.
  intros Hne. unfold JSON.bracket. destruct parts as [|p parts]; [done|].
  pose proof (joined_length (chars ",") (chars <$> p :: parts)).
  pose proof (joined_length
                (chars ("," +:+ JSON.str JSON.newline +:+ (stepback +:+ gap)))
                (chars <$> p :: parts)).
  destruct (JSON.is_empty gap);
    rewrite !chars_app, !length_app, chars_concat, ?length_app; lia.
Qed.

Lemma joined_head sep c tl (ps : list string) p :
  chars p = c :: tl ->
  exists tl', joined sep (chars <$> p :: ps) = c :: tl'.
Proof.
  intros Hp. destruct ps as [|q ps]; simpl; rewrite Hp; by eexists.
Qed.

(** A printed value is read back, whatever white space precedes it. *)
Lemma parse_rendered_value j :
  forall fuel pre rest gap ind,
    jsize j <= fuel -> blank pre ->
    blank (chars gap) -> blank (chars ind) -> closes rest ->
    JSON.parse_value fuel (pre ++ chars (JSON.render gap ind j) ++ rest)
    = JSON.Parsed j rest.
Proof.
  induction j as [ |b|n|s|elems IH|members IH] using json_induction;
    intros fuel pre rest gap ind Hfuel Hpre Hgap Hind Hrest;
    (destruct fuel as [|fuel]; [simpl in Hfuel; lia|]).
  - by apply parse_leaf_null.
  - by apply parse_leaf_bool.
  - by apply parse_leaf_num.
  - by apply parse_leaf_str.
  - rewrite parse_value_S, skip_ws_blank by done.
    cbn [JSON.render].
    destruct elems as [|x elems]; [done|].
    assert (blank (chars (ind +:+ gap))) as Hind'
      by (rewrite chars_app; by apply blank_app).
    destruct (chars_bracket "[" "]" gap ind
                (map (fun x => JSON.render gap (ind +:+ gap) x) (x :: elems)))
      as (pre1 & post & Hpre1 & Hpost & ->); [done..|].
    destruct (render_head gap (ind +:+ gap) x) as (c & tl & Hc & Hws & Hn & _).
    destruct (joined_head ("," :: pre1)%char c tl
                (map (fun x => JSON.render gap (ind +:+ gap) x) elems) _ Hc)
      as (tl' & Hj).
    change (chars "[") with ["["%char]. change (chars "]") with ["]"%char].
    rewrite <- !app_assoc. simpl.
    rewrite skip_ws_blank by done.
    change (JSON.render gap (ind +:+ gap) x
            :: map (fun x => JSON.render gap (ind +:+ gap) x) elems)
      with (map (fun x => JSON.render gap (ind +:+ gap) x) (x :: elems)) in Hj.
    rewrite Hj at 1. simpl. rewrite Hws, Hn.
    rewrite (parse_elements_rendered gap (ind +:+ gap) (x :: elems));
      [done|done|done|simpl in *; lia|done..].
  - rewrite parse_value_S, skip_ws_blank by done.
    cbn [JSON.render].
    destruct members as [|[k x] members]; [done|].
    assert (blank (chars (ind +:+ gap))) as Hind'
      by (rewrite chars_app; by apply blank_app).
    destruct (chars_bracket "{" "}" gap ind
                (map (fun kv : string * json =>
                        JSON.quote kv.1 +:+ ":"
                          +:+ (if JSON.is_empty gap then EmptyString else " ")
                          +:+ JSON.render gap (ind +:+ gap) kv.2)
                   ((k, x) :: members)))
      as (pre1 & post & Hpre1 & Hpost & ->); [done..|].
    change (chars "{") with ["{"%char]. change (chars "}") with ["}"%char].
    rewrite <- !app_assoc. simpl.
    rewrite skip_ws_blank by done.
    assert (exists tl',
              joined ("," :: pre1)%char
                (chars <$> map (fun kv : string * json =>
                                  JSON.quote kv.1 +:+ ":"
                                    +:+ (if JSON.is_empty gap
                                         then EmptyString else " ")
                                    +:+ JSON.render gap (ind +:+ gap) kv.2)
                             ((k, x) :: members))
              = JSON.dquote :: tl') as (tl' & Hj).
    { eapply joined_head. rewrite chars_app, chars_quote. done. }
    rewrite Hj at 1. simpl.
    rewrite (parse_members_rendered gap (ind +:+ gap) ((k, x) :: members));
      [done|done|done|simpl in *; lia|done..].
Qed.

Lemma sum_lengths_bound {A} (size : A -> nat) (text : A -> string) l :
  Forall (fun x => size x < 2 * length (chars (text x))) l ->
  list_sum (map (fun x => S (size x)) l)
  <= 2 * list_sum (length <$> (chars <$> map text l)).
Proof.
  intros Hall.
  assert (length <$> (chars <$> map text l)
          = map (fun x => length (chars (text x))) l) as ->.
  { clear Hall. induction l as [|x l IH]; [done|]. simpl. by f_equal. }
  induction Hall as [|x l Hx _ IH]; [done|]. simpl in *. lia.
Qed.

(** The bound the reader gives itself suffices. *)
Lemma jsize_render gap ind j :
  jsize j < 2 * length (chars (JSON.render gap ind j)).
Proof.
  revert ind.
  induction j as [ |b|n|s|elems IH|members IH] using json_induction;
    intros ind.
  - simpl. lia.
  - destruct b; simpl; lia.
  - destruct (number_head n) as (c & tl & Hc & _). cbn [JSON.render jsize].
    rewrite Hc. simpl. lia.
  - cbn [JSON.render jsize]. rewrite chars_quote. simpl. lia.
  - cbn [JSON.render jsize].
    destruct elems as [|x elems]; [simpl; lia|].
    pose proof (chars_bracket_length "[" "]" gap ind
                  (map (fun x => JSON.render gap (ind +:+ gap) x)
                     (x :: elems)) ltac:(done)) as Hlen.
    revert Hlen. generalize (length (chars (JSON.bracket "[" "]" gap ind
      (map (fun x => JSON.render gap (ind +:+ gap) x) (x :: elems))))).
    intros len Hlen.
    assert (list_sum (map (fun x => S (jsize x)) (x :: elems))
            <= 2 * list_sum (length <$> (chars <$>
                 map (fun x => JSON.render gap (ind +:+ gap) x) (x :: elems))))
      as Hsum.
    { apply sum_lengths_bound. eapply Forall_impl; [exact IH|].
      intros y Hy. apply Hy. }
    simpl in *. lia.
  - cbn [JSON.render jsize].
    destruct members as [|[k x] members]; [simpl; lia|].
    pose proof (chars_bracket_length "{" "}" gap ind
                  (map (fun kv : string * json =>
                          JSON.quote kv.1 +:+ ":"
                            +:+ (if JSON.is_empty gap
                                 then EmptyString else " ")
                            +:+ JSON.render gap (ind +:+ gap) kv.2)
                     ((k, x) :: members)) ltac:(done)) as Hlen.
    revert Hlen. generalize (length (chars (JSON.bracket "{" "}" gap ind
      (map (fun kv : string * json =>
              JSON.quote kv.1 +:+ ":"
                +:+ (if JSON.is_empty gap then EmptyString else " ")
                +:+ JSON.render gap (ind +:+ gap) kv.2)
         ((k, x) :: members))))).
    intros len Hlen.
    assert (list_sum (map (fun kv => S (jsize kv.2)) ((k, x) :: members))
            <= 2 * list_sum (length <$> (chars <$>
                 map (fun kv : string * json =>
                        JSON.quote kv.1 +:+ ":"
                          +:+ (if JSON.is_empty gap then EmptyString else " ")
                          +:+ JSON.render gap (ind +:+ gap) kv.2)
                   ((k, x) :: members))))
      as Hsum.
    { apply sum_lengths_bound. eapply Forall_impl; [exact IH|].
      intros [k' y] Hy. cbn [fst snd] in *.
      specialize (Hy (ind +:+ gap)). rewrite !chars_app, !length_app.
      lia. }
    simpl in *. lia.
Qed.

(** [JSON.parse] reads back what [JSON.stringify] has printed, with any
    white indentation and any white space after it. *)
Lemma parse_text_rendered text gap j trail :
  chars text = chars (JSON.render gap EmptyString j) ++ trail ->
  blank (chars gap) -> blank trail ->
  JSON.parse_text text = Done j.
Proof.
  intros Htext Hgap Htrail. unfold JSON.parse_text. rewrite Htext.
  rewrite (parse_rendered_value j _ [] trail gap EmptyString);
    [|rewrite length_app; pose proof (jsize_render gap EmptyString j); lia
     |constructor|done|constructor|by destruct Htrail; simpl; auto].
  by rewrite skip_ws_all.
Qed.

Lemma parse_rendered_string gap j :
  blank (chars gap) ->
  JSON.parse (Some (JStr (JSON.render gap EmptyString j))) = Done j.
Proof.
  intros Hgap. apply (parse_text_rendered _ gap j []); [|done|constructor].
  by rewrite app_nil_r.
Qed.

(** * Further properties *)

(** ** The safe serializer on values without a JSON form *)

(** X1.  [stringifySafe] returns [undefined] instead of a string exactly for
    [undefined] and for a function; it returns a string for every other
    value of a closed heap. *)
Theorem stringifySafe_is_undefined_iff (h : heap) (v : value)
  (spaces : option string) :
  heap_closed h ->
  value_closed h v ->
  stringifySafe h v None spaces None = Done None
  <-> v = VUndefined \/ is_function v = true.
Proof.
  intros Hh Hv.
  destruct (stringifySafe_spec h Hh v spaces Hv) as (r & -> & Hr).
  split.
  - intros [= Hnone]. destruct r as [j|]; [done|].
    inversion Hr; subst; auto.
  - intros [-> | Hf].
    + by inversion Hr.
    + destruct v; try done. by inversion Hr.
Qed.

(** ** The default substitution of the callback  (lines 73-77) *)

(** X2.  On a non-empty argument list the default [callbackSwap] puts the
    new callback in the last place, leaves the length and every other
    argument as they were and returns the argument it took out; swapping
    that argument back in restores the list. *)
Theorem defaultCallbackSwap_round_trip (args : list value)
  (newCallback : value) :
  args <> [] ->
  let '(args', origCallback) := defaultCallbackSwap args newCallback in
  length args' = length args
  /\ last args' = Some newCallback
  /\ last args = Some origCallback
  /\ (forall i, i <> length args - 1 -> args' !! i = args !! i)
  /\ defaultCallbackSwap args' origCallback = (args, newCallback).
Proof.
  intros Hne.
  destruct (exists_last Hne) as (front & x & ->).
  assert (defaultCallbackSwap (front ++ [x]) newCallback
          = (front ++ [newCallback], x)) as ->.
  { unfold defaultCallbackSwap.
    destruct (front ++ [x]) eqn:E; [by destruct front|]. rewrite <- E.
    rewrite last_snoc, length_app. simpl.
    replace (length front + 1 - 1) with (length front + 0) by lia.
    by rewrite insert_app_r. }
  split_and!.
  - by rewrite !length_app.
  - by rewrite last_snoc.
  - by rewrite last_snoc.
  - intros i Hi. rewrite length_app in Hi. simpl in Hi.
    destruct (decide (i < length front)).
    + by rewrite !lookup_app_l.
    + rewrite !lookup_ge_None_2; [done| |]; rewrite length_app; simpl; lia.
  - unfold defaultCallbackSwap.
    destruct (front ++ [newCallback]) eqn:E; [by destruct front|].
    rewrite <- E. rewrite last_snoc, length_app. simpl.
    replace (length front + 1 - 1) with (length front + 0) by lia.
    by rewrite insert_app_r.
Qed.

(** ** The mode of a wrapper  (line 72) *)

Lemma modes_spec key m :
  modes key = Some m <-> key = m /\ (m = "live" \/ m = "capture" \/ m = "replay").
Proof.
  unfold modes. repeat case_bool_decide; subst; split.
  all: try (intros [= <-]; by auto).
  all: try (intros [-> _]; done).
  all: try done.
  intros [-> [?|[?|?]]]; done.
Qed.

(** X3.  A wrapper is live (or captures) exactly when the option [mode]
    says so, or when that option is absent or empty and [TEST_MODE] says
    so. *)
Theorem mode_is_live_or_capture_iff (P : platform) (method : string)
  (arg : optionsArg) (m : string) :
  m = "live" \/ m = "capture" ->
  mode (resolve_options P method arg) = Some m
  <-> field arg_mode arg = Some m
      \/ ((field arg_mode arg = None \/ field arg_mode arg = Some EmptyString)
          /\ TEST_MODE P = Some m).
Proof.
  intros Hm.
  assert (m <> EmptyString /\ m <> "replay") as [Hne Hnr]
    by (destruct Hm as [-> | ->]; done).
  assert (modes (or_else (TEST_MODE P) "replay") = Some m
          <-> TEST_MODE P = Some m) as Henv.
  { rewrite modes_spec. unfold or_else.
    destruct (TEST_MODE P) as [t|]; [destruct t as [|c t]|]; simpl.
    - split; [intros [<- _]; done|intros [= <-]; done].
    - split; [by intros [<- _]|]. intros [= <-]. tauto.
    - split; [intros [<- _]; done|done]. }
  change (mode (resolve_options P method arg))
    with (match field arg_mode arg with
          | Some x => if JSON.is_empty x
                      then modes (or_else (TEST_MODE P) "replay")
                      else Some x
          | None => modes (or_else (TEST_MODE P) "replay")
          end).
  destruct (field arg_mode arg) as [x|]; [destruct x as [|c x]|]; simpl.
  - rewrite Henv. split; [auto|]. intros [[= ?]|[_ ?]]; done.
  - split; [auto|]. intros [?|[[?|?] _]]; done.
  - rewrite Henv. split; [auto|]. intros [?|[_ ?]]; done.
Qed.

(** ** Replay, step by step *)

(** Lines 92-118: in capture and in replay mode a call first serializes
    its arguments, names the fixture and substitutes the callback. *)
Lemma wrapper_prepares P h opts originalFn self args s argStr :
  mode opts <> Some "live" ->
  argumentSerializer opts (h ++ [OArr args]) (VRef (length h))
  = Done (Some argStr) ->
  let base :=
    set_wrappedCallData [("callArgs", VStr argStr)]
      (set_filepath (filepath_of P opts argStr) s) in
  let swapped := callbackSwap opts args (VFun ProxyFn) in
  let has_callback := is_function (default VUndefined (last args)) in
  let args' := if has_callback then swapped.1 else args in
  let s1 :=
    if has_callback
    then set_origCallback swapped.2 (set_proxy_built true base)
    else base in
  wrapper P h opts originalFn self args s
  = if bool_decide (mode opts = Some "capture")
    then capture P h opts originalFn self args' s1
    else replay argStr s1.
Proof.
  intros Hl Hser. unfold wrapper.
  rewrite bool_decide_eq_false_2 by done.
  unfold bind at 1. unfold serialize_list, lift. rewrite Hser.
  unfold bind at 1 2. unfold modify at 1 2. cbn [fst snd].
  destruct (is_function (default VUndefined (last args))).
  - destruct (callbackSwap opts args (VFun ProxyFn)) as [args' orig].
    unfold bind, modify, ret. cbn [fst snd].
    by destruct (bool_decide (mode opts = Some "capture")).
  - unfold bind, ret. cbn [fst snd].
    by destruct (bool_decide (mode opts = Some "capture")).
Qed.

(** Lines 150-179 on a fixture that holds a JSON object. *)
Lemma replay_object argStr s content members :
  fs s !! filepath s = Some (File content) ->
  JSON.parse_text content = Done (JObj members) ->
  let s0 := set_trace (trace s ++ [EvRead (filepath s)]) s in
  let callbackArgs := JSON.last_binding "callbackArgs" members in
  let s1 :=
    if JSON.truthy callbackArgs
    then set_queue (queue s0 ++ [TaskCallback callbackArgs]) s0
    else s0 in
  replay argStr s
  = if JSON.truthy (JSON.last_binding "returnedPromise" members)
    then (Done RetPromise,
          set_queue (queue s1 ++ [TaskSettle (JObj members)]) s1)
    else match JSON.parse (JSON.last_binding "returnValue" members) with
         | Done j => (Done (RetValue (Fresh j)), s1)
         | Raised e => (Raised e, s1)
         | Stuck => (Stuck, s1)
         end.
Proof.
  intros Hf Hp.
  unfold replay, bind, get_state, try_catch, readFileSync, bind, log,
    modify, get_state, throw, lift, ret. simpl. rewrite Hf. simpl.
  rewrite Hp. simpl.
  destruct (JSON.truthy (JSON.last_binding "callbackArgs" members));
    destruct (JSON.truthy (JSON.last_binding "returnedPromise" members));
    simpl; try done.
  all: by destruct (JSON.parse (JSON.last_binding "returnValue" members)).
Qed.

(** Lines 150-160 on a fixture that does not hold JSON. *)
Lemma replay_unparsed argStr s content e :
  fs s !! filepath s = Some (File content) ->
  JSON.parse_text content = Raised e ->
  replay argStr s
  = (Raised e, set_trace (trace s ++ [EvRead (filepath s)]) s).
Proof.
  intros Hf Hp.
  unfold replay, bind, get_state, try_catch, readFileSync, bind, log,
    modify, get_state, throw, lift, ret. simpl. rewrite Hf. simpl.
  by rewrite Hp.
Qed.

(** The turns that follow a call of a replaying wrapper: the [nextTick]
    queue alone, since the real method has left nothing to do. *)
Lemma later_of_replay P h opts s :
  pending s = [] ->
  later P h opts s
  = match for_each run_task (queue s) (set_queue [] s) with
    | (Done _, s') => (Done tt, set_pending [] s')
    | other => other
    end.
Proof.
  intros Hp. rewrite later_unfold.
  destruct (run_tasks_effects (queue s) (set_queue [] s)) as (_ & Hpe & _).
  destruct (for_each run_task (queue s) (set_queue [] s)) as [[[]| |] s'];
    try done.
  simpl in Hpe. by rewrite Hpe, Hp.
Qed.

(** X4.  In replay mode a fixture that does not parse as JSON makes the
    call throw the [SyntaxError] of [JSON.parse]: the file has been read,
    nothing is handed to [nextTick], and no callback will ever run. *)
Theorem replay_of_unparsable_fixture_throws
  (P : platform) (h : heap) (opts : options) (originalFn : method)
  (self : value) (arguments : list value) (files : gmap string node)
  (argStr content : string) (e : exn) :
  mode opts <> Some "live" ->
  mode opts <> Some "capture" ->
  argumentSerializer opts (h ++ [OArr arguments]) (VRef (length h))
  = Done (Some argStr) ->
  files !! filepath_of P opts argStr = Some (File content) ->
  JSON.parse_text content = Raised e ->
  let w := wrapper P h opts originalFn self arguments (start files) in
  w.1 = Raised e
  /\ trace w.2 = [EvRead (filepath_of P opts argStr)]
  /\ queue w.2 = []
  /\ session P h opts originalFn self arguments (start files) = w.
Proof.
  intros Hl Hc Hser Hf Hp w.
  assert (w = (Raised e,
               set_trace [EvRead (filepath_of P opts argStr)]
                 (if is_function (default VUndefined (last arguments))
                  then set_origCallback
                         (callbackSwap opts arguments (VFun ProxyFn)).2
                         (set_proxy_built true
                            (set_wrappedCallData [("callArgs", VStr argStr)]
                               (set_filepath (filepath_of P opts argStr)
                                  (start files))))
                  else set_wrappedCallData [("callArgs", VStr argStr)]
                         (set_filepath (filepath_of P opts argStr)
                            (start files))))) as Hw.
  { subst w. rewrite (wrapper_prepares P h opts originalFn self arguments
                        (start files) argStr Hl Hser).
    rewrite bool_decide_eq_false_2 by done.
    destruct (is_function (default VUndefined (last arguments)));
      by rewrite (replay_unparsed argStr _ content e). }
  split_and!.
  - by rewrite Hw.
  - rewrite Hw. by destruct (is_function _).
  - rewrite Hw. by destruct (is_function _).
  - rewrite session_unfold. fold w. by rewrite Hw.
Qed.

(** Lines 162-164, when the task runs. *)
Lemma run_callback callbackArgs xs f s :
  origCallback s = VFun (UserFn f) ->
  JSON.parse callbackArgs = Done (JArr xs) ->
  run_task (TaskCallback callbackArgs) s
  = (Done tt,
     set_trace (trace s ++ [EvCallback (VFun (UserFn f)) (Fresh <$> xs)]) s).
Proof.
  intros Ho Hp.
  unfold run_task, bind, get_state, lift, call_callback, log, modify.
  cbn [fst snd]. by rewrite Ho, Hp.
Qed.

Lemma run_callback_without_callback callbackArgs s :
  origCallback s = VUndefined ->
  run_task (TaskCallback callbackArgs) s
  = (Raised (TypeError "Cannot read properties of undefined"), s).
Proof.
  intros Ho. unfold run_task, bind, get_state. cbn [fst snd].
  by rewrite Ho.
Qed.

(** Lines 168-176, when the task runs. *)
Lemma run_settle_resolved members xs s :
  let resolution := JSON.last_binding "promiseResolutionArgs" members in
  JSON.truthy resolution = true ->
  JSON.parse resolution = Done (JArr xs) ->
  run_task (TaskSettle (JObj members)) s
  = (Done tt,
     set_trace (trace s ++ [EvSettled (Resolved (first_argument xs))]) s).
Proof.
  intros resolution Ht Hp.
  unfold run_task, bind, get_state, lift, log, modify. cbn [fst snd JSON.get].
  fold resolution. by rewrite Ht, Hp.
Qed.

Lemma run_settle_rejected members xs s :
  let resolution := JSON.last_binding "promiseResolutionArgs" members in
  let rejection := JSON.last_binding "promiseRejectionArgs" members in
  JSON.truthy resolution = false ->
  JSON.truthy rejection = true ->
  JSON.parse rejection = Done (JArr xs) ->
  run_task (TaskSettle (JObj members)) s
  = (Done tt,
     set_trace (trace s ++ [EvSettled (Rejected (first_argument xs))]) s).
Proof.
  intros resolution rejection Hf Ht Hp.
  unfold run_task, bind, get_state, lift, log, modify. cbn [fst snd JSON.get].
  fold resolution. rewrite Hf. cbn [fst snd]. fold rejection.
  by rewrite Ht, Hp.
Qed.

(** X5.  In replay mode, when the fixture holds callback arguments and
    the call passes no callback, a call that returns (the fixture marks a
    promise, or holds a return value that parses) is followed by a
    [TypeError] in the next tick, where [origCallback] is [undefined]:
    nothing recorded is delivered, not even the settlement of the
    promise. *)
Theorem replay_callback_without_callback_throws
  (P : platform) (h : heap) (opts : options) (originalFn : method)
  (self : value) (arguments : list value) (files : gmap string node)
  (argStr content : string) (members : list (string * json)) :
  mode opts <> Some "live" ->
  mode opts <> Some "capture" ->
  argumentSerializer opts (h ++ [OArr arguments]) (VRef (length h))
  = Done (Some argStr) ->
  files !! filepath_of P opts argStr = Some (File content) ->
  JSON.parse_text content = Done (JObj members) ->
  JSON.truthy (JSON.last_binding "callbackArgs" members) = true ->
  is_function (default VUndefined (last arguments)) = false ->
  JSON.truthy (JSON.last_binding "returnedPromise" members) = true
  \/ (exists j,
        JSON.parse (JSON.last_binding "returnValue" members) = Done j) ->
  let w := wrapper P h opts originalFn self arguments (start files) in
  let e := session P h opts originalFn self arguments (start files) in
  (exists r, w.1 = Done r)
  /\ trace w.2 = [EvRead (filepath_of P opts argStr)]
  /\ e.1 = Raised (TypeError "Cannot read properties of undefined")
  /\ trace e.2 = [EvRead (filepath_of P opts argStr)].
Proof.
  intros Hl Hc Hser Hf Hp Hcb Hlast Hret w e.
  subst e. rewrite session_unfold. fold w. subst w.
  rewrite (wrapper_prepares P h opts originalFn self arguments
             (start files) argStr Hl Hser).
  rewrite bool_decide_eq_false_2 by done. rewrite Hlast.
  rewrite (replay_object argStr _ content members) by done.
  cbn [trace queue set_trace set_wrappedCallData set_filepath start
       filepath app].
  rewrite Hcb.
  destruct (JSON.truthy (JSON.last_binding "returnedPromise" members)).
  - rewrite later_unfold. cbn [queue set_queue app for_each].
    unfold bind.
    rewrite run_callback_without_callback by done.
    split; [by eexists|]. done.
  - destruct Hret as [?|[j Hj]]; [done|]. rewrite Hj.
    rewrite later_unfold. cbn [queue set_queue app for_each].
    unfold bind.
    rewrite run_callback_without_callback by done.
    split; [by eexists|]. done.
Qed.

(** Replay of a call with a callback against a fixture that holds
    callback arguments and a return value. *)
Lemma replay_callback_session
  (P : platform) (h : heap) (opts : options) (originalFn : method)
  (self : value) (front : list value) (f : nat)
  (files : gmap string node)
  (argStr content : string) (members : list (string * json))
  (xs : list json) (j : json) :
  mode opts <> Some "live" ->
  mode opts <> Some "capture" ->
  callbackSwap opts = defaultCallbackSwap ->
  let arguments := front ++ [VFun (UserFn f)] in
  argumentSerializer opts (h ++ [OArr arguments]) (VRef (length h))
  = Done (Some argStr) ->
  files !! filepath_of P opts argStr = Some (File content) ->
  JSON.parse_text content = Done (JObj members) ->
  JSON.truthy (JSON.last_binding "callbackArgs" members) = true ->
  JSON.parse (JSON.last_binding "callbackArgs" members) = Done (JArr xs) ->
  JSON.truthy (JSON.last_binding "returnedPromise" members) = false ->
  JSON.parse (JSON.last_binding "returnValue" members) = Done j ->
  let w := wrapper P h opts originalFn self arguments (start files) in
  let e := session P h opts originalFn self arguments (start files) in
  w.1 = Done (RetValue (Fresh j))
  /\ trace w.2 = [EvRead (filepath_of P opts argStr)]
  /\ e.1 = Done (RetValue (Fresh j))
  /\ trace e.2 = [EvRead (filepath_of P opts argStr);
                  EvCallback (VFun (UserFn f)) (Fresh <$> xs)]
  /\ fs e.2 = files.
Proof.
  intros Hl Hc Hswap arguments Hser Hf Hp Hcb Hcbp Hrp Hrv w e.
  assert (is_function (default VUndefined (last arguments)) = true) as Hlast.
  { unfold arguments. by rewrite last_snoc. }
  assert ((defaultCallbackSwap arguments (VFun ProxyFn)).2
          = VFun (UserFn f)) as Horig.
  { unfold defaultCallbackSwap, arguments.
    destruct (front ++ [VFun (UserFn f)]) eqn:E; [by destruct front|].
    rewrite <- E. simpl. by rewrite last_snoc. }
  assert (w = (Done (RetValue (Fresh j)),
               set_queue
                 [TaskCallback (JSON.last_binding "callbackArgs" members)]
                 (set_trace [EvRead (filepath_of P opts argStr)]
                    (set_origCallback (VFun (UserFn f))
                       (set_proxy_built true
                          (set_wrappedCallData [("callArgs", VStr argStr)]
                             (set_filepath (filepath_of P opts argStr)
                                (start files)))))))) as Hw.
  { subst w.
    rewrite (wrapper_prepares P h opts originalFn self arguments
               (start files) argStr Hl Hser).
    rewrite bool_decide_eq_false_2 by done. rewrite Hlast, Hswap, Horig.
    rewrite (replay_object argStr _ content members) by done.
    cbn [trace queue set_trace set_wrappedCallData set_filepath start
         filepath app set_origCallback set_proxy_built].
    by rewrite Hcb, Hrp, Hrv. }
  assert (e = (Done (RetValue (Fresh j)),
               set_pending []
                 (set_trace [EvRead (filepath_of P opts argStr);
                             EvCallback (VFun (UserFn f)) (Fresh <$> xs)]
                    (set_queue []
                       (set_origCallback (VFun (UserFn f))
                          (set_proxy_built true
                             (set_wrappedCallData
                                [("callArgs", VStr argStr)]
                                (set_filepath (filepath_of P opts argStr)
                                   (start files))))))))) as He.
  { subst e. rewrite session_unfold. fold w. rewrite Hw.
    rewrite later_unfold. cbn [queue set_queue app for_each]. unfold bind.
    rewrite (run_callback _ xs f) by done. done. }
  rewrite Hw, He. by split_and!.
Qed.

(** Replay against a fixture that marks a promise and holds no callback
    arguments. *)
Lemma replay_promise_session
  (P : platform) (h : heap) (opts : options) (originalFn : method)
  (self : value) (arguments : list value) (files : gmap string node)
  (argStr content : string) (members : list (string * json)) :
  mode opts <> Some "live" ->
  mode opts <> Some "capture" ->
  argumentSerializer opts (h ++ [OArr arguments]) (VRef (length h))
  = Done (Some argStr) ->
  files !! filepath_of P opts argStr = Some (File content) ->
  JSON.parse_text content = Done (JObj members) ->
  JSON.truthy (JSON.last_binding "callbackArgs" members) = false ->
  JSON.truthy (JSON.last_binding "returnedPromise" members) = true ->
  let path := filepath_of P opts argStr in
  let resolution := JSON.last_binding "promiseResolutionArgs" members in
  let rejection := JSON.last_binding "promiseRejectionArgs" members in
  let w := wrapper P h opts originalFn self arguments (start files) in
  let e := session P h opts originalFn self arguments (start files) in
  w.1 = Done RetPromise
  /\ trace w.2 = [EvRead path]
  /\ (forall xs,
        JSON.truthy resolution = true ->
        JSON.parse resolution = Done (JArr xs) ->
        e.1 = Done RetPromise
        /\ trace e.2 = [EvRead path; EvSettled (Resolved (first_argument xs))])
  /\ (forall xs,
        JSON.truthy resolution = false ->
        JSON.truthy rejection = true ->
        JSON.parse rejection = Done (JArr xs) ->
        e.1 = Done RetPromise
        /\ trace e.2 = [EvRead path; EvSettled (Rejected (first_argument xs))]).
Proof.
  intros Hl Hc Hser Hf Hp Hcb Hrp path resolution rejection w e.
  assert (exists s1,
            w = (Done RetPromise,
                 set_queue [TaskSettle (JObj members)]
                   (set_trace [EvRead path] s1))
            /\ trace s1 = [] /\ queue s1 = [] /\ pending s1 = [])
    as (s1 & Hw & Ht & Hq & Hpe).
  { subst w.
    rewrite (wrapper_prepares P h opts originalFn self arguments
               (start files) argStr Hl Hser).
    rewrite bool_decide_eq_false_2 by done.
    destruct (is_function (default VUndefined (last arguments)));
      rewrite (replay_object argStr _ content members) by done;
      cbn [trace queue set_trace set_wrappedCallData set_filepath start
           filepath app set_origCallback set_proxy_built];
      rewrite Hcb, Hrp; eexists; (split; [reflexivity|done]). }
  assert (forall ev,
            run_task (TaskSettle (JObj members))
              (set_queue [] (set_queue [TaskSettle (JObj members)]
                               (set_trace [EvRead path] s1)))
            = (Done tt,
               set_trace ([EvRead path] ++ [ev])
                 (set_queue [] (set_queue [TaskSettle (JObj members)]
                                  (set_trace [EvRead path] s1)))) ->
            e.1 = Done RetPromise /\ trace e.2 = [EvRead path; ev]) as Hrun.
  { intros ev Hev. subst e. rewrite session_unfold. fold w. rewrite Hw.
    rewrite later_unfold. cbn [queue set_queue for_each]. unfold bind.
    rewrite Hev. simpl. rewrite Hpe. done. }
  split_and!.
  - by rewrite Hw.
  - by rewrite Hw.
  - intros xs Ht' Hp'. apply Hrun.
    by rewrite (run_settle_resolved members xs).
  - intros xs Hf' Ht' Hp'. apply Hrun.
    by rewrite (run_settle_rejected members xs).
Qed.

(** What the tasks of the [nextTick] queue add to the trace. *)
Lemma run_tasks_deliver ts s :
  let w := for_each run_task ts s in
  exists evs, trace w.2 = trace s ++ evs
              /\ Forall (fun e => is_delivery e = true) evs.
Proof.
  revert s. induction ts as [|t ts IH]; intros s; simpl.
  { exists []. by rewrite app_nil_r. }
  unfold bind.
  assert (exists evs, trace (run_task t s).2 = trace s ++ evs
                      /\ Forall (fun e => is_delivery e = true) evs)
    as (evs1 & H1 & F1).
  { unfold run_task, call_callback, bind, get_state, log, modify, throw,
      lift, ret.
    destruct t as [cb|cj]; simpl.
    - repeat (case_match; simpl); simplify_eq; simpl.
      all: try (by exists []; rewrite app_nil_r).
      all: eexists; split; [reflexivity|]; by repeat constructor.
    - repeat (case_match; simpl); simplify_eq; simpl.
      all: try (by exists []; rewrite app_nil_r).
      all: eexists; split; [reflexivity|]; by repeat constructor. }
  destruct (run_task t s) as [[[]| |] s1]; simpl in *.
  - destruct (IH s1) as (evs2 & H2 & F2).
    exists (evs1 ++ evs2). rewrite H2, H1, app_assoc. split; [done|].
    by apply Forall_app.
  - by exists evs1.
  - by exists evs1.
Qed.

(** X8.  A replaying wrapper never writes and leaves the file system as it
    found it; it reads one file at most, its fixture, before anything
    else, and all that follows is the delivery of what the fixture
    holds. *)
Theorem replay_only_reads_its_fixture
  (P : platform) (h : heap) (opts : options) (originalFn : method)
  (self : value) (arguments : list value) (files : gmap string node) :
  mode opts <> Some "live" ->
  mode opts <> Some "capture" ->
  let e := session P h opts originalFn self arguments (start files) in
  fs e.2 = files
  /\ (trace e.2 = []
      \/ exists argStr evs,
           argumentSerializer opts (h ++ [OArr arguments]) (VRef (length h))
           = Done (Some argStr)
           /\ trace e.2 = EvRead (filepath_of P opts argStr) :: evs
           /\ Forall (fun ev => is_delivery ev = true) evs).
Proof.
  intros Hl Hc e.
  destruct (argumentSerializer opts (h ++ [OArr arguments]) (VRef (length h)))
    as [[argStr|]| |] eqn:Hser.
  2-4: assert ((wrapper P h opts originalFn self arguments (start files)).2
               = start files
               /\ forall v, (wrapper P h opts originalFn self arguments
                               (start files)).1 <> Done v) as [Hs Hr]
         by (apply wrapper_without_arguments; [done|];
             intros a; congruence).
  2-4: subst e; rewrite session_unfold;
       destruct (wrapper P h opts originalFn self arguments (start files))
         as [[v| |] s']; simpl in *; subst;
       [by destruct (Hr v)|by split; [|left]|by split; [|left]].
  destruct (wrapper_reaches_replay P h opts Hl Hc originalFn self arguments
              (start files) argStr Hser)
    as (s1 & Hw & Hfs & Htr & Hqu & Hpe & Hfp & _).
  destruct (replay_effects argStr s1) as (Rfs & Rpe & _ & Rtr & _).
  subst e. rewrite session_unfold, Hw.
  destruct (replay argStr s1) as [r s2]. simpl in *.
  rewrite Htr, Hfp in Rtr. simpl in Rtr.
  destruct r as [r| |]; simpl.
  2,3: split; [congruence|]; right; exists argStr, []; by rewrite Rtr.
  rewrite later_of_replay by congruence.
  destruct (run_tasks_effects (queue s2) (set_queue [] s2)) as (Tfs & _).
  destruct (run_tasks_deliver (queue s2) (set_queue [] s2))
    as (evs & Ttr & Tev).
  destruct (for_each run_task (queue s2) (set_queue [] s2))
    as [[[]| |] s3]; simpl in *.
  all: split; [congruence|].
  all: right; exists argStr, evs; by rewrite Ttr, Rtr.
Qed.

(** X9.  In capture and in replay mode, when the argument serializer
    throws or returns [undefined], the call throws before anything else
    happens: the real method does not run, no file is read or written,
    nothing is handed to [nextTick]. *)
Theorem unserializable_arguments_throw_first
  (P : platform) (h : heap) (opts : options) (originalFn : method)
  (self : value) (arguments : list value) (files : gmap string node) :
  mode opts <> Some "live" ->
  let serialized :=
    argumentSerializer opts (h ++ [OArr arguments]) (VRef (length h)) in
  let e := session P h opts originalFn self arguments (start files) in
  (forall ex, serialized = Raised ex -> e = (Raised ex, start files))
  /\ (serialized = Done None ->
      e = (Raised (TypeError "The data argument must be of type string"),
           start files)).
Proof.
  intros Hl serialized e. subst e serialized.
  split; [intros ex Hs|intros Hs].
  all: rewrite session_unfold; unfold wrapper.
  all: rewrite bool_decide_eq_false_2 by done.
  all: unfold bind at 1; unfold serialize_list, lift; by rewrite Hs.
Qed.

(** ** Capture, step by step *)

(** Lines 103-108 on a record whose fields are strings, booleans or
    [undefined]. *)
Lemma write_record P h s :
  Forall (fun kv => primitive kv.2) (wrappedCallData s) ->
  let content := fixture_text P (members_of (wrappedCallData s)) in
  let s' := set_trace (trace s ++ [EvWrite (filepath s) content]) s in
  writeWrappedCallData P h s
  = match fs s !! filepath s with
    | Some (Failing code) => (Raised (SystemError code (filepath s)), s')
    | _ => (Done tt, set_fs (<[filepath s := File content]> (fs s)) s')
    end.
Proof.
  intros Hprim content s'.
  unfold writeWrappedCallData, bind, get_state, lift.
  rewrite (stringifySafe_flat h (wrappedCallData s) (Some "  ") Hprim).
  cbn [fst snd].
  assert (concat_string
            (Some (JSON.render
                     (String.substring 0 10
                        (default EmptyString (Some "  ")))
                     EmptyString (JObj (members_of (wrappedCallData s)))))
            (EOL P) = content) as -> by reflexivity.
  unfold writeFileSync, bind, log, modify, get_state, throw, lift.
  cbn [fst snd fs set_trace].
  by destruct (fs s !! filepath s) as [[c|code]|].
Qed.

Lemma assign_fresh key v (props : list (string * value)) :
  key ∉ props.*1 -> assign key v props = props ++ [(key, v)].
Proof.
  induction props as [|[k x] props IH]; [done|].
  rewrite fmap_cons, not_elem_of_cons. intros [Hk Hin]. simpl.
  rewrite bool_decide_eq_false_2 by done. by rewrite IH.
Qed.

(** The capture of a call without callback whose method returns the
    promise at [a] and later settles it. *)
Lemma capture_settled_session P h opts originalFn self args files argStr
  a (fulfilled : bool) v str :
  mode opts = Some "capture" ->
  argumentSerializer opts (h ++ [OArr args]) (VRef (length h))
  = Done (Some argStr) ->
  is_function (default VUndefined (last args)) = false ->
  originalFn self args
  = {| during := []; completes := Done (VRef a);
       afterwards := [if fulfilled then Fulfil v else Reject v] |} ->
  h !! a = Some OPromise ->
  responseSerializer opts (h ++ [OArr [v]]) (VRef (length h))
  = Done (Some str) ->
  (forall code, files !! filepath_of P opts argStr <> Some (Failing code)) ->
  let path := filepath_of P opts argStr in
  let data :=
    [("callArgs", VStr argStr); ("returnedPromise", VBool true);
     (if fulfilled then "promiseResolutionArgs" else "promiseRejectionArgs",
      VStr str)] in
  let content :=
    fixture_text P
      [("callArgs", JStr argStr); ("returnedPromise", JBool true);
       (if fulfilled then "promiseResolutionArgs" else "promiseRejectionArgs",
        JStr str)] in
  session P h opts originalFn self args (start files)
  = (Done RetPromise,
     {| fs := <[path := File content]> files;
        trace := [EvOriginal self args; EvWrite path content;
                  EvSettled (if fulfilled then Resolved (Heap v)
                             else Rejected (Heap v))];
        queue := []; pending := []; filepath := path;
        wrappedCallData := data; origCallback := VUndefined;
        proxy_built := false; chained := false |}).
Proof.
  intros Hm Hser Hlast Hbeh Ha Hresp Hnf path data content.
  assert (mode opts <> Some "live") as Hl by (rewrite Hm; discriminate).
  rewrite session_unfold.
  rewrite (wrapper_prepares P h opts originalFn self args (start files)
             argStr Hl Hser).
  rewrite bool_decide_eq_true_2 by done. rewrite Hlast.
  unfold capture, apply_original. rewrite Hbeh. run.
  cbn [truthy then_of]. rewrite Ha. run. cbn [truthy app].
  rewrite assign_fresh by (apply (bool_decide_unpack _); vm_compute; exact I).
  cbn [app].
  rewrite later_unfold. run. unfold deliver. run.
  destruct fulfilled.
  - unfold on_fulfilled. run. rewrite Hresp. run.
    rewrite assign_fresh
      by (apply (bool_decide_unpack _); vm_compute; exact I).
    cbn [app].
    rewrite write_record by (run; repeat constructor). run.
    fold path.
    destruct (files !! path) as [[c|code]|] eqn:Hf;
      [done|by destruct (Hnf code)|done].
  - unfold on_rejected. run. unfold catch_handler. run. rewrite Hresp. run.
    rewrite assign_fresh
      by (apply (bool_decide_unpack _); vm_compute; exact I).
    cbn [app].
    rewrite write_record by (run; repeat constructor). run.
    fold path.
    destruct (files !! path) as [[c|code]|] eqn:Hf;
      [done|by destruct (Hnf code)|done].
Qed.

Lemma defaultCallbackSwap_snoc front x newCallback :
  defaultCallbackSwap (front ++ [x]) newCallback
  = (front ++ [newCallback], x).
Proof.
  unfold defaultCallbackSwap.
  destruct (front ++ [x]) eqn:E; [by destruct front|]. rewrite <- E.
  rewrite last_snoc, length_app. simpl.
  replace (length front + 1 - 1) with (length front + 0) by lia.
  by rewrite insert_app_r.
Qed.

Lemma returnedPromise_primitive ret (b : bool) :
  primitive (if truthy ret then VBool b else ret).
Proof. destruct ret; simpl; try done; by case_match. Qed.

(** The capture of a call with a callback whose method returns [ret], no
    promise, and calls back later: the call itself. *)
Lemma capture_callback_call P h opts originalFn self front f files argStr
  ret xs rv :
  mode opts = Some "capture" ->
  callbackSwap opts = defaultCallbackSwap ->
  argumentSerializer opts (h ++ [OArr (front ++ [VFun (UserFn f)])])
    (VRef (length h))
  = Done (Some argStr) ->
  originalFn self (front ++ [VFun ProxyFn])
  = {| during := []; completes := Done ret;
       afterwards := [Invoke (VFun ProxyFn) xs] |} ->
  (if truthy ret then then_of h ret else Done NotThenable)
  = Done NotThenable ->
  returnValueSerializer opts h ret = Done rv ->
  wrapper P h opts originalFn self (front ++ [VFun (UserFn f)]) (start files)
  = (Done (RetValue (Heap ret)),
     {| fs := files;
        trace := [EvOriginal self (front ++ [VFun ProxyFn])];
        queue := []; pending := [Invoke (VFun ProxyFn) xs];
        filepath := filepath_of P opts argStr;
        wrappedCallData :=
          [("callArgs", VStr argStr);
           ("returnedPromise", if truthy ret then VBool false else ret);
           ("returnValue", of_option rv)];
        origCallback := VFun (UserFn f);
        proxy_built := true; chained := false |}).
Proof.
  intros Hm Hswap Hser Hbeh Hthen Hrv.
  assert (mode opts <> Some "live") as Hl by (rewrite Hm; discriminate).
  rewrite (wrapper_prepares P h opts originalFn self _ (start files)
             argStr Hl Hser).
  rewrite bool_decide_eq_true_2 by done.
  rewrite last_snoc.
  change (is_function (default VUndefined (Some (VFun (UserFn f)))))
    with true.
  cbv iota. rewrite Hswap, defaultCallbackSwap_snoc. cbn [fst snd].
  unfold capture, apply_original. rewrite Hbeh. run.
  rewrite Hthen. run.
  assert (truthy (if truthy ret then VBool false else ret) = false) as ->
    by (by destruct (truthy ret) eqn:E).
  rewrite assign_fresh by (apply (bool_decide_unpack _); vm_compute; exact I).
  cbn [app]. rewrite Hrv. run.
  rewrite assign_fresh by (apply (bool_decide_unpack _); vm_compute; exact I).
  done.
Qed.

(** The same call and the turn in which the method calls back. *)
Lemma capture_callback_session P h opts originalFn self front f files argStr
  ret xs rv cbStr :
  mode opts = Some "capture" ->
  callbackSwap opts = defaultCallbackSwap ->
  argumentSerializer opts (h ++ [OArr (front ++ [VFun (UserFn f)])])
    (VRef (length h))
  = Done (Some argStr) ->
  originalFn self (front ++ [VFun ProxyFn])
  = {| during := []; completes := Done ret;
       afterwards := [Invoke (VFun ProxyFn) xs] |} ->
  (if truthy ret then then_of h ret else Done NotThenable)
  = Done NotThenable ->
  returnValueSerializer opts h ret = Done rv ->
  responseSerializer opts (h ++ [OArr xs]) (VRef (length h))
  = Done (Some cbStr) ->
  let path := filepath_of P opts argStr in
  let data :=
    [("callArgs", VStr argStr);
     ("returnedPromise", if truthy ret then VBool false else ret);
     ("returnValue", of_option rv); ("callbackArgs", VStr cbStr)] in
  let content := fixture_text P (members_of data) in
  let s' :=
    {| fs := files;
       trace := [EvOriginal self (front ++ [VFun ProxyFn]);
                 EvWrite path content];
       queue := []; pending := []; filepath := path;
       wrappedCallData := data; origCallback := VFun (UserFn f);
       proxy_built := true; chained := false |} in
  session P h opts originalFn self (front ++ [VFun (UserFn f)]) (start files)
  = match files !! path with
    | Some (Failing code) => (Raised (SystemError code path), s')
    | _ =>
      (Done (RetValue (Heap ret)),
       set_trace (trace s' ++ [EvCallback (VFun (UserFn f)) (Heap <$> xs)])
         (set_fs (<[path := File content]> files) s'))
    end.
Proof.
  intros Hm Hswap Hser Hbeh Hthen Hrv Hresp path data content s'.
  rewrite session_unfold.
  rewrite (capture_callback_call P h opts originalFn self front f files
             argStr ret xs rv) by done.
  rewrite later_unfold. run. unfold deliver. run. unfold invoke. run.
  unfold proxy. run. rewrite Hresp. run.
  rewrite assign_fresh by (apply (bool_decide_unpack _); vm_compute; exact I).
  cbn [app].
  rewrite write_record.
  2: { run. repeat constructor; simpl; try done.
       - apply returnedPromise_primitive.
       - by destruct rv. }
  run. fold path data content.
  destruct (files !! path) as [[c|code]|] eqn:Hf; try done.
Qed.

(** ** What the default serializer makes of an argument list *)

Lemma heap_closed_snoc h o :
  heap_closed h ->
  Forall (fun kv => value_closed h kv.2) (entries o) ->
  heap_closed (h ++ [o]).
Proof.
  intros Hh Ho. unfold heap_closed in *.
  assert (forall v, value_closed h v -> value_closed (h ++ [o]) v) as Hmono.
  { intros [| | | | | |a]; simpl; try done. rewrite length_app. simpl. lia. }
  apply Forall_app. split.
  - eapply Forall_impl; [exact Hh|]. intros o' Ho'.
    eapply Forall_impl; [exact Ho'|]. intros kv. apply Hmono.
  - constructor; [|done].
    eapply Forall_impl; [exact Ho|]. intros kv. apply Hmono.
Qed.

Lemma entries_array_closed h xs :
  Forall (value_closed h) xs ->
  Forall (fun kv => value_closed h kv.2) (entries (OArr xs)).
Proof.
  intros Hxs. simpl. apply Forall_forall. intros [k x] Hin.
  apply elem_of_lookup_imap in Hin as (i & y & [= -> ->] & Hy).
  rewrite Forall_forall in Hxs. apply Hxs. by eapply list_elem_of_lookup_2.
Qed.

Lemma default_serializer_array h xs :
  heap_closed h ->
  Forall (value_closed h) xs ->
  exists js,
    defaultSerializer (h ++ [OArr xs]) (VRef (length h))
    = Done (Some (JSON.render EmptyString EmptyString (JArr js)))
    /\ length js = length xs
    /\ forall i x, xs !! i = Some x ->
         exists j, js !! i = Some j
                   /\ json_form (h ++ [OArr xs]) (length h) i x j.
Proof.
  intros Hh Hxs.
  assert (heap_closed (h ++ [OArr xs])) as Hh'
    by (apply heap_closed_snoc; [done|by apply entries_array_closed]).
  destruct (stringifySafe_spec _ Hh' (VRef (length h)) None) as (r & Hs & Hr).
  { simpl. rewrite length_app. simpl. lia. }
  unfold defaultSerializer. rewrite Hs. clear Hs.
  inversion Hr as [| | | | | |anc path a i Hi|anc path a o rs Hnin Ho Hall];
    subst.
  { by rewrite lookup_nil in Hi. }
  rewrite lookup_app_r, Nat.sub_diag in Ho by done. injection Ho as <-.
  exists (default JNull <$> rs.*2). split_and!.
  - change (Done (Some (JSON.render EmptyString EmptyString
                          (JArr (map (fun kr : string * option json =>
                                        default JNull kr.2) rs))))
            = Done (Some (JSON.render EmptyString EmptyString
                            (JArr (default JNull <$> rs.*2))))).
    do 4 f_equal. clear. induction rs as [|kr rs IH]; [done|].
    simpl. by f_equal.
  - rewrite !length_fmap. apply Forall2_length in Hall.
    rewrite <- Hall. simpl. by rewrite length_imap.
  - intros i x Hx. simpl in Hall.
    assert (imap (fun i x => (pretty i, x)) xs !! i = Some (pretty i, x))
      as Hix by (by rewrite list_lookup_imap, Hx).
    destruct (Forall2_lookup_l _ _ _ _ _ Hall Hix) as ([k rv] & Hrs & _ & Hrv).
    simpl in *. exists (default JNull rv). split.
    + by rewrite !list_lookup_fmap, Hrs.
    + by exists rv.
Qed.

(** ** Replay of what a fixture holds *)

(** X6.  In replay mode, a call that passes a callback to a wrapper with
    the default substitution, against a fixture that holds callback
    arguments and a return value, returns the parsed return value; the
    callback runs in the next tick, once, with the parsed arguments. *)
Theorem replay_delivers_callback_and_return_value
  (P : platform) (h : heap) (opts : options) (originalFn : method)
  (self : value) (front : list value) (f : nat)
  (files : gmap string node)
  (argStr content : string) (members : list (string * json))
  (xs : list json) (j : json) :
  mode opts <> Some "live" ->
  mode opts <> Some "capture" ->
  callbackSwap opts = defaultCallbackSwap ->
  let arguments := front ++ [VFun (UserFn f)] in
  argumentSerializer opts (h ++ [OArr arguments]) (VRef (length h))
  = Done (Some argStr) ->
  files !! filepath_of P opts argStr = Some (File content) ->
  JSON.parse_text content = Done (JObj members) ->
  JSON.truthy (JSON.last_binding "callbackArgs" members) = true ->
  JSON.parse (JSON.last_binding "callbackArgs" members) = Done (JArr xs) ->
  JSON.truthy (JSON.last_binding "returnedPromise" members) = false ->
  JSON.parse (JSON.last_binding "returnValue" members) = Done j ->
  let w := wrapper P h opts originalFn self arguments (start files) in
  let e := session P h opts originalFn self arguments (start files) in
  w.1 = Done (RetValue (Fresh j))
  /\ trace w.2 = [EvRead (filepath_of P opts argStr)]
  /\ e.1 = Done (RetValue (Fresh j))
  /\ trace e.2 = [EvRead (filepath_of P opts argStr);
                  EvCallback (VFun (UserFn f)) (Fresh <$> xs)]
  /\ fs e.2 = files.
Proof.
  intros Hl Hc Hswap arguments Hser Hf Hp Hcb Hcbp Hrp Hrv.
  by apply (replay_callback_session P h opts originalFn self front f files
              argStr content members xs j).
Qed.

(** X7.  In replay mode, against a fixture that marks a promise and holds
    no callback arguments, the call returns a promise and the next tick
    settles it from the fixture: with the first of the parsed resolution
    arguments when the fixture holds any, whatever rejection arguments it
    holds beside them; otherwise with the first of the parsed rejection
    arguments. *)
Theorem replay_settles_promise_from_fixture
  (P : platform) (h : heap) (opts : options) (originalFn : method)
  (self : value) (arguments : list value) (files : gmap string node)
  (argStr content : string) (members : list (string * json)) :
  mode opts <> Some "live" ->
  mode opts <> Some "capture" ->
  argumentSerializer opts (h ++ [OArr arguments]) (VRef (length h))
  = Done (Some argStr) ->
  files !! filepath_of P opts argStr = Some (File content) ->
  JSON.parse_text content = Done (JObj members) ->
  JSON.truthy (JSON.last_binding "callbackArgs" members) = false ->
  JSON.truthy (JSON.last_binding "returnedPromise" members) = true ->
  let path := filepath_of P opts argStr in
  let resolution := JSON.last_binding "promiseResolutionArgs" members in
  let rejection := JSON.last_binding "promiseRejectionArgs" members in
  let w := wrapper P h opts originalFn self arguments (start files) in
  let e := session P h opts originalFn self arguments (start files) in
  w.1 = Done RetPromise
  /\ trace w.2 = [EvRead path]
  /\ (forall xs,
        JSON.truthy resolution = true ->
        JSON.parse resolution = Done (JArr xs) ->
        e.1 = Done RetPromise
        /\ trace e.2 = [EvRead path; EvSettled (Resolved (first_argument xs))])
  /\ (forall xs,
        JSON.truthy resolution = false ->
        JSON.truthy rejection = true ->
        JSON.parse rejection = Done (JArr xs) ->
        e.1 = Done RetPromise
        /\ trace e.2 = [EvRead path; EvSettled (Rejected (first_argument xs))]).
Proof.
  intros Hl Hc Hser Hf Hp Hcb Hrp.
  by apply (replay_promise_session P h opts originalFn self arguments files
              argStr content members).
Qed.

(** ** Capture, then replay *)

Lemma parse_fixture P members :
  blank (chars (EOL P)) ->
  JSON.parse_text (fixture_text P members) = Done (JObj members).
Proof.
  intros Heol. unfold fixture_text.
  apply (parse_text_rendered _ "  " _ (chars (EOL P)));
    [by rewrite chars_app|by repeat constructor|done].
Qed.

Lemma same_fixture P optsC optsR argStr :
  dir optsR = dir optsC -> prefix optsR = prefix optsC ->
  filepath_of P optsR argStr = filepath_of P optsC argStr.
Proof. intros Hd Hp. unfold filepath_of. by rewrite Hd, Hp. Qed.

(** X10.  Capture, then replay with the same directory, prefix and argument
    serializer, of a call without callback whose method returns a promise
    that is later fulfilled (or rejected) with [v]: the capture writes one
    fixture and the caller sees the promise settle with [v]; the replay
    reads that fixture, returns a promise and settles it the same way with
    the JSON form of [v]. *)
Theorem capture_then_replay_settles_alike
  (P : platform) (h : heap) (optsC optsR : options)
  (originalFn other : method) (self : value) (arguments : list value)
  (files : gmap string node) (argStr : string) (a : addr)
  (fulfilled : bool) (v : value) :
  heap_closed h -> value_closed h v -> blank (chars (EOL P)) ->
  mode optsC = Some "capture" ->
  mode optsR <> Some "live" -> mode optsR <> Some "capture" ->
  dir optsR = dir optsC -> prefix optsR = prefix optsC ->
  argumentSerializer optsR = argumentSerializer optsC ->
  responseSerializer optsC = defaultSerializer ->
  argumentSerializer optsC (h ++ [OArr arguments]) (VRef (length h))
  = Done (Some argStr) ->
  is_function (default VUndefined (last arguments)) = false ->
  originalFn self arguments
  = {| during := []; completes := Done (VRef a);
       afterwards := [if fulfilled then Fulfil v else Reject v] |} ->
  h !! a = Some OPromise ->
  (forall code, files !! filepath_of P optsC argStr <> Some (Failing code)) ->
  let path := filepath_of P optsC argStr in
  let c := session P h optsC originalFn self arguments (start files) in
  let r := session P h optsR other self arguments (start (fs c.2)) in
  exists j content,
    json_form (h ++ [OArr [v]]) (length h) 0 v j
    /\ c.1 = Done RetPromise
    /\ trace c.2
       = [EvOriginal self arguments; EvWrite path content;
          EvSettled (if fulfilled then Resolved (Heap v)
                     else Rejected (Heap v))]
    /\ r.1 = Done RetPromise
    /\ trace r.2
       = [EvRead path;
          EvSettled (if fulfilled then Resolved (Fresh j)
                     else Rejected (Fresh j))].
Proof.
  intros Hh Hv Heol Hm Hl Hc Hdir Hpre Hargs Hresp Hser Hlast Hbeh Ha Hnf
    path c r.
  destruct (default_serializer_array h [v] Hh) as (js & Hstr & Hlen & Hjs).
  { by constructor. }
  destruct (Hjs 0 v eq_refl) as (j & Hj0 & Hform).
  destruct js as [|j' [|? ?]]; try done. injection Hj0 as ->.
  rewrite <- Hresp in Hstr.
  pose proof (capture_settled_session P h optsC originalFn self arguments
                files argStr a fulfilled v _ Hm Hser Hlast Hbeh Ha Hstr Hnf)
    as Hcap.
  fold path in Hcap. cbv zeta in Hcap. fold c in Hcap.
  set (key := if fulfilled then "promiseResolutionArgs"
              else "promiseRejectionArgs") in *.
  set (str := JSON.render EmptyString EmptyString (JArr [j])) in *.
  set (members := [("callArgs", JStr argStr); ("returnedPromise", JBool true);
                   (key, JStr str)]) in *.
  exists j, (fixture_text P members).
  split; [done|]. rewrite Hcap. cbn [fst snd trace fs].
  split; [done|]. split; [done|].
  assert (JSON.parse (Some (JStr str)) = Done (JArr [j])) as Hparse
    by (apply parse_rendered_string; constructor).
  rewrite <- Hargs in Hser.
  destruct (replay_promise_session P h optsR other self arguments
              (<[path := File (fixture_text P members)]> files)
              argStr (fixture_text P members) members Hl Hc Hser)
    as (_ & _ & Hres & Hrej).
  { rewrite (same_fixture P optsC optsR) by done. apply lookup_insert_eq. }
  { by apply parse_fixture. }
  { unfold members, key. by destruct fulfilled. }
  { unfold members, key. by destruct fulfilled. }
  rewrite (same_fixture P optsC optsR) in Hres, Hrej by done.
  fold path in Hres, Hrej. subst r. rewrite Hcap. cbn [snd fs].
  destruct fulfilled.
  - apply (Hres [j]); unfold members, key; [done|exact Hparse].
  - apply (Hrej [j]); unfold members, key; [done|done|exact Hparse].
Qed.

(** X11.  Capture, then replay with the same directory, prefix, argument
    serializer and default substitution, of a call whose last argument is
    a callback and whose method returns [ret] (no promise, and a value
    that has a JSON form) and calls back later with [xs]: the capture
    hands the method a callback of its own, writes the fixture, then calls
    the caller's callback with [xs]; the replay returns the JSON form of
    [ret] and, in the next tick, calls the callback with the JSON forms of
    [xs]. *)
Theorem capture_then_replay_calls_back_alike
  (P : platform) (h : heap) (optsC optsR : options)
  (originalFn other : method) (self : value) (front : list value) (f : nat)
  (files : gmap string node) (argStr : string)
  (ret : value) (xs : list value) :
  heap_closed h -> value_closed h ret -> Forall (value_closed h) xs ->
  blank (chars (EOL P)) ->
  mode optsC = Some "capture" ->
  mode optsR <> Some "live" -> mode optsR <> Some "capture" ->
  dir optsR = dir optsC -> prefix optsR = prefix optsC ->
  argumentSerializer optsR = argumentSerializer optsC ->
  callbackSwap optsC = defaultCallbackSwap ->
  callbackSwap optsR = defaultCallbackSwap ->
  responseSerializer optsC = defaultSerializer ->
  returnValueSerializer optsC = defaultSerializer ->
  let arguments := front ++ [VFun (UserFn f)] in
  argumentSerializer optsC (h ++ [OArr arguments]) (VRef (length h))
  = Done (Some argStr) ->
  originalFn self (front ++ [VFun ProxyFn])
  = {| during := []; completes := Done ret;
       afterwards := [Invoke (VFun ProxyFn) xs] |} ->
  (if truthy ret then then_of h ret else Done NotThenable)
  = Done NotThenable ->
  ret <> VUndefined -> is_function ret = false ->
  (forall code, files !! filepath_of P optsC argStr <> Some (Failing code)) ->
  let path := filepath_of P optsC argStr in
  let c := session P h optsC originalFn self arguments (start files) in
  let r := session P h optsR other self arguments (start (fs c.2)) in
  exists jret js content,
    renders h [] [] ret (Some jret)
    /\ length js = length xs
    /\ (forall i x, xs !! i = Some x ->
          exists j, js !! i = Some j
                    /\ json_form (h ++ [OArr xs]) (length h) i x j)
    /\ c.1 = Done (RetValue (Heap ret))
    /\ trace c.2
       = [EvOriginal self (front ++ [VFun ProxyFn]); EvWrite path content;
          EvCallback (VFun (UserFn f)) (Heap <$> xs)]
    /\ r.1 = Done (RetValue (Fresh jret))
    /\ trace r.2
       = [EvRead path; EvCallback (VFun (UserFn f)) (Fresh <$> js)].
Proof.
  intros Hh Hret Hxs Heol Hm Hl Hc Hdir Hpre Hargs HswapC HswapR Hresp Hrvs
    arguments Hser Hbeh Hthen Hdef Hfun Hnf path c r.
  destruct (default_serializer_array h xs Hh Hxs) as (js & Hstr & Hlen & Hjs).
  destruct (stringifySafe_spec h Hh ret None Hret) as (rr & Hrv & Hrr).
  assert (exists jret, rr = Some jret) as (jret & ->).
  { destruct rr as [jret|]; [by eexists|].
    inversion Hrr; subst; done. }
  change (stringifySafe h ret None None None) with (defaultSerializer h ret)
    in Hrv.
  rewrite <- Hresp in Hstr. rewrite <- Hrvs in Hrv.
  pose proof (capture_callback_session P h optsC originalFn self front f
                files argStr ret xs _ _ Hm HswapC Hser Hbeh Hthen Hrv Hstr)
    as Hcap.
  fold path arguments in Hcap. cbv zeta in Hcap. fold c in Hcap.
  set (cbStr := JSON.render EmptyString EmptyString (JArr js)) in *.
  set (rvStr := JSON.render
                  (String.substring 0 10 (default EmptyString None))
                  EmptyString jret) in *.
  set (data := [("callArgs", VStr argStr);
                ("returnedPromise", if truthy ret then VBool false else ret);
                ("returnValue", of_option (Some rvStr));
                ("callbackArgs", VStr cbStr)]) in *.
  assert (c = (Done (RetValue (Heap ret)),
               set_trace
                 ([EvOriginal self (front ++ [VFun ProxyFn]);
                   EvWrite path (fixture_text P (members_of data))]
                    ++ [EvCallback (VFun (UserFn f)) (Heap <$> xs)])
                 (set_fs (<[path := File (fixture_text P (members_of data))]>
                            files)
                    {| fs := files;
                       trace := [EvOriginal self (front ++ [VFun ProxyFn]);
                                 EvWrite path
                                   (fixture_text P (members_of data))];
                       queue := []; pending := []; filepath := path;
                       wrappedCallData := data;
                       origCallback := VFun (UserFn f);
                       proxy_built := true; chained := false |})))
    as Hcap'.
  { rewrite Hcap.
    destruct (files !! path) as [[?|code]|] eqn:Hf;
      [done|by destruct (Hnf code)|done]. }
  clear Hcap.
  exists jret, js, (fixture_text P (members_of data)).
  split; [done|]. split; [done|]. split; [done|].
  rewrite Hcap'. cbn [fst snd trace fs set_trace set_fs app].
  split; [done|]. split; [done|].
  assert (JSON.last_binding "callbackArgs" (members_of data)
          = Some (JStr cbStr)
          /\ JSON.last_binding "returnValue" (members_of data)
             = Some (JStr rvStr)
          /\ JSON.truthy (JSON.last_binding "returnedPromise"
                            (members_of data)) = false)
    as (Lcb & Lrv & Lrp).
  { unfold data. destruct ret as [| |b|n|s|g|a0]; try done.
    - by destruct b.
    - simpl. destruct (Z.eqb_spec n 0) as [->|Hn]; [done|]. done.
    - destruct s; done. }
  rewrite <- Hargs in Hser.
  destruct (replay_callback_session P h optsR other self front f
              (<[path := File (fixture_text P (members_of data))]> files)
              argStr (fixture_text P (members_of data)) (members_of data)
              js jret Hl Hc HswapR Hser)
    as (_ & _ & Hr1 & Hr2 & _).
  { rewrite (same_fixture P optsC optsR) by done. apply lookup_insert_eq. }
  { by apply parse_fixture. }
  { rewrite Lcb. change (negb (JSON.is_empty cbStr) = true).
    unfold cbStr. by rewrite render_nonempty. }
  { rewrite Lcb. apply parse_rendered_string. constructor. }
  { done. }
  { rewrite Lrv. apply parse_rendered_string. constructor. }
  rewrite (same_fixture P optsC optsR) in Hr2 by done.
  subst r. rewrite Hcap'. cbn [snd fs set_trace set_fs].
  split; [exact Hr1|exact Hr2].
Qed.

(** ** Capture when the fixture cannot be written *)

(** X12.  In capture mode, when the fixture cannot be written, the caller's
    callback is never called: the exception of [fs.writeFileSync] leaves
    the callback the wrapper has substituted, in the turn in which the
    method called it, and the file system is as it was. *)
Theorem capture_unwritable_fixture_drops_the_callback
  (P : platform) (h : heap) (opts : options) (originalFn : method)
  (self : value) (front : list value) (f : nat)
  (files : gmap string node) (argStr : string)
  (ret : value) (xs : list value) (rv : option string) (cbStr code : string) :
  mode opts = Some "capture" ->
  callbackSwap opts = defaultCallbackSwap ->
  let arguments := front ++ [VFun (UserFn f)] in
  argumentSerializer opts (h ++ [OArr arguments]) (VRef (length h))
  = Done (Some argStr) ->
  originalFn self (front ++ [VFun ProxyFn])
  = {| during := []; completes := Done ret;
       afterwards := [Invoke (VFun ProxyFn) xs] |} ->
  (if truthy ret then then_of h ret else Done NotThenable)
  = Done NotThenable ->
  returnValueSerializer opts h ret = Done rv ->
  responseSerializer opts (h ++ [OArr xs]) (VRef (length h))
  = Done (Some cbStr) ->
  files !! filepath_of P opts argStr = Some (Failing code) ->
  let path := filepath_of P opts argStr in
  let w := wrapper P h opts originalFn self arguments (start files) in
  let e := session P h opts originalFn self arguments (start files) in
  w.1 = Done (RetValue (Heap ret))
  /\ e.1 = Raised (SystemError code path)
  /\ Forall (fun ev => is_delivery ev = false) (trace e.2)
  /\ fs e.2 = files.
Proof.
  intros Hm Hswap arguments Hser Hbeh Hthen Hrv Hresp Hfail path w e.
  pose proof (capture_callback_session P h opts originalFn self front f
                files argStr ret xs rv cbStr Hm Hswap Hser Hbeh Hthen Hrv
                Hresp) as Hcap.
  cbv zeta in Hcap. rewrite Hfail in Hcap.
  subst w e. fold arguments in Hcap. rewrite Hcap.
  unfold arguments.
  rewrite (capture_callback_call P h opts originalFn self front f files
             argStr ret xs rv) by done.
  split_and!; try done. by repeat constructor.
Qed.

(** X13.  In capture mode, when the fixture cannot be written, a promise
    the method has fulfilled is rejected for the caller: the handler of
    [then] throws at the write, the handler of [catch] records that error
    beside the resolution, fails to write in its turn, and the promise the
    caller holds is rejected with the error of the file system. *)
Theorem capture_unwritable_fixture_rejects_the_promise
  (P : platform) (h : heap) (opts : options) (originalFn : method)
  (self : value) (arguments : list value) (files : gmap string node)
  (argStr : string) (a : addr) (v : value) (r1 r2 : option string)
  (code : string) :
  mode opts = Some "capture" ->
  argumentSerializer opts (h ++ [OArr arguments]) (VRef (length h))
  = Done (Some argStr) ->
  is_function (default VUndefined (last arguments)) = false ->
  originalFn self arguments
  = {| during := []; completes := Done (VRef a);
       afterwards := [Fulfil v] |} ->
  h !! a = Some OPromise ->
  let path := filepath_of P opts argStr in
  let errors := h ++ [fs_error P code path] in
  responseSerializer opts (h ++ [OArr [v]]) (VRef (length h)) = Done r1 ->
  responseSerializer opts (errors ++ [OArr [VRef (length h)]])
    (VRef (length errors)) = Done r2 ->
  files !! path = Some (Failing code) ->
  let e := session P h opts originalFn self arguments (start files) in
  e.1 = Done RetPromise
  /\ filter (fun ev => is_delivery ev = true) (trace e.2)
     = [EvSettled (Rejected (Exception (SystemError code path)))]
  /\ wrappedCallData e.2
     = [("callArgs", VStr argStr); ("returnedPromise", VBool true);
        ("promiseResolutionArgs", of_option r1);
        ("promiseRejectionArgs", of_option r2)]
  /\ fs e.2 = files.
Proof.
  intros Hm Hser Hlast Hbeh Ha path errors Hr1 Hr2 Hfail e. subst e.
  assert (mode opts <> Some "live") as Hl by (rewrite Hm; discriminate).
  rewrite session_unfold.
  rewrite (wrapper_prepares P h opts originalFn self arguments (start files)
             argStr Hl Hser).
  rewrite bool_decide_eq_true_2 by done. rewrite Hlast.
  unfold capture, apply_original. rewrite Hbeh. run.
  cbn [truthy then_of]. rewrite Ha. run. cbn [truthy app].
  rewrite assign_fresh by (apply (bool_decide_unpack _); vm_compute; exact I).
  cbn [app].
  rewrite later_unfold. run. unfold deliver. run.
  unfold on_fulfilled. run. rewrite Hr1. run.
  rewrite assign_fresh by (apply (bool_decide_unpack _); vm_compute; exact I).
  cbn [app].
  rewrite write_record
    by (run; repeat constructor; simpl; try done; by destruct r1).
  run. fold path. rewrite Hfail.
  unfold caught, catch_handler. run. fold path errors. rewrite Hr2. run.
  rewrite assign_fresh by (apply (bool_decide_unpack _); vm_compute; exact I).
  cbn [app].
  rewrite write_record
    by (run; repeat constructor; simpl; try done;
        [by destruct r1|by destruct r2]).
  run. fold path. rewrite Hfail.
  split_and!; try done.
Qed.

(** ** Capture leaves other files alone *)

(** X14.  A capturing wrapper writes to one path only, the fixture of the
    call: every other path of the file system holds at the end what it
    held at the start. *)
Theorem capture_writes_only_its_fixture
  (P : platform) (h : heap) (opts : options) (originalFn : method)
  (self : value) (arguments : list value) (files : gmap string node)
  (argStr : string) :
  mode opts = Some "capture" ->
  argumentSerializer opts (h ++ [OArr arguments]) (VRef (length h))
  = Done (Some argStr) ->
  let e := session P h opts originalFn self arguments (start files) in
  (forall p content, EvWrite p content ∈ trace e.2 ->
     p = filepath_of P opts argStr)
  /\ (forall p, p <> filepath_of P opts argStr -> fs e.2 !! p = files !! p).
Proof.
  intros Hm Hser e.
  destruct (capture_session_invariant P h opts originalFn files
              (fun _ => True) Hm (fun _ _ _ _ => I) self arguments argStr
              Hser) as (_ & Hw & Hf & _).
  fold e in Hw, Hf.
  assert (forall p content, EvWrite p content ∈ trace e.2 ->
            p = filepath_of P opts argStr) as Hpath.
  { intros p content Hin. rewrite Forall_forall in Hw.
    by destruct (Hw _ Hin) as [-> _]. }
  split; [done|].
  intros p Hp. destruct (Hf p) as [Hsame|(content & _ & Hin)]; [done|].
  by destruct (Hp (Hpath _ _ Hin)).
Qed.

(** ** Installing and restoring *)

Lemma get_set_method obj method f :
  get_method (set_method obj method f) method = f.
Proof.
  unfold get_method, set_method. cbn [own]. by rewrite lookup_insert_eq.
Qed.

(** X15.  [wrapAsyncMethod] makes the wrapper an own property of the
    object and touches neither another property nor the prototypes; the
    wrapper's [restore] assigns back what [obj[method]] read when the
    wrapper was built, so that every property reads as it did.  When the
    method was an own property the object is then as it was; otherwise it
    keeps an own property, which holds the inherited method, or
    [undefined] where there was none.  Without an options argument
    [wrapAsyncMethod] throws. *)
Theorem wrap_then_restore
  (P : platform) (obj : target) (method : string)
  (optionsArg : optionsArg) :
  sinon (resolve_options P method optionsArg) = false ->
  wrapAsyncMethod P obj method None
  = Raised (TypeError "Cannot read properties of undefined")
  /\ exists obj' w,
       wrapAsyncMethod P obj method (Some optionsArg) = Done (obj', w)
       /\ get_method obj' method = w
       /\ w = Wrapper method (resolve_options P method optionsArg)
                (get_method obj method)
       /\ (forall other, other <> method ->
             own obj' !! other = own obj !! other)
       /\ inherited obj' = inherited obj
       /\ exists obj'',
            restore obj' w = Done obj''
            /\ (forall name, get_method obj'' name = get_method obj name)
            /\ (forall other, other <> method ->
                  own obj'' !! other = own obj !! other)
            /\ inherited obj'' = inherited obj
            /\ own obj'' !! method = Some (get_method obj method)
            /\ (is_Some (own obj !! method) -> obj'' = obj).
Proof.
  intros Hs. split; [done|].
  unfold wrapAsyncMethod. rewrite Hs.
  eexists _, _. split; [reflexivity|]. split_and!.
  - unfold get_method, set_method. cbn [own]. by rewrite lookup_insert_eq.
  - done.
  - intros other Hne. cbn [set_method own]. by rewrite lookup_insert_ne.
  - done.
  - eexists. split; [reflexivity|]. split_and!.
    + intros name. unfold get_method at 1. cbn [set_method own inherited].
      destruct (decide (name = method)) as [->|Hne].
      * by rewrite lookup_insert_eq.
      * by rewrite !lookup_insert_ne.
    + intros other Hne. cbn [set_method own]. by rewrite !lookup_insert_ne.
    + done.
    + cbn [set_method own]. by rewrite lookup_insert_eq.
    + intros [x Hx]. destruct obj as [o i]. unfold set_method.
      cbn [own inherited] in *. f_equal.
      rewrite insert_insert_eq. unfold get_method. cbn [own].
      rewrite Hx. by apply insert_id.
Qed.

(** X16.  Wrapping a method twice nests the wrappers.  Restoring the outer
    wrapper and then the inner one gives the method back; restoring them
    in the other order leaves the inner wrapper installed, since each
    [restore] puts back what the property held when its wrapper was
    built. *)
Theorem restore_in_order
  (P : platform) (obj : target) (method : string)
  (first second : optionsArg) :
  sinon (resolve_options P method first) = false ->
  sinon (resolve_options P method second) = false ->
  exists obj1 inner obj2 outer,
    wrapAsyncMethod P obj method (Some first) = Done (obj1, inner)
    /\ wrapAsyncMethod P obj1 method (Some second) = Done (obj2, outer)
    /\ outer = Wrapper method (resolve_options P method second) inner
    /\ (exists a b,
          restore obj2 outer = Done a /\ restore a inner = Done b
          /\ get_method a method = inner
          /\ get_method b method = get_method obj method)
    /\ (exists a b,
          restore obj2 inner = Done a /\ restore a outer = Done b
          /\ get_method a method = get_method obj method
          /\ get_method b method = inner).
Proof.
  intros H1 H2. unfold wrapAsyncMethod. rewrite H1, H2.
  eexists _, _, _, _. split; [reflexivity|]. split; [reflexivity|].
  split_and!.
  - by rewrite get_set_method.
  - eexists _, _. split; [reflexivity|]. split; [reflexivity|].
    by rewrite !get_set_method.
  - eexists _, _. split; [reflexivity|]. split; [reflexivity|].
    by rewrite !get_set_method.
Qed.

(** ** The safe serializer on values without cycles *)

(** The traversal of [JSON.stringify] without replacer, where it returns,
    finds what the specification of the safe serializer describes. *)
Lemma plain_entries_agree h
  (rec : serializer_state -> string -> value ->
         serializer_state * run (option json))
  (anc : list addr) (path : list string) es :
  (forall st k x st' r2 r1,
     rec st k x = (st', Done r2) ->
     renders h anc (path ++ [k]) x r1 -> r1 = r2) ->
  forall st st' rs rs1,
    Stringify.ser_entries rec st es = (st', Done rs) ->
    Forall2 (fun kx kr => kx.1 = kr.1 /\ renders h anc (path ++ [kx.1]) kx.2 kr.2)
      es rs1 ->
    rs1 = rs.
Proof.
  intros Hrec. induction es as [|[k x] es IH]; intros st st' rs rs1 Hs Hall.
  - apply Forall2_nil_inv_l in Hall as ->. simpl in Hs. by injection Hs.
  - apply Forall2_cons_inv_l in Hall as ([k1 r1] & rs1' & [Hk Hr] & Hall & ->).
    simpl in *. subst k1.
    destruct (rec st k x) as [st1 [r2| |]] eqn:Hx; try done.
    destruct (Stringify.ser_entries rec st1 es) as [st2 [rs2| |]] eqn:Hes;
      try done.
    injection Hs as <- <-.
    rewrite (Hrec _ _ _ _ _ _ Hx Hr). f_equal. by eapply IH.
Qed.

Lemma plain_property_agrees h fuel :
  forall nstack st holder key v path st' r2 r1,
    Stringify.SerializeJSONProperty h (fun st _ _ x => (st, x)) fuel nstack
      st holder key v = (st', Done r2) ->
    renders h nstack path v r1 ->
    r1 = r2.
Proof.
  induction fuel as [|fuel IH];
    intros nstack st holder key v path st' r2 r1 Hs Hr; [done|].
  rewrite SerializeJSONProperty_step in Hs.
  destruct v as [| |b|n|s|f|a]; simpl in Hs.
  1-6: injection Hs as <- <-; by inversion Hr.
  destruct (h !! a) as [o|] eqn:Ho; [|done].
  case_bool_decide as Hin; [done|].
  destruct (Stringify.ser_entries _ _ _) as [st2 [rs| |]] eqn:Hes; try done.
  injection Hs as <- <-.
  inversion Hr as [| | | | | |anc p a' i Hi|anc p a' o' rs1 Hnin Ho' Hall];
    subst.
  { destruct Hin. by eapply list_elem_of_lookup_2. }
  rewrite Ho in Ho'. injection Ho' as <-.
  f_equal. f_equal.
  eapply (plain_entries_agree h _ (nstack ++ [a]) path); [|exact Hes|].
  - intros st0 k x st0' r2' r1' Hx Hx1.
    exact (IH _ _ _ _ _ _ _ _ _ Hx Hx1).
  - done.
Qed.

(** X17.  On a value that [JSON.stringify] itself serializes (one without
    cycles), [stringifySafe] returns exactly what [JSON.stringify] returns:
    the safe replacer changes nothing where there is no cycle. *)
Theorem stringifySafe_agrees_with_stringify (h : heap) (v : value)
  (spaces : option string) (r : option string) :
  heap_closed h ->
  value_closed h v ->
  Stringify.stringify h (fun st _ _ x => (st, x))
    (String.substring 0 10 (default EmptyString spaces)) v = Done r ->
  stringifySafe h v None spaces None = Done r.
Proof.
  intros Hh Hv Hplain.
  destruct (stringifySafe_spec h Hh v spaces Hv) as (r1 & -> & Hr).
  unfold Stringify.stringify in Hplain.
  destruct (Stringify.SerializeJSONProperty _ _ _ _ _ _ _ _)
    as [st' [r2| |]] eqn:Hs; try done.
  injection Hplain as <-.
  by rewrite (plain_property_agrees h _ _ _ _ _ _ [] _ _ _ Hs Hr).
Qed.

(** X18.  Whatever string [stringifySafe] returns for a value of a closed
    heap, with white space for indentation, is a JSON text: [JSON.parse]
    reads it back as the value in which each reference to an ancestor is
    the marker of that ancestor. *)
Theorem stringifySafe_prints_json (h : heap) (v : value)
  (spaces : option string) (text : string) :
  heap_closed h ->
  value_closed h v ->
  blank (chars (String.substring 0 10 (default EmptyString spaces))) ->
  stringifySafe h v None spaces None = Done (Some text) ->
  exists j, JSON.parse_text text = Done j /\ renders h [] [] v (Some j).
Proof.
  intros Hh Hv Hgap Htext.
  destruct (stringifySafe_spec h Hh v spaces Hv) as (r & Hs & Hr).
  rewrite Hs in Htext. destruct r as [j|]; [|done].
  injection Htext as <-. exists j. split; [|done].
  eapply (parse_text_rendered _ _ j []); [by rewrite app_nil_r|done|].
  constructor.
Qed.

(** ** The fingerprint  (lines 93-98) *)

Lemma chars_of_list l : chars (String.string_of_list_ascii l) = l.
Proof. induction l as [|c l IH]; [done|]. simpl. by rewrite IH. Qed.

Lemma chars_substring n s : chars (String.substring 0 n s) = take n (chars s).
Proof.
  revert s. induction n as [|n IH]; intros [|c s]; simpl; try done.
  by rewrite IH.
Qed.

Lemma round_length s kw : length s = 8 -> length (SHA256.round s kw) = 8.
Proof.
  intros Hs. do 9 (destruct s as [|? s]; try done).
Qed.

Lemma compress_length hs block :
  length hs = 8 -> length (SHA256.compress hs block) = 8.
Proof.
  intros Hs. unfold SHA256.compress.
  rewrite length_zip_with.
  assert (forall kws s, length s = 8 ->
            length (fold_left SHA256.round kws s) = 8) as Hfold.
  { induction kws as [|kw kws IH]; intros s Hl; [done|].
    simpl. apply IH. by apply round_length. }
  rewrite Hfold by done. lia.
Qed.

Lemma blocks_length n hs bytes :
  length hs = 8 -> length (SHA256.blocks n hs bytes) = 8.
Proof.
  revert hs bytes. induction n as [|n IH]; intros hs bytes Hs; [done|].
  simpl. apply IH. by apply compress_length.
Qed.

Lemma hex_in_digits n : SHA256.hex n ∈ chars "0123456789abcdef".
Proof.
  unfold SHA256.hex, JSON.hex_digit.
  generalize (Z.to_nat n). intros k.
  do 16 (destruct k as [|k]; [apply (bool_decide_unpack _); by vm_compute|]).
  rewrite nth_overflow by (simpl; lia).
  apply (bool_decide_unpack _). by vm_compute.
Qed.

Lemma word_hex x :
  let l := concat (map SHA256.hex_of_byte (SHA256.be_bytes 4 x)) in
  length l = 8 /\ Forall (fun c => c ∈ chars "0123456789abcdef") l.
Proof.
  split; [done|]. cbn [SHA256.be_bytes map concat SHA256.hex_of_byte app].
  repeat (apply Forall_cons_2; [apply hex_in_digits|]). apply Forall_nil_2.
Qed.

Lemma digest_hex_shape s :
  length (chars (SHA256.digest_hex s)) = 64
  /\ Forall (fun c => c ∈ chars "0123456789abcdef")
       (chars (SHA256.digest_hex s)).
Proof.
  unfold SHA256.digest_hex. rewrite chars_of_list.
  set (hs := SHA256.blocks _ _ _).
  assert (length hs = 8) as Hlen by (by apply blocks_length).
  clearbody hs.
  assert (length (concat (map (fun x => concat (map SHA256.hex_of_byte
                                                  (SHA256.be_bytes 4 x))) hs))
          = 8 * length hs
          /\ Forall (fun c => c ∈ chars "0123456789abcdef")
               (concat (map (fun x => concat (map SHA256.hex_of_byte
                                                (SHA256.be_bytes 4 x))) hs)))
    as [H1 H2].
  { clear Hlen. induction hs as [|x hs [IH1 IH2]]; [by split|].
    destruct (word_hex x) as [W1 W2].
    cbn [map concat]. split.
    - rewrite length_app, W1, IH1. simpl. lia.
    - by apply Forall_app. }
  split; [by rewrite H1, Hlen|done].
Qed.

(** X19.  With the SHA-256 of the platform, the fingerprint of a call is
    twelve characters long, each a digit or a letter from [a] to [f]. *)
Theorem hashKey_is_twelve_hex_digits (env : option string)
  (argStr : string) :
  let key := hashKey (Posix.platform_of env) argStr in
  length (chars key) = 12
  /\ Forall (fun c => c ∈ chars "0123456789abcdef") (chars key).
Proof.
  simpl. unfold hashKey, HASH_LENGTH. cbn [sha256_hex Posix.platform_of].
  rewrite chars_substring.
  destruct (digest_hex_shape argStr) as [Hlen Hall]. split.
  - rewrite length_take. lia.
  - by apply Forall_take.
Qed.

(** ** Capture reads nothing *)

Lemma unread_log e :
  is_read e = false -> triple unread (log e) (fun _ => unread) unread.
Proof.
  intros He s Hs. unfold log, modify, unread in *. simpl.
  apply Forall_app. split; [done|]. by constructor.
Qed.

Lemma unread_same {A} (m : M A) :
  (forall s, trace (m s).2 = trace s) ->
  triple unread m (fun _ => unread) unread.
Proof.
  intros Hm s Hs. specialize (Hm s). unfold unread in *.
  destruct (m s) as [[a| |] s']; simpl in *; by rewrite Hm.
Qed.

Lemma unread_write P h :
  triple unread (writeWrappedCallData P h) (fun _ => unread) unread.
Proof.
  unfold writeWrappedCallData.
  eapply triple_bind; [apply (unread_same get_state); done|]. intros s0.
  eapply triple_bind.
  { apply (unread_same (lift _)). done. }
  intros text. unfold writeFileSync.
  eapply triple_bind; [by apply unread_log|]. intros ?.
  eapply triple_bind; [apply (unread_same get_state); done|]. intros s1.
  destruct (fs s1 !! filepath s0) as [[c|code]|];
    by apply unread_same.
Qed.

Lemma unread_call_callback f args :
  triple unread (call_callback f args) (fun _ => unread) unread.
Proof.
  unfold call_callback.
  destruct f as [| | | | |[id|]|]; try (by apply unread_same).
  by apply unread_log.
Qed.

Lemma unread_set_field key v :
  triple unread (set_field key v) (fun _ => unread) unread.
Proof. by apply unread_same. Qed.

Lemma unread_proxy P h opts args :
  triple unread (proxy P h opts args) (fun _ => unread) unread.
Proof.
  unfold proxy.
  eapply triple_bind; [by apply unread_same|]. intros r.
  eapply triple_bind; [apply unread_set_field|]. intros ?.
  eapply triple_bind; [apply unread_write|]. intros ?.
  eapply triple_bind; [apply (unread_same get_state); done|]. intros s.
  apply unread_call_callback.
Qed.

Lemma unread_invoke P h opts f args :
  triple unread (invoke P h opts f args) (fun _ => unread) unread.
Proof.
  unfold invoke.
  eapply triple_bind; [apply (unread_same get_state); done|]. intros s.
  destruct f as [| | | | |[id|]|]; try (by apply unread_same).
  - by apply unread_log.
  - destruct (proxy_built s); [apply unread_proxy|by apply unread_log].
Qed.

Lemma unread_capture P h opts originalFn self args :
  triple unread (capture P h opts originalFn self args)
    (fun _ => unread) unread.
Proof.
  unfold capture, apply_original.
  eapply triple_bind.
  { eapply triple_bind; [by apply unread_log|]. intros ?.
    eapply triple_bind; [by apply unread_same|]. intros ?.
    eapply triple_bind.
    - apply triple_for_each. intros [f xs]. apply unread_invoke.
    - intros ?. by apply unread_same. }
  intros returnValue.
  eapply triple_bind; [by apply unread_same|]. intros t.
  eapply triple_bind; [apply unread_set_field|]. intros ?.
  destruct (truthy _).
  - destruct t as [| |[| | | | | |]]; by apply unread_same.
  - eapply triple_bind; [by apply unread_same|]. intros r.
    eapply triple_bind; [apply unread_set_field|]. intros ?.
    by apply unread_same.
Qed.

Lemma unread_catch_handler P h opts h' reason d :
  triple unread (catch_handler P h opts h' reason d) (fun _ => unread) unread.
Proof.
  unfold catch_handler. apply triple_try.
  - eapply triple_bind; [by apply unread_same|]. intros r.
    eapply triple_bind; [apply unread_set_field|]. intros ?.
    eapply triple_bind; [apply unread_write|]. intros ?.
    by apply unread_log.
  - intros e. by apply unread_log.
Qed.

Lemma unread_deliver P h opts a :
  triple unread (deliver P h opts a) (fun _ => unread) unread.
Proof.
  unfold deliver.
  eapply triple_bind; [apply (unread_same get_state); done|]. intros s.
  destruct a as [f args|v|v].
  - apply unread_invoke.
  - destruct (chained s); [|by apply unread_log].
    unfold on_fulfilled.
    eapply triple_bind; [by apply unread_same|]. intros ?.
    apply triple_try.
    + eapply triple_bind; [by apply unread_same|]. intros r.
      eapply triple_bind; [apply unread_set_field|]. intros ?.
      eapply triple_bind; [apply unread_write|]. intros ?.
      by apply unread_log.
    + intros e. destruct (caught P h e) as [h' reason].
      apply unread_catch_handler.
  - destruct (chained s); [|by apply unread_log].
    unfold on_rejected.
    eapply triple_bind; [by apply unread_same|]. intros ?.
    apply unread_catch_handler.
Qed.

Lemma unread_run_task t :
  triple unread (run_task t) (fun _ => unread) unread.
Proof.
  intros s Hs.
  destruct (run_tasks_deliver [t] s) as (evs & Ht & Hev).
  simpl in Ht. unfold bind in Ht.
  assert (unread (run_task t s).2) as Hu.
  { destruct (run_task t s) as [[[]| |] s']; simpl in *; unfold unread;
      rewrite Ht; (apply Forall_app; split; [done|]);
      (eapply Forall_impl; [exact Hev|]); by intros [].  }
  by destruct (run_task t s) as [[[]| |] s'].
Qed.

(** X20.  A capturing wrapper reads no file: whatever fixture exists for
    the call is overwritten unread. *)
Theorem capture_reads_nothing
  (P : platform) (h : heap) (opts : options) (originalFn : method)
  (self : value) (arguments : list value) (files : gmap string node) :
  mode opts = Some "capture" ->
  let e := session P h opts originalFn self arguments (start files) in
  Forall (fun ev => is_read ev = false) (trace e.2).
Proof.
  intros Hm e.
  assert (triple unread (session P h opts originalFn self arguments)
            (fun _ => unread) unread) as Hs.
  { unfold session.
    eapply triple_bind.
    - unfold wrapper. rewrite bool_decide_eq_false_2
        by (rewrite Hm; discriminate).
      eapply triple_bind; [by apply unread_same|]. intros [argStr|];
        [|by apply unread_same].
      eapply triple_bind; [by apply unread_same|]. intros ?.
      eapply triple_bind; [by apply unread_same|]. intros ?.
      eapply triple_bind.
      { destruct (is_function _); [|by apply unread_same].
        destruct (callbackSwap opts arguments (VFun ProxyFn)) as [a' o].
        by apply unread_same. }
      intros args'. rewrite bool_decide_eq_true_2 by done.
      apply unread_capture.
    - intros r. eapply triple_bind; [|intros ?; by apply unread_same].
      unfold later.
      eapply triple_bind; [apply (unread_same get_state); done|]. intros s0.
      eapply triple_bind; [by apply unread_same|]. intros ?.
      eapply triple_bind.
      { apply triple_for_each. intros t. apply unread_run_task. }
      intros ?.
      eapply triple_bind; [apply (unread_same get_state); done|]. intros s1.
      eapply triple_bind; [by apply unread_same|]. intros ?.
      apply triple_for_each. intros act. apply unread_deliver. }
  specialize (Hs (start files) ltac:(constructor)). fold e in Hs.
  by destruct e as [[r| |] s].
Qed.

(** ** Functions among the arguments *)

Lemma indexOf_function l f :
  Forall (fun x => exists a, x = VRef a) l -> indexOf l (VFun f) = None.
Proof.
  induction 1 as [|x l [a ->] _ IH]; [done|].
  cbn [indexOf]. unfold strict_eq.
  rewrite bool_decide_eq_false_2 by done. by rewrite IH.
Qed.

(** Lines 46-59 on a stack that holds the root. *)
Lemma replacer_keeps_objects st a key v :
  holds_objects st ->
  holds_objects (stringifySafeSerializer None None st (VRef a) key v).1.
Proof.
  intros [Hne Hall]. unfold stringifySafeSerializer.
  assert (0 <? length (stack st) = true) as ->.
  { apply Nat.ltb_lt. destruct (stack st); [done|simpl; lia]. }
  assert (holds_objects
            match indexOf (stack st) (VRef a) with
            | Some p => {| stack := take (p + 1) (stack st);
                           keys := take p (keys st) ++ [key] |}
            | None => {| stack := stack st ++ [VRef a];
                         keys := keys st ++ [key] |}
            end) as Hst.
  { destruct (indexOf (stack st) (VRef a)) as [p|]; split; simpl.
    - destruct (stack st); [done|]. by rewrite Nat.add_1_r.
    - by apply Forall_take.
    - by destruct (stack st).
    - apply Forall_app. split; [done|]. constructor; [by eexists|done]. }
  by destruct (indexOf _ v).
Qed.

Lemma replacer_on_function st a key :
  holds_objects st ->
  exists st', forall f,
    stringifySafeSerializer None None st (VRef a) key (VFun f)
    = (st', VFun f).
Proof.
  intros [Hne Hall]. unfold stringifySafeSerializer.
  assert (0 <? length (stack st) = true) as ->.
  { apply Nat.ltb_lt. destruct (stack st); [done|simpl; lia]. }
  eexists. intros f. rewrite indexOf_function; [reflexivity|].
  destruct (indexOf (stack st) (VRef a)) as [p|]; simpl.
  - by apply Forall_take.
  - apply Forall_app. split; [done|]. constructor; [by eexists|done].
Qed.

Lemma replacer_result st this key v :
  (stringifySafeSerializer None None st this key v).2 = v
  \/ exists s, (stringifySafeSerializer None None st this key v).2 = VStr s.
Proof.
  unfold stringifySafeSerializer.
  destruct (0 <? length (stack st)); [|by left].
  destruct (indexOf _ v); [|by left].
  right. unfold defaultCycleReplacer. cbn [snd].
  destruct (strict_eq _ v); by eexists.
Qed.

Lemma ser_entries_ext
  (rec1 rec2 : serializer_state -> string -> value ->
               serializer_state * run (option json)) st es :
  Forall (fun kx => forall st, rec1 st kx.1 kx.2 = rec2 st kx.1 kx.2) es ->
  Stringify.ser_entries rec1 st es = Stringify.ser_entries rec2 st es.
Proof.
  intros Hall. revert st.
  induction Hall as [|[k x] es Hx _ IH]; intros st; [done|].
  simpl in *. rewrite Hx. destruct (rec2 st k x) as [st1 [r| |]]; try done.
  by rewrite IH.
Qed.

Lemma ser_entries_app
  (rec : serializer_state -> string -> value ->
         serializer_state * run (option json)) st es1 es2 :
  Stringify.ser_entries rec st (es1 ++ es2)
  = match Stringify.ser_entries rec st es1 with
    | (st1, Done rs1) =>
      match Stringify.ser_entries rec st1 es2 with
      | (st2, Done rs2) => (st2, Done (rs1 ++ rs2))
      | other => other
      end
    | other => other
    end.
Proof.
  revert st. induction es1 as [|[k x] es1 IH]; intros st; simpl.
  - by destruct (Stringify.ser_entries rec st es2) as [st2 [rs2| |]].
  - destruct (rec st k x) as [st1 [r| |]]; try done.
    rewrite IH.
    destruct (Stringify.ser_entries rec st1 es1) as [st2 [rs1| |]]; try done.
    by destruct (Stringify.ser_entries rec st2 es2) as [st3 [rs2| |]].
Qed.

(** The traversal of a value of [h] does not see what lies beyond [h]. *)
Lemma property_below h o1 o2 fuel :
  heap_closed h ->
  forall nstack st holder key v,
    value_closed h v ->
    Stringify.SerializeJSONProperty (h ++ [o1])
      (stringifySafeSerializer None None) fuel nstack st holder key v
    = Stringify.SerializeJSONProperty (h ++ [o2])
        (stringifySafeSerializer None None) fuel nstack st holder key v.
Proof.
  intros Hh. induction fuel as [|fuel IH];
    intros nstack st holder key v Hv; [done|].
  rewrite !SerializeJSONProperty_step.
  pose proof (replacer_result st holder key v) as Hres.
  destruct (stringifySafeSerializer None None st holder key v) as [st1 v1].
  simpl in Hres.
  destruct v1 as [| | | | | |a]; try done.
  destruct Hres as [<-|[s Hs]]; [|done].
  simpl in Hv. rewrite !lookup_app_l by done.
  destruct (h !! a) as [o|] eqn:Ho; [|done].
  case_bool_decide; [done|].
  rewrite (ser_entries_ext _
             (fun s k x =>
                Stringify.SerializeJSONProperty (h ++ [o2])
                  (stringifySafeSerializer None None) fuel (nstack ++ [a])
                  s (VRef a) k x)); [done|].
  unfold heap_closed in Hh. rewrite Forall_forall in Hh.
  specialize (Hh o (list_elem_of_lookup_2 _ _ _ Ho)).
  eapply Forall_impl; [exact Hh|]. intros [k x] Hx st'. by apply IH.
Qed.

(** The traversal keeps the stack of the replacer in shape. *)
Lemma property_keeps_objects hh fuel :
  forall nstack st a key v,
    holds_objects st ->
    holds_objects
      (Stringify.SerializeJSONProperty hh (stringifySafeSerializer None None)
         fuel nstack st (VRef a) key v).1.
Proof.
  induction fuel as [|fuel IH]; intros nstack st a key v Hst; [done|].
  rewrite SerializeJSONProperty_step.
  pose proof (replacer_keeps_objects st a key v Hst) as Hst1.
  destruct (stringifySafeSerializer None None st (VRef a) key v) as [st1 v1].
  simpl in Hst1.
  destruct v1 as [| | | | | |a']; try done.
  destruct (hh !! a') as [o|]; [|done].
  case_bool_decide; [done|].
  assert (forall es st0, holds_objects st0 ->
            holds_objects
              (Stringify.ser_entries
                 (fun s k x =>
                    Stringify.SerializeJSONProperty hh
                      (stringifySafeSerializer None None) fuel
                      (nstack ++ [a']) s (VRef a') k x) st0 es).1) as Hes.
  { induction es as [|[k x] es IHes]; intros st0 Hst0; [done|].
    simpl. specialize (IH (nstack ++ [a']) st0 a' k x Hst0).
    destruct (Stringify.SerializeJSONProperty _ _ _ _ _ _ _ _)
      as [st2 [r| |]]; try done.
    specialize (IHes st2 IH).
    by destruct (Stringify.ser_entries _ st2 es) as [st3 [rs| |]]. }
  specialize (Hes (entries o) st1 Hst1).
  by destruct (Stringify.ser_entries _ st1 (entries o)) as [st2 [rs| |]].
Qed.

Lemma entries_keep_objects hh fuel nstack a es :
  forall st,
    holds_objects st ->
    holds_objects
      (Stringify.ser_entries
         (fun s k x =>
            Stringify.SerializeJSONProperty hh
              (stringifySafeSerializer None None) fuel nstack s (VRef a) k x)
         st es).1.
Proof.
  induction es as [|[k x] es IH]; intros st Hst; [done|].
  simpl. pose proof (property_keeps_objects hh fuel nstack st a k x Hst) as H1.
  destruct (Stringify.SerializeJSONProperty _ _ _ _ _ _ _ _)
    as [st2 [r| |]]; try done.
  specialize (IH st2 H1).
  by destruct (Stringify.ser_entries _ st2 es) as [st3 [rs| |]].
Qed.

(** X21.  The default serializer gives two argument lists that differ in
    their last argument only, a function in both, the same string: a
    function is printed as [null], whichever function it is.  Two calls
    that differ in their callback only have the same [argStr], hence the
    same fingerprint and fixture. *)
Theorem callback_is_not_in_the_fingerprint (h : heap) (front : list value)
  (f g : func) :
  heap_closed h ->
  Forall (value_closed h) front ->
  serialize_list h defaultSerializer (front ++ [VFun f])
  = serialize_list h defaultSerializer (front ++ [VFun g]).
Proof.
  intros Hh Hfront. unfold serialize_list. f_equal.
  unfold defaultSerializer, stringifySafe, Stringify.stringify.
  rewrite !length_app. cbn [length].
  rewrite !SerializeJSONProperty_step.
  unfold stringifySafeSerializer at 1 3.
  cbn [stack keys fresh_state length Nat.ltb Nat.leb app].
  rewrite !lookup_app_r, Nat.sub_diag by done. cbn [lookup list_lookup].
  rewrite bool_decide_eq_false_2 by apply not_elem_of_nil.
  replace (length h + 1) with (S (length h)) by lia.
  cbn [entries app]. rewrite !imap_app. cbn [imap].
  rewrite !ser_entries_app.
  set (st1 := {| stack := [VRef (length h)]; keys := [] |}).
  assert (holds_objects st1) as Hst1.
  { split; [done|]. constructor; [by eexists|done]. }
  rewrite (ser_entries_ext _
             (fun s k x =>
                Stringify.SerializeJSONProperty
                  (h ++ [OArr (front ++ [VFun g])])
                  (stringifySafeSerializer None None) (S (length h))
                  [length h] s (VRef (length h)) k x)).
  2: { apply Forall_forall. intros [k x] Hin st.
       apply elem_of_lookup_imap in Hin as (i & y & [= -> ->] & Hy).
       apply property_below; [done|].
       rewrite Forall_forall in Hfront. apply Hfront.
       by eapply list_elem_of_lookup_2. }
  pose proof (entries_keep_objects (h ++ [OArr (front ++ [VFun g])])
                (S (length h)) [length h] (length h)
                (imap (fun i x => (pretty i, x)) front) st1 Hst1) as Hst2.
  destruct (Stringify.ser_entries _ st1 _) as [st2 [rs| |]]; try done.
  simpl in Hst2.
  destruct (replacer_on_function st2 (length h)
              (pretty (length front + 0)) Hst2) as (st3 & Hfun).
  cbn [Stringify.ser_entries].
  rewrite !SerializeJSONProperty_step, !Hfun. done.
Qed.

(** ** The properties at concrete calls *)

Import Cases.

Lemma objects_closed : heap_closed objects.
Proof. unfold heap_closed, objects. repeat constructor; simpl; lia. Qed.

Lemma plain_closed : heap_closed plain.
Proof. unfold heap_closed, plain. repeat constructor; simpl; lia. Qed.

Lemma stringifySafe_is_undefined_iff_witness :
  stringifySafe objects the_callback None None None = Done None
  <-> the_callback = VUndefined \/ is_function the_callback = true.
Proof.
  apply (stringifySafe_is_undefined_iff objects the_callback None).
  - exact objects_closed.
  - exact I.
Defined.

Lemma defaultCallbackSwap_round_trip_witness :
  let '(args', origCallback) :=
    defaultCallbackSwap [VNum 1; the_callback] (VFun ProxyFn) in
  length args' = length [VNum 1; the_callback]
  /\ last args' = Some (VFun ProxyFn)
  /\ last [VNum 1; the_callback] = Some origCallback
  /\ (forall i, i <> length [VNum 1; the_callback] - 1 ->
        args' !! i = [VNum 1; the_callback] !! i)
  /\ defaultCallbackSwap args' origCallback
     = ([VNum 1; the_callback], VFun ProxyFn).
Proof.
  apply (defaultCallbackSwap_round_trip [VNum 1; the_callback]
           (VFun ProxyFn)).
  discriminate.
Defined.

Lemma mode_is_live_or_capture_iff_witness :
  mode (resolve_options P0 "fetch" (OptObject (with_mode None)))
  = Some "capture"
  <-> field arg_mode (OptObject (with_mode None)) = Some "capture"
      \/ ((field arg_mode (OptObject (with_mode None)) = None
           \/ field arg_mode (OptObject (with_mode None))
              = Some EmptyString)
          /\ TEST_MODE P0 = Some "capture").
Proof.
  apply (mode_is_live_or_capture_iff P0 "fetch"
           (OptObject (with_mode None)) "capture").
  right. reflexivity.
Defined.

(** Replaying [seven(1)] from a file that is no JSON text. *)
Lemma replay_of_unparsable_fixture_throws_witness :
  let w := wrapper P0 [] replay_opts seven VUndefined [VNum 1]
             (start garbled) in
  w.1 = Raised JSON.syntax_error
  /\ trace w.2 = [EvRead (filepath_of P0 replay_opts "[1]")]
  /\ queue w.2 = []
  /\ session P0 [] replay_opts seven VUndefined [VNum 1] (start garbled) = w.
Proof.
  apply (replay_of_unparsable_fixture_throws P0 [] replay_opts seven
           VUndefined [VNum 1] garbled "[1]" "{ callArgs: [1]"
           JSON.syntax_error
           replay_opts_not_live replay_opts_not_capture argStr_of_one);
    vm_compute; reflexivity.
Defined.

(** Replaying [seven(1)], a call without callback, from a fixture that
    holds callback arguments and a return value. *)
Lemma replay_callback_without_callback_throws_witness :
  let w := wrapper P0 [] replay_opts seven VUndefined [VNum 1]
             (start (answered fixture_of_one "[1]")) in
  let e := session P0 [] replay_opts seven VUndefined [VNum 1]
             (start (answered fixture_of_one "[1]")) in
  (exists r, w.1 = Done r)
  /\ trace w.2 = [EvRead (filepath_of P0 replay_opts "[1]")]
  /\ e.1 = Raised (TypeError "Cannot read properties of undefined")
  /\ trace e.2 = [EvRead (filepath_of P0 replay_opts "[1]")].
Proof.
  apply (replay_callback_without_callback_throws P0 [] replay_opts seven
           VUndefined [VNum 1] (answered fixture_of_one "[1]") "[1]"
           (fixture_text P0 (members_of_answer "[1]"))
           (members_of_answer "[1]")
           replay_opts_not_live replay_opts_not_capture argStr_of_one).
  - vm_compute. reflexivity.
  - vm_compute. reflexivity.
  - vm_compute. reflexivity.
  - vm_compute. reflexivity.
  - right. exists (JNum 5). vm_compute. reflexivity.
Defined.

Lemma argStr_of_fetch :
  argumentSerializer replay_opts ([] ++ [OArr ([VNum 42] ++ [VFun (UserFn 1)])])
    (VRef (length ([] : heap)))
  = Done (Some "[42,null]").
Proof. vm_compute. reflexivity. Qed.

(** Replaying [answer(42, cb)]. *)
Lemma replay_delivers_callback_and_return_value_witness :
  let files := answered fixture_of_fetch "[42,null]" in
  let w := wrapper P0 [] replay_opts answer VUndefined
             ([VNum 42] ++ [VFun (UserFn 1)]) (start files) in
  let e := session P0 [] replay_opts answer VUndefined
             ([VNum 42] ++ [VFun (UserFn 1)]) (start files) in
  w.1 = Done (RetValue (Fresh (JNum 5)))
  /\ trace w.2 = [EvRead (filepath_of P0 replay_opts "[42,null]")]
  /\ e.1 = Done (RetValue (Fresh (JNum 5)))
  /\ trace e.2 = [EvRead (filepath_of P0 replay_opts "[42,null]");
                  EvCallback (VFun (UserFn 1)) (Fresh <$> [JNull; JNum 7])]
  /\ fs e.2 = files.
Proof.
  apply (replay_delivers_callback_and_return_value P0 [] replay_opts answer
           VUndefined [VNum 42] 1 (answered fixture_of_fetch "[42,null]")
           "[42,null]"
           (fixture_text P0 (members_of_answer "[42,null]"))
           (members_of_answer "[42,null]") [JNull; JNum 7] (JNum 5)
           replay_opts_not_live replay_opts_not_capture eq_refl
           argStr_of_fetch);
    vm_compute; reflexivity.
Defined.

(** Replaying [resolving(1)]. *)
Lemma replay_settles_promise_from_fixture_witness :
  let e := session P0 [] replay_opts resolving VUndefined [VNum 1]
             (start resolved) in
  e.1 = Done RetPromise
  /\ trace e.2 = [EvRead (filepath_of P0 replay_opts "[1]");
                  EvSettled (Resolved (first_argument [JNum 8]))].
Proof.
  refine (proj1 (proj2 (proj2
    (replay_settles_promise_from_fixture P0 [] replay_opts resolving
       VUndefined [VNum 1] resolved "[1]"
       (fixture_text P0 members_of_resolved) members_of_resolved
       replay_opts_not_live replay_opts_not_capture argStr_of_one
       _ _ _ _))) [JNum 8] _ _);
    vm_compute; reflexivity.
Defined.

Lemma replay_only_reads_its_fixture_witness :
  let e := session P0 [] replay_opts resolving VUndefined [VNum 1]
             (start resolved) in
  fs e.2 = resolved
  /\ (trace e.2 = []
      \/ exists argStr evs,
           argumentSerializer replay_opts ([] ++ [OArr [VNum 1]])
             (VRef (length ([] : heap)))
           = Done (Some argStr)
           /\ trace e.2 = EvRead (filepath_of P0 replay_opts argStr) :: evs
           /\ Forall (fun ev => is_delivery ev = true) evs).
Proof.
  apply (replay_only_reads_its_fixture P0 [] replay_opts resolving
           VUndefined [VNum 1] resolved
           replay_opts_not_live replay_opts_not_capture).
Defined.

Lemma with_argumentSerializer_not_live f :
  mode (with_argumentSerializer f) <> Some "live".
Proof. exact replay_opts_not_live. Qed.

(** A call whose arguments the serializer of the user refuses, and one for
    which it returns [undefined]. *)
Lemma unserializable_arguments_throw_first_witness :
  session P0 [] (with_argumentSerializer (fun _ _ => Raised (Error "no")))
    seven VUndefined [VNum 1] (start resolved)
  = (Raised (Error "no"), start resolved)
  /\ session P0 [] (with_argumentSerializer (fun _ _ => Done None))
       seven VUndefined [VNum 1] (start resolved)
     = (Raised (TypeError "The data argument must be of type string"),
        start resolved).
Proof.
  split.
  - apply (proj1 (unserializable_arguments_throw_first P0 []
                    (with_argumentSerializer (fun _ _ => Raised (Error "no")))
                    seven VUndefined [VNum 1] resolved
                    (with_argumentSerializer_not_live _))).
    reflexivity.
  - apply (proj2 (unserializable_arguments_throw_first P0 []
                    (with_argumentSerializer (fun _ _ => Done None))
                    seven VUndefined [VNum 1] resolved
                    (with_argumentSerializer_not_live _))).
    reflexivity.
Defined.

Lemma blank_EOL : blank (chars (EOL P0)).
Proof. repeat constructor. Qed.

Lemma argStr_of_one_in_objects :
  argumentSerializer capture_opts (objects ++ [OArr [VNum 1]])
    (VRef (length objects))
  = Done (Some "[1]").
Proof. vm_compute. reflexivity. Qed.

Lemma nothing_refused (path : string) :
  forall code, (∅ : gmap string node) !! path <> Some (Failing code).
Proof. intros code. rewrite lookup_empty. discriminate. Qed.

(** Capture, then replay, of [resolving(1)]. *)
Lemma capture_then_replay_settles_alike_witness :
  let path := filepath_of P0 capture_opts "[1]" in
  let c := session P0 objects capture_opts resolving VUndefined [VNum 1]
             (start ∅) in
  let r := session P0 objects replay_opts seven VUndefined [VNum 1]
             (start (fs c.2)) in
  exists j content,
    json_form (objects ++ [OArr [VNum 8]]) (length objects) 0 (VNum 8) j
    /\ c.1 = Done RetPromise
    /\ trace c.2
       = [EvOriginal VUndefined [VNum 1]; EvWrite path content;
          EvSettled (Resolved (Heap (VNum 8)))]
    /\ r.1 = Done RetPromise
    /\ trace r.2 = [EvRead path; EvSettled (Resolved (Fresh j))].
Proof.
  apply (capture_then_replay_settles_alike P0 objects capture_opts
           replay_opts resolving seven VUndefined [VNum 1] ∅ "[1]" 0 true
           (VNum 8) objects_closed I blank_EOL capture_opts_capture
           replay_opts_not_live replay_opts_not_capture
           eq_refl eq_refl eq_refl eq_refl argStr_of_one_in_objects
           eq_refl eq_refl eq_refl (nothing_refused _)).
Defined.

Lemma argStr_of_fetch_in_objects :
  argumentSerializer capture_opts
    (objects ++ [OArr ([VNum 42] ++ [VFun (UserFn 1)])])
    (VRef (length objects))
  = Done (Some "[42,null]").
Proof. vm_compute. reflexivity. Qed.

(** Capture, then replay, of [answer(42, cb)]. *)
Lemma capture_then_replay_calls_back_alike_witness :
  let arguments := [VNum 42] ++ [VFun (UserFn 1)] in
  let xs := [VNull; VNum 7] in
  let path := filepath_of P0 capture_opts "[42,null]" in
  let c := session P0 objects capture_opts answer VUndefined arguments
             (start ∅) in
  let r := session P0 objects replay_opts seven VUndefined arguments
             (start (fs c.2)) in
  exists jret js content,
    renders objects [] [] (VNum 5) (Some jret)
    /\ length js = length xs
    /\ (forall i x, xs !! i = Some x ->
          exists j, js !! i = Some j
                    /\ json_form (objects ++ [OArr xs]) (length objects)
                         i x j)
    /\ c.1 = Done (RetValue (Heap (VNum 5)))
    /\ trace c.2
       = [EvOriginal VUndefined ([VNum 42] ++ [VFun ProxyFn]);
          EvWrite path content;
          EvCallback (VFun (UserFn 1)) (Heap <$> xs)]
    /\ r.1 = Done (RetValue (Fresh jret))
    /\ trace r.2
       = [EvRead path; EvCallback (VFun (UserFn 1)) (Fresh <$> js)].
Proof.
  apply (capture_then_replay_calls_back_alike P0 objects capture_opts
           replay_opts answer seven VUndefined [VNum 42] 1 ∅ "[42,null]"
           (VNum 5) [VNull; VNum 7] objects_closed I).
  - repeat constructor.
  - exact blank_EOL.
  - exact capture_opts_capture.
  - exact replay_opts_not_live.
  - exact replay_opts_not_capture.
  - reflexivity.
  - reflexivity.
  - reflexivity.
  - reflexivity.
  - reflexivity.
  - reflexivity.
  - reflexivity.
  - exact argStr_of_fetch_in_objects.
  - reflexivity.
  - reflexivity.
  - discriminate.
  - reflexivity.
  - apply nothing_refused.
Defined.

(** The capture of [answer(42, cb)] where the fixture cannot be written. *)
Lemma capture_unwritable_fixture_drops_the_callback_witness :
  let arguments := [VNum 42] ++ [VFun (UserFn 1)] in
  let path := filepath_of P0 capture_opts "[42,null]" in
  let w := wrapper P0 objects capture_opts answer VUndefined arguments
             (start (refused fixture_of_fetch)) in
  let e := session P0 objects capture_opts answer VUndefined arguments
             (start (refused fixture_of_fetch)) in
  w.1 = Done (RetValue (Heap (VNum 5)))
  /\ e.1 = Raised (SystemError "EACCES" path)
  /\ Forall (fun ev => is_delivery ev = false) (trace e.2)
  /\ fs e.2 = refused fixture_of_fetch.
Proof.
  apply (capture_unwritable_fixture_drops_the_callback P0 objects
           capture_opts answer VUndefined [VNum 42] 1
           (refused fixture_of_fetch) "[42,null]" (VNum 5) [VNull; VNum 7]
           (Some "5") "[null,7]" "EACCES" capture_opts_capture eq_refl
           argStr_of_fetch_in_objects);
    vm_compute; reflexivity.
Defined.

(** The capture of [resolving(1)] where the fixture cannot be written. *)
Lemma capture_unwritable_fixture_rejects_the_promise_witness :
  let path := filepath_of P0 capture_opts "[1]" in
  let e := session P0 objects capture_opts resolving VUndefined [VNum 1]
             (start (refused fixture_of_one)) in
  e.1 = Done RetPromise
  /\ filter (fun ev => is_delivery ev = true) (trace e.2)
     = [EvSettled (Rejected (Exception (SystemError "EACCES" path)))]
  /\ fs e.2 = refused fixture_of_one.
Proof.
  epose proof
    (capture_unwritable_fixture_rejects_the_promise P0 objects capture_opts
       resolving VUndefined [VNum 1] (refused fixture_of_one) "[1]" 0
       (VNum 8) (Some "[8]") _ "EACCES" capture_opts_capture
       argStr_of_one_in_objects eq_refl eq_refl eq_refl) as H.
  cbv zeta in H.
  edestruct H as (H1 & H2 & _ & H4);
    [vm_compute; reflexivity..|].
  by split_and!.
Defined.

Lemma argStr_of_both :
  argumentSerializer capture_opts
    (objects ++ [OArr [VNum 1; the_callback]]) (VRef (length objects))
  = Done (Some "[1,null]").
Proof. vm_compute. reflexivity. Qed.

Lemma capture_writes_only_its_fixture_witness :
  let e := session P0 objects capture_opts both VUndefined
             [VNum 1; the_callback] (start resolved) in
  (forall p content, EvWrite p content ∈ trace e.2 ->
     p = filepath_of P0 capture_opts "[1,null]")
  /\ (forall p, p <> filepath_of P0 capture_opts "[1,null]" ->
        fs e.2 !! p = resolved !! p).
Proof.
  apply (capture_writes_only_its_fixture P0 objects capture_opts both
           VUndefined [VNum 1; the_callback] resolved "[1,null]"
           capture_opts_capture argStr_of_both).
Defined.

(** Wrapping the inherited method [instance.fetch], then restoring it:
    the method is left as an own property of the instance. *)
Lemma wrap_then_restore_witness :
  exists obj' w obj'',
    wrapAsyncMethod P0 instance "fetch" (Some (OptString "/tmp/x"))
    = Done (obj', w)
    /\ restore obj' w = Done obj''
    /\ (forall name, get_method obj'' name = get_method instance name)
    /\ own obj'' !! "fetch" = Some (Method seven).
Proof.
  destruct (wrap_then_restore P0 instance "fetch" (OptString "/tmp/x")
              eq_refl)
    as (_ & obj' & w & Hw & _ & _ & _ & _ & obj'' & Hr & Hsame & _ & _
        & Hown & _).
  exists obj', w, obj''. split_and!; [exact Hw|exact Hr|exact Hsame|].
  exact Hown.
Defined.

(** Wrapping [service.fetch] twice. *)
Lemma restore_in_order_witness :
  exists obj1 inner obj2 outer,
    wrapAsyncMethod P0 service "fetch" (Some (OptString "/tmp/x"))
    = Done (obj1, inner)
    /\ wrapAsyncMethod P0 obj1 "fetch" (Some (OptString "/tmp/y"))
       = Done (obj2, outer)
    /\ outer = Wrapper "fetch" (resolve_options P0 "fetch" (OptString "/tmp/y"))
                 inner
    /\ (exists a b,
          restore obj2 outer = Done a /\ restore a inner = Done b
          /\ get_method a "fetch" = inner
          /\ get_method b "fetch" = get_method service "fetch")
    /\ (exists a b,
          restore obj2 inner = Done a /\ restore a outer = Done b
          /\ get_method a "fetch" = get_method service "fetch"
          /\ get_method b "fetch" = inner).
Proof.
  apply (restore_in_order P0 service "fetch" (OptString "/tmp/x")
           (OptString "/tmp/y")); reflexivity.
Defined.

Lemma stringifySafe_agrees_with_stringify_witness :
  stringifySafe plain (VRef 0) None None None
  = Done (Some (JSON.render EmptyString EmptyString json_of_plain)).
Proof.
  apply (stringifySafe_agrees_with_stringify plain (VRef 0) None
           (Some (JSON.render EmptyString EmptyString json_of_plain))
           plain_closed).
  - simpl. lia.
  - vm_compute. reflexivity.
Defined.

Lemma stringifySafe_prints_json_witness :
  exists j,
    JSON.parse_text (JSON.render "  " EmptyString json_of_objects) = Done j
    /\ renders objects [] [] (VRef 2) (Some j).
Proof.
  apply (stringifySafe_prints_json objects (VRef 2) (Some "  ")
           (JSON.render "  " EmptyString json_of_objects) objects_closed).
  - simpl. lia.
  - repeat constructor.
  - vm_compute. reflexivity.
Defined.

Lemma capture_reads_nothing_witness :
  let e := session P0 objects capture_opts both VUndefined
             [VNum 1; the_callback] (start resolved) in
  Forall (fun ev => is_read ev = false) (trace e.2).
Proof.
  apply (capture_reads_nothing P0 objects capture_opts both VUndefined
           [VNum 1; the_callback] resolved capture_opts_capture).
Defined.

Lemma callback_is_not_in_the_fingerprint_witness :
  serialize_list objects defaultSerializer
    ([VNum 1; VRef 2] ++ [VFun (UserFn 1)])
  = serialize_list objects defaultSerializer
      ([VNum 1; VRef 2] ++ [VFun ProxyFn]).
Proof.
  apply (callback_is_not_in_the_fingerprint objects [VNum 1; VRef 2]
           (UserFn 1) ProxyFn objects_closed).
  repeat constructor; simpl; lia.
Defined.
